(** * VC4C: use-def registry, saturation helper and the hazard-aware scheduler

  Shallow embedding of
    - [src/asm/OpCodes.h]              (the [saturate] template),
    - [src/Locals.cpp]                 (the use-def registry of a [Local]),
    - [src/optimization/Reordering.cpp] (candidate search, NOP replacement,
      read-after-write splitting, rotation-source hoisting),
  followed by the properties established about them. *)

From Stdlib Require Import ZArith Lia Bool List.
From stdpp Require Import base option list gmap sets sorting.

(* ===================================================================== *)
(** ** asm/OpCodes.h *)
(* ===================================================================== *)

Module OpCodes.
Local Open Scope Z_scope.

(** An integral type [T], as far as [std::numeric_limits<T>] is concerned:
    its signedness and its width in bits. *)
Record IntegralType := mkIntegral { is_signed : bool; width : Z }.

Definition numeric_limits_min (T : IntegralType) : Z :=
  if is_signed T then - 2 ^ (width T - 1) else 0.

Definition numeric_limits_max (T : IntegralType) : Z :=
  if is_signed T then 2 ^ (width T - 1) - 1 else 2 ^ width T - 1.

Section Saturate.
(** Width of the C++ type [long] (64 on LP64 targets, 32 on ILP32). *)
Variable long_bits : Z.

Definition LONG_MIN : Z := - 2 ^ (long_bits - 1).
Definition LONG_MAX : Z := 2 ^ (long_bits - 1) - 1.

(** [static_cast<long>(x)]: two's-complement wrap-around into [long]. *)
Definition static_cast_long (x : Z) : Z :=
  (x + 2 ^ (long_bits - 1)) mod 2 ^ long_bits - 2 ^ (long_bits - 1).

(** [template<typename T> long saturate(long val)] *)
Definition saturate (T : IntegralType) (val : Z) : Z :=
  Z.min (Z.max val (static_cast_long (numeric_limits_min T)))
        (static_cast_long (numeric_limits_max T)).
End Saturate.

Definition int8_t : IntegralType := mkIntegral true 8.
Definition uint8_t : IntegralType := mkIntegral false 8.
Definition int16_t : IntegralType := mkIntegral true 16.
Definition uint16_t : IntegralType := mkIntegral false 16.
Definition int32_t : IntegralType := mkIntegral true 32.
Definition uint32_t : IntegralType := mkIntegral false 32.
Definition int64_t : IntegralType := mkIntegral true 64.
Definition uint64_t : IntegralType := mkIntegral false 64.

(** The limits of [T] are values of [long]. *)
Definition fits_long (long_bits : Z) (T : IntegralType) : Prop :=
  0 < width T /\
  (if is_signed T then width T <= long_bits else width T < long_bits).

End OpCodes.

(* ===================================================================== *)
(** ** Locals.cpp *)
(* ===================================================================== *)

Module Locals.
Local Open Scope Z_scope.

(** Modelled from the spec: [LocalUser::Type], the "flag set {READER, WRITER,
    BOTH}" of Locals.h, with READER = 1, WRITER = 2 and BOTH = 3, and the
    test [has_flag] on such sets. *)
Inductive Type_ := READER | WRITER | BOTH.

#[global] Instance Type_eq_dec : EqDecision Type_.
Proof. solve_decision. Defined.

Definition Type_bits (t : Type_) : Z :=
  match t with READER => 1 | WRITER => 2 | BOTH => 3 end.

(** [has_flag(val, flag)]: all bits of [flag] are set in [val]. *)
Definition has_flag (val flag : Type_) : bool :=
  Z.land (Type_bits val) (Type_bits flag) =? Type_bits flag.

(** A [const LocalUser*]: the address of the using instruction. *)
Definition LocalUser := nat.

(** Modelled from the spec: the use record [LocalUse] of Locals.h, "an
    accumulating pair of counters (read-count, write-count)"; the counters
    are unsigned 32-bit, so [++] and [--] wrap around. *)
Record LocalUse := mkUse { numWrites : Z; numReads : Z }.

Definition LocalUse_new : LocalUse := mkUse 0 0.
Definition uint32_wrap (z : Z) : Z := z mod 2 ^ 32.
Definition use_readsLocal (u : LocalUse) : bool := 0 <? numReads u.
Definition use_writesLocal (u : LocalUse) : bool := 0 <? numWrites u.
Definition incReads (u : LocalUse) : LocalUse :=
  mkUse (numWrites u) (uint32_wrap (numReads u + 1)).
Definition incWrites (u : LocalUse) : LocalUse :=
  mkUse (uint32_wrap (numWrites u + 1)) (numReads u).
Definition decReads (u : LocalUse) : LocalUse :=
  mkUse (numWrites u) (uint32_wrap (numReads u - 1)).
Definition decWrites (u : LocalUse) : LocalUse :=
  mkUse (uint32_wrap (numWrites u - 1)) (numReads u).

(** The part of a [Local] the registry is about: its [users] map. *)
Record Local := mkLocal { users : gmap LocalUser LocalUse }.

Definition Local_new : Local := mkLocal ∅.

(** [throw CompilationError(step, message, user.to_string())] *)
Inductive CompilationError :=
| NotRegisteredUser (user : LocalUser).

Inductive outcome (A : Type) :=
| Returns (a : A)
| Throws (e : CompilationError).
Arguments Returns {A} a.
Arguments Throws {A} e.

(** [const OrderedMap<...>& Local::getUsers() const] *)
Definition getUsers_all (l : Local) : gmap LocalUser LocalUse := users l.

Definition matches (type : Type_) (use : LocalUse) : bool :=
  (has_flag type READER && use_readsLocal use)
  || (has_flag type WRITER && use_writesLocal use).

(** [FastSet<const LocalUser*> Local::getUsers(const LocalUser::Type)] *)
Definition getUsers (l : Local) (type : Type_) : gset LocalUser :=
  fold_left (fun (acc : gset LocalUser) (entry : LocalUser * LocalUse) =>
               if matches type entry.2 then acc ∪ {[ entry.1 ]} else acc)
            (map_to_list (users l)) ∅.

(** The entries of [users] as [for(const auto& pair : this->users)] meets
    them: the [OrderedMap] is sorted by its keys, so the loop goes through
    the users in ascending order of their addresses. *)
Definition key_le (a b : LocalUser * LocalUse) : Prop := (a.1 <= b.1)%nat.

#[global] Instance key_le_dec : RelDecision key_le.
Proof. intros a b. unfold key_le. apply _. Defined.

Definition entries_in_order (l : Local) : list (LocalUser * LocalUse) :=
  merge_sort key_le (map_to_list (users l)).

(** [void Local::forUsers(type, consumer)]: the consumer is run on every
    matching user, in ascending order of the keys; the trace of calls is
    returned. *)
Definition forUsers (l : Local) (type : Type_) : list LocalUser :=
  (filter (fun entry : LocalUser * LocalUse => matches type entry.2 = true)
          (entries_in_order l)).*1.

(** [void Local::removeUser(const LocalUser& user, const LocalUser::Type)]:
    the Local after the call, and the exception the call ends with, if any. *)
Definition removeUser (l : Local) (user : LocalUser) (type : Type_)
  : Local * option CompilationError :=
  if decide (type = BOTH) then
    (mkLocal (delete user (users l)), None)
  else
    match users l !! user with
    | None => (l, Some (NotRegisteredUser user))
    | Some use0 =>
        let use :=
          if decide (type = READER) then decReads use0
          else if decide (type = WRITER) then decWrites use0
          else use0 in
        if negb (use_readsLocal use) && negb (use_writesLocal use)
        then (mkLocal (delete user (users l)), None)
        else (mkLocal (<[user := use]> (users l)), None)
    end.

(** [void Local::addUser(const LocalUser& user, const LocalUser::Type)] *)
Definition addUser (l : Local) (user : LocalUser) (type : Type_) : Local :=
  let users1 :=
    match users l !! user with
    | None => <[user := LocalUse_new]> (users l)
    | Some _ => users l
    end in
  let bump (use : LocalUse) : LocalUse :=
    let use1 := if has_flag type READER then incReads use else use in
    if has_flag type WRITER then incWrites use1 else use1 in
  mkLocal (alter bump user users1).

(** The loop of [Local::getSingleWriter]; [writer] is the local variable,
    [None] standing for [nullptr]. *)
Fixpoint getSingleWriter_loop (pairs : list (LocalUser * LocalUse))
         (writer : option LocalUser) : option LocalUser :=
  match pairs with
  | [] => writer
  | entry :: rest =>
      if use_writesLocal entry.2 then
        match writer with
        | Some _ => None
        | None => getSingleWriter_loop rest (Some entry.1)
        end
      else getSingleWriter_loop rest writer
  end.

(** [const LocalUser* Local::getSingleWriter() const] *)
Definition getSingleWriter (l : Local) : option LocalUser :=
  getSingleWriter_loop (map_to_list (users l)) None.

(** The record-side queries for a (Local, user) pair, as [getUsers],
    [forUsers] and [removeUser] evaluate them ([pair.second.readsLocal()]):
    a user without a record neither reads nor writes. *)
Definition readsLocal (l : Local) (user : LocalUser) : bool :=
  from_option use_readsLocal false (users l !! user).
Definition writesLocal (l : Local) (user : LocalUser) : bool :=
  from_option use_writesLocal false (users l !! user).

(** [bool LocalUser::readsLocal(const Local* local) const] and
    [bool LocalUser::writesLocal(const Local* local) const] for a user whose
    [getUsedLocals()] returns [allLocals] (locals are named by their
    addresses): what is asked is the user's own map, never the [users] of the
    Local. *)
Definition user_readsLocal (allLocals : gmap nat Type_) (local : nat) : bool :=
  match allLocals !! local with
  | Some t => has_flag t READER
  | None => false
  end.

Definition user_writesLocal (allLocals : gmap nat Type_) (local : nat) : bool :=
  match allLocals !! local with
  | Some t => has_flag t WRITER
  | None => false
  end.

(** Sequencing of fallible registry calls. *)
Definition bind {A B} (o : outcome A) (f : A -> outcome B) : outcome B :=
  match o with
  | Returns a => f a
  | Throws e => Throws e
  end.

(** The counters of a record hold values of their type. *)
Definition counters_in_range (use : LocalUse) : Prop :=
  0 <= numWrites use < 2 ^ 32 /\ 0 <= numReads use < 2 ^ 32.

(** A record that says something: its user reads or writes the local. *)
Definition live (use : LocalUse) : bool :=
  use_readsLocal use || use_writesLocal use.

(** The record of a user that has been registered [count] times, with
    [type] each time, and nothing else; and the Local that has this record
    for [user] beside the records [others], none when [count] is 0. *)
Definition use_of (type : Type_) (count : Z) : LocalUse :=
  match type with
  | READER => mkUse 0 count
  | WRITER => mkUse count 0
  | BOTH => mkUse count count
  end.

Definition registered (others : gmap LocalUser LocalUse) (user : LocalUser)
           (type : Type_) (count : Z) : Local :=
  mkLocal (if decide (count = 0) then others
           else <[user := use_of type count]> others).

(** [n] calls of [addUser(user, type)] in a row. *)
Fixpoint addUser_times (n : nat) (l : Local) (user : LocalUser) (type : Type_)
  : Local :=
  match n with
  | O => l
  | S n' => addUser_times n' (addUser l user type) user type
  end.

(** [n] calls of [removeUser(user, type)] in a row, up to the first one
    that throws. *)
Fixpoint removeUser_times (n : nat) (l : Local) (user : LocalUser)
         (type : Type_) : Local * option CompilationError :=
  match n with
  | O => (l, None)
  | S n' =>
      match removeUser l user type with
      | (l', None) => removeUser_times n' l' user type
      | (l', Some e) => (l', Some e)
      end
  end.

End Locals.

(* ===================================================================== *)
(** ** The intermediate representation used by optimization/Reordering.cpp *)
(* ===================================================================== *)

Module IR.
Import Locals.
Local Open Scope nat_scope.

(** A [const Local*]. *)
Definition LocalPtr := nat.

(** Modelled from the spec: the special-register set ("special-function-unit
    request/result registers, texture-unit address register, a
    memory-transfer-bus address/status register pair per direction, and a
    mutual-exclusion register"), the discard register [REG_NOP], and every
    other physical register. *)
Inductive Register :=
| REG_NOP | REG_MUTEX
| REG_SFU_EXP2 | REG_SFU_LOG2 | REG_SFU_OUT | REG_SFU_RECIP | REG_SFU_RECIP_SQRT
| REG_TMU_ADDRESS
| REG_VPM_IN_ADDR | REG_VPM_OUT_ADDR | REG_VPM_IN_BUSY | REG_VPM_OUT_BUSY
| REG_VPM_IO
| REG_FILE (num : nat).

#[global] Instance Register_eq_dec : EqDecision Register.
Proof. solve_decision. Defined.

Definition Register_encode (r : Register) : nat :=
  match r with
  | REG_NOP => 0 | REG_MUTEX => 1
  | REG_SFU_EXP2 => 2 | REG_SFU_LOG2 => 3 | REG_SFU_OUT => 4
  | REG_SFU_RECIP => 5 | REG_SFU_RECIP_SQRT => 6
  | REG_TMU_ADDRESS => 7
  | REG_VPM_IN_ADDR => 8 | REG_VPM_OUT_ADDR => 9
  | REG_VPM_IN_BUSY => 10 | REG_VPM_OUT_BUSY => 11
  | REG_VPM_IO => 12
  | REG_FILE n => 13 + n
  end.

Definition Register_decode (n : nat) : Register :=
  match n with
  | 0 => REG_NOP | 1 => REG_MUTEX
  | 2 => REG_SFU_EXP2 | 3 => REG_SFU_LOG2 | 4 => REG_SFU_OUT
  | 5 => REG_SFU_RECIP | 6 => REG_SFU_RECIP_SQRT
  | 7 => REG_TMU_ADDRESS
  | 8 => REG_VPM_IN_ADDR | 9 => REG_VPM_OUT_ADDR
  | 10 => REG_VPM_IN_BUSY | 11 => REG_VPM_OUT_BUSY
  | 12 => REG_VPM_IO
  | S (S (S (S (S (S (S (S (S (S (S (S (S k)))))))))))) => REG_FILE k
  end.

#[global] Instance Register_countable : Countable Register.
Proof.
  apply (inj_countable' Register_encode Register_decode).
  intros []; reflexivity.
Defined.

(** Modelled from the spec: a [Value] is "a reference to a Local ..., or a
    literal/register designator"; two values are equal when they designate
    the same local, register or literal. *)
Inductive Value :=
| LOCAL (local : LocalPtr)
| REGISTER (reg : Register)
| LITERAL (literal : Z).

#[global] Instance Value_eq_dec : EqDecision Value.
Proof. solve_decision. Defined.

#[global] Instance Value_countable : Countable Value.
Proof.
  apply (inj_countable'
           (fun v => match v with
                     | LOCAL l => inl l
                     | REGISTER r => inr (inl r)
                     | LITERAL z => inr (inr z)
                     end)
           (fun s => match s with
                     | inl l => LOCAL l
                     | inr (inl r) => REGISTER r
                     | inr (inr z) => LITERAL z
                     end)).
  intros []; reflexivity.
Defined.

(** [Value::hasRegister], [Value::hasLocal], [Value::hasType(LOCAL)] *)
Definition hasRegister (v : Value) (r : Register) : bool :=
  bool_decide (v = REGISTER r).
Definition hasLocal (v : Value) (l : LocalPtr) : bool :=
  bool_decide (v = LOCAL l).
Definition isLocalValue (v : Value) : bool :=
  match v with LOCAL _ => true | _ => false end.

(** [enum class DelayType] *)
Inductive DelayType :=
| BRANCH_DELAY | THREAD_END | WAIT_REGISTER | WAIT_SFU | WAIT_TMU.

#[global] Instance DelayType_eq_dec : EqDecision DelayType.
Proof. solve_decision. Defined.

(** The dynamic type of an instruction, as tested by [it.has<T>()]. *)
Inductive InstructionClass :=
| Branch | BranchLabel | MemoryBarrier
| Nop (type : DelayType)
| VectorRotation | MoveOperation | Operation.

#[global] Instance InstructionClass_eq_dec : EqDecision InstructionClass.
Proof. solve_decision. Defined.

(** Modelled from the spec: an [IntermediateInstruction] ("an optional
    result Value, an ordered sequence of argument Values, a boolean has
    side effects, a boolean has conditional execution, a boolean
    participates in final encoding, and a mutable flag may be fused"), with
    its address [self] (the [const LocalUser*] it is registered under) and
    whether a pack mode is set. *)
Record IntermediateInstruction := mkInstr {
  self : LocalUser;
  class : InstructionClass;
  getOutput : option Value;
  getArguments : list Value;
  hasConditionalExecution : bool;
  hasSideEffects : bool;
  mapsToASMInstruction : bool;
  hasPackMode : bool;
  canBeCombined : bool
}.

#[global] Instance IntermediateInstruction_eq_dec :
  EqDecision IntermediateInstruction.
Proof. solve_decision. Defined.

Definition set_canBeCombined (flag : bool) (i : IntermediateInstruction)
  : IntermediateInstruction :=
  mkInstr (self i) (class i) (getOutput i) (getArguments i)
          (hasConditionalExecution i) (hasSideEffects i)
          (mapsToASMInstruction i) (hasPackMode i) flag.

Definition set_arguments (args : list Value) (i : IntermediateInstruction)
  : IntermediateInstruction :=
  mkInstr (self i) (class i) (getOutput i) args
          (hasConditionalExecution i) (hasSideEffects i)
          (mapsToASMInstruction i) (hasPackMode i) (canBeCombined i).

(** [Optional<Value> getArgument(index)] *)
Definition getArgument (i : IntermediateInstruction) (index : nat)
  : option Value := getArguments i !! index.

(** [hasValueType(ValueType::LOCAL)]: the output is set and is a local. *)
Definition hasValueType_LOCAL (i : IntermediateInstruction) : bool :=
  from_option isLocalValue false (getOutput i).

Definition isNop (i : IntermediateInstruction) : bool :=
  match class i with Nop _ => true | _ => false end.
Definition isBranch (i : IntermediateInstruction) : bool :=
  bool_decide (class i = Branch).
Definition isBranchLabel (i : IntermediateInstruction) : bool :=
  bool_decide (class i = BranchLabel).
Definition isMemoryBarrier (i : IntermediateInstruction) : bool :=
  bool_decide (class i = MemoryBarrier).
Definition isVectorRotation (i : IntermediateInstruction) : bool :=
  bool_decide (class i = VectorRotation).

(** Modelled from the spec: [new Nop(type)], at address [addr]: no operands,
    unconditional, no signal, encoded as one machine instruction, fusable. *)
Definition new_Nop (addr : LocalUser) (type : DelayType)
  : IntermediateInstruction :=
  mkInstr addr (Nop type) None [] false false true false true.

(** Modelled from the spec: [new MoveOperation(dest, source)] at [addr]. *)
Definition new_MoveOperation (addr : LocalUser) (dest source : Value)
  : IntermediateInstruction :=
  mkInstr addr MoveOperation (Some dest) [source] false false true false true.

Definition add_flag (t : Type_) (o : option Type_) : option Type_ :=
  match o with
  | None => Some t
  | Some t' => Some (if decide (t = t') then t else BOTH)
  end.

(** Modelled from the spec: [getUsedLocals()], "the mapping of every Local
    it touches to a flag set, derived from its own operand/result fields":
    argument locals are read, an output local is written. *)
Definition getUsedLocals (i : IntermediateInstruction)
  : gmap LocalPtr Type_ :=
  let reads :=
    fold_left (fun (m : gmap LocalPtr Type_) (arg : Value) =>
                 match arg with
                 | LOCAL l => partial_alter (add_flag READER) l m
                 | _ => m
                 end) (getArguments i) ∅ in
  match getOutput i with
  | Some (LOCAL l) => partial_alter (add_flag WRITER) l reads
  | _ => reads
  end.

(** [bool LocalUser::readsLocal(const Local* local) const] (Locals.cpp) *)
Definition readsLocal (i : IntermediateInstruction) (local : LocalPtr) : bool :=
  match getUsedLocals i !! local with
  | Some t => has_flag t READER
  | None => false
  end.

(** [bool LocalUser::writesLocal(const Local* local) const] (Locals.cpp) *)
Definition writesLocal (i : IntermediateInstruction) (local : LocalPtr) : bool :=
  match getUsedLocals i !! local with
  | Some t => has_flag t WRITER
  | None => false
  end.

(** A basic block: its instruction list; a slot holding [nullptr] is
    [None]. *)
Abbreviation BasicBlock := (list (option IntermediateInstruction)).

(** Modelled from the spec: the [InstructionWalker] within one block, "an
    index-addressed, growable sequence per block with explicit tombstone
    (removed) slots"; the end-of-block cursor is the index [length b]. *)
Definition isStartOfBlock (it : nat) : bool := bool_decide (it = 0).
Definition isEndOfBlock (b : BasicBlock) (it : nat) : bool :=
  bool_decide (length b ≤ it).
Definition block_end (b : BasicBlock) : nat := length b.
Definition get (b : BasicBlock) (it : nat) : option IntermediateInstruction :=
  mjoin (b !! it).
Definition has (P : IntermediateInstruction -> bool) (b : BasicBlock) (it : nat)
  : bool := from_option P false (get b it).
Definition nextInBlock (it : nat) : nat := S it.
(** decrementing the begin cursor is undefined in the source; the index
    stays at 0 here. *)
Definition previousInBlock (it : nat) : nat := Nat.pred it.
(** [it.reset(instr)]: the slot at [it] now owns [instr]. *)
Definition reset (b : BasicBlock) (it : nat)
           (instr : option IntermediateInstruction) : BasicBlock :=
  <[it := instr]> b.
(** [it.release()]: the slot gives up its instruction and holds [nullptr]. *)
Definition release (b : BasicBlock) (it : nat)
  : option IntermediateInstruction * BasicBlock :=
  (get b it, <[it := None]> b).
(** [it.emplace(instr)]: inserts before the cursor, which then designates
    the new instruction. *)
Definition emplace (b : BasicBlock) (it : nat) (instr : IntermediateInstruction)
  : BasicBlock := take it b ++ Some instr :: drop it b.
(** [it.emplace(ptr)] with the pointer a [release()] has handed over, which
    is [nullptr] when the released slot was empty. *)
Definition emplace_released (b : BasicBlock) (it : nat)
           (ptr : option IntermediateInstruction) : BasicBlock :=
  take it b ++ ptr :: drop it b.
(** [it.erase()]: the slot itself leaves the sequence (the last line of the
    illustration in [moveInstructionUp]: "f a b c d e nil" becomes
    "f a b c d e"). *)
Definition erase (b : BasicBlock) (it : nat) : BasicBlock := delete it b.

End IR.

(* ===================================================================== *)
(** ** optimization/Reordering.cpp: candidate search and NOP replacement *)
(* ===================================================================== *)

Module Reordering.
Import Locals IR.
Local Open Scope nat_scope.

(** [findPreviousInstruction]: walks back from [pos] to the nearest
    instruction with an output; stops at the start of the block. *)
Fixpoint findPreviousInstruction (basicBlock : BasicBlock) (it : nat) : nat :=
  match it with
  | 0 => 0
  | S prev =>
      match get basicBlock it with
      | Some instr =>
          if bool_decide (is_Some (getOutput instr)) then it
          else findPreviousInstruction basicBlock prev
      | None => findPreviousInstruction basicBlock prev
      end
  end.

(** The six registers inserted as a group for SFU/TMU hazards. *)
Definition SFU_TMU_registers : gset Value :=
  {[ REGISTER REG_SFU_EXP2; REGISTER REG_SFU_LOG2; REGISTER REG_SFU_OUT;
     REGISTER REG_SFU_RECIP; REGISTER REG_SFU_RECIP_SQRT;
     REGISTER REG_TMU_ADDRESS ]}.

(** The value of [validReplacement] after the checks of lines 49-84. *)
Definition validReplacement (instr : IntermediateInstruction)
           (excludedValues : gset Value) : bool :=
  let valid := true in
  let valid :=
    if from_option (fun out => bool_decide (out ∈ excludedValues)) false
                   (getOutput instr)
    then false else valid in
  let valid :=
    if existsb (fun arg => bool_decide (arg ∈ excludedValues))
               (getArguments instr)
    then false else valid in
  let valid :=
    if valid && (hasConditionalExecution instr || hasSideEffects instr)
    then false else valid in
  let valid :=
    if valid && (isBranch instr || isBranchLabel instr || isMemoryBarrier instr)
    then false else valid in
  let valid := if valid && isNop instr then false else valid in
  let valid :=
    if valid && negb (mapsToASMInstruction instr) then false else valid in
  valid.

Definition writesMutex (instr : IntermediateInstruction) : bool :=
  from_option (fun out => hasRegister out REG_MUTEX) false (getOutput instr).

Definition readsMutex (instr : IntermediateInstruction) : bool :=
  from_option (fun arg => hasRegister arg REG_MUTEX) false (getArgument instr 0)
  || from_option (fun arg => hasRegister arg REG_MUTEX) false (getArgument instr 1).

(** Lines 108-124: the output of a skipped instruction joins the excluded
    values, an SFU/TMU output widens them to the whole group. *)
Definition excludeOutput (instr : IntermediateInstruction)
           (excludedValues : gset Value) : gset Value :=
  match getOutput instr with
  | Some out =>
      if negb (hasRegister out REG_NOP) then
        let excluded := excludedValues ∪ {[ out ]} in
        if hasRegister out REG_SFU_EXP2 || hasRegister out REG_SFU_LOG2
           || hasRegister out REG_SFU_RECIP || hasRegister out REG_SFU_RECIP_SQRT
           || hasRegister out REG_TMU_ADDRESS
        then excluded ∪ SFU_TMU_registers
        else excluded
      else excludedValues
  | None => excludedValues
  end.

(** How the [while] loop of [findInstructionNotAccessing] is left: by one
    of the two [return basicBlock.end()] inside it, or through its
    condition or its [break], with the cursor, the remaining budget and the
    excluded values of that moment. *)
Inductive scan_exit :=
| ReturnEnd
| LoopLeft (it : nat) (instrctionsLeft : nat) (excludedValues : gset Value).

Fixpoint scan (basicBlock : BasicBlock) (instrctionsLeft : nat) (it : nat)
         (excludedValues : gset Value) : scan_exit :=
  match instrctionsLeft with
  | 0 => LoopLeft it 0 excludedValues
  | S left' =>
      if isEndOfBlock basicBlock it then LoopLeft it instrctionsLeft excludedValues
      else
        match get basicBlock it with
        | None => scan basicBlock left' (nextInBlock it) excludedValues
        | Some instr =>
            let valid := validReplacement instr excludedValues in
            if valid && writesMutex instr then ReturnEnd
            else if valid && readsMutex instr then ReturnEnd
            else if valid then LoopLeft it instrctionsLeft excludedValues
            else scan basicBlock left' (nextInBlock it)
                      (excludeOutput instr excludedValues)
        end
  end.

Section Search.
(** The constant [REPLACE_NOP_MAX_INSTRUCTIONS_TO_CHECK] (declared outside
    the files at hand). *)
Variable REPLACE_NOP_MAX_INSTRUCTIONS_TO_CHECK : nat.

(** [findInstructionNotAccessing(basicBlock, pos, excludedValues)] *)
Definition findInstructionNotAccessing (basicBlock : BasicBlock) (pos : nat)
           (excludedValues : gset Value) : nat :=
  match scan basicBlock REPLACE_NOP_MAX_INSTRUCTIONS_TO_CHECK pos
             excludedValues with
  | ReturnEnd => block_end basicBlock
  | LoopLeft it instrctionsLeft _ =>
      if bool_decide (instrctionsLeft = 0) then block_end basicBlock else it
  end.

(** [findReplacementCandidate(basicBlock, pos, nopReason)] *)
Definition findReplacementCandidate (basicBlock : BasicBlock) (pos : nat)
           (nopReason : DelayType) : nat :=
  match nopReason with
  | BRANCH_DELAY => block_end basicBlock
  | THREAD_END => block_end basicBlock
  | WAIT_REGISTER =>
      let lastInstruction := findPreviousInstruction basicBlock pos in
      if isStartOfBlock lastInstruction then block_end basicBlock
      else
        match get basicBlock lastInstruction ≫= getOutput with
        | Some out =>
            let excludedValues : gset Value := {[ out ]} in
            let excludedValues :=
              if hasRegister out REG_VPM_IN_ADDR
              then excludedValues ∪ {[ REGISTER REG_VPM_IN_BUSY;
                                       REGISTER REG_VPM_IO ]}
              else excludedValues in
            let excludedValues :=
              if hasRegister out REG_VPM_OUT_ADDR
              then excludedValues ∪ {[ REGISTER REG_VPM_OUT_BUSY;
                                       REGISTER REG_VPM_IO ]}
              else excludedValues in
            findInstructionNotAccessing basicBlock pos excludedValues
        | None =>
            (* not reached: [findPreviousInstruction] stops after the
               start of the block only at an instruction with an output *)
            block_end basicBlock
        end
  | WAIT_SFU | WAIT_TMU =>
      findInstructionNotAccessing basicBlock pos SFU_TMU_registers
  end.

(** One iteration of the loop of [replaceNOPs] with the cursor at [it]:
    the block afterwards and, when a NOP was replaced, the instruction
    named in the debug message "Replacing NOP with: ...". *)
Definition replaceNOPs_body (basicBlock : BasicBlock) (it : nat)
  : BasicBlock * option IntermediateInstruction :=
  match get basicBlock it with
  | Some nop =>
      match class nop with
      | Nop type =>
          if negb (hasSideEffects nop) then
            let replacementIt := findReplacementCandidate basicBlock it type in
            if negb (isEndOfBlock basicBlock replacementIt) then
              let cannotBeCombined := negb (canBeCombined nop) in
              let '(replacement, released) := release basicBlock replacementIt in
              let installed :=
                if cannotBeCombined
                then set_canBeCombined false <$> replacement
                else replacement in
              (reset released it installed, replacement)
            else (basicBlock, None)
          else (basicBlock, None)
      | _ => (basicBlock, None)
      end
  | None => (basicBlock, None)
  end.

(** The [while(!it.isEndOfBlock())] loop of [replaceNOPs]; [fuel] bounds
    the number of iterations. *)
Fixpoint replaceNOPs_loop (fuel : nat) (basicBlock : BasicBlock) (it : nat)
  : BasicBlock * list IntermediateInstruction :=
  match fuel with
  | 0 => (basicBlock, [])
  | S fuel' =>
      if isEndOfBlock basicBlock it then (basicBlock, [])
      else
        let '(block1, moved) := replaceNOPs_body basicBlock it in
        let '(block2, log) := replaceNOPs_loop fuel' block1 (nextInBlock it) in
        (block2, from_option (fun i => [i]) [] moved ++ log)
  end.

(** [replaceNOPs(basicBlock, method)]: the cursor starts at the begin of
    the block and advances once per iteration, so [length basicBlock]
    iterations reach the end. *)
Definition replaceNOPs_traced (basicBlock : BasicBlock)
  : BasicBlock * list IntermediateInstruction :=
  replaceNOPs_loop (length basicBlock) basicBlock 0.

Definition replaceNOPs (basicBlock : BasicBlock) : BasicBlock :=
  (replaceNOPs_traced basicBlock).1.

(** Modelled from the spec: [Method::cleanEmptyInstructions()], "empty
    slots are compacted out of the block at the end of the whole
    reordering pass". *)
Definition cleanEmptyInstructions (blocks : list BasicBlock)
  : list BasicBlock :=
  (fun b : BasicBlock => filter (fun slot => is_Some slot) b) <$> blocks.

(** [reorderWithinBasicBlocks(module, method, config)], on the blocks of
    the method. *)
Definition reorderWithinBasicBlocks (blocks : list BasicBlock)
  : list BasicBlock :=
  cleanEmptyInstructions (replaceNOPs <$> blocks).

End Search.

(** The block as it stands when the loop of [replaceNOPs] has its cursor at
    [it]: after the iterations for the slots before [it]. *)
Definition replaceNOPs_upto (N : nat) (basicBlock : BasicBlock) (it : nat)
  : BasicBlock := (replaceNOPs_loop N it basicBlock 0).1.

(** An instruction the search may hand out: none of the kinds and flags
    rejected by lines 64-84. *)
Definition relocatable (instr : IntermediateInstruction) : Prop :=
  isBranch instr = false /\ isBranchLabel instr = false
  /\ isMemoryBarrier instr = false /\ isNop instr = false
  /\ hasConditionalExecution instr = false /\ hasSideEffects instr = false.

(** Two instructions that differ at most in the "may be fused" flag. *)
Definition same_instruction (i1 i2 : IntermediateInstruction) : Prop :=
  set_canBeCombined true i1 = set_canBeCombined true i2.

(** No two slots of the block hold the same object. *)
Definition distinct_addresses (b : BasicBlock) : Prop :=
  forall j1 j2 i1 i2,
    get b j1 = Some i1 -> get b j2 = Some i2 -> self i1 = self i2 -> j1 = j2.

(** Every instruction of [b'] stems from one of [b0] and either sits where
    it was or is relocatable. *)
Definition moved_only_relocatable (b0 b' : BasicBlock) : Prop :=
  forall i instr', get b' i = Some instr' ->
    exists j instr,
      get b0 j = Some instr /\ same_instruction instr instr'
      /\ (i = j \/ relocatable instr).


(** The position a search result stands for: none at the end of the
    block. *)
Definition candidate_at (b : BasicBlock) (it : nat) : option nat :=
  if isEndOfBlock b it then None else Some it.

(** [moveInstructionUp(dest, it)] within one block: the instruction at [it]
    is released, emplaced in front of [dest], and the emptied slot erased.
    The cursors are those of a linked list: the insertion in front of [dest]
    moves the slot of [it] up by one when [dest] is not behind it, and the
    erasure moves the new slot down by one when [dest] is behind [it]. The
    result is the block and the returned cursor [res]. *)
Definition moveInstructionUp (basicBlock : BasicBlock) (dest it : nat)
  : BasicBlock * nat :=
  let '(ptr, released) := release basicBlock it in
  let emplaced := emplace_released released dest ptr in
  let it1 := if bool_decide (dest ≤ it) then S it else it in
  let res := if bool_decide (dest ≤ it) then dest else Nat.pred dest in
  (erase emplaced it1, res).

(** The instruction writes [v] or has [v] among its arguments. *)
Definition accesses (instr : IntermediateInstruction) (v : Value) : Prop :=
  getOutput instr = Some v \/ v ∈ getArguments instr.

(** The NOPs [replaceNOPs] tries to replace (line 233). *)
Definition replaceable_NOP (instr : IntermediateInstruction) : bool :=
  isNop instr && negb (hasSideEffects instr).

(** The instructions lines 64-84 reject whatever the excluded values are. *)
Definition never_candidate (instr : IntermediateInstruction) : bool :=
  hasConditionalExecution instr || hasSideEffects instr
  || isBranch instr || isBranchLabel instr || isMemoryBarrier instr
  || isNop instr || negb (mapsToASMInstruction instr).

(** The slots that hold an instruction other than a replaceable NOP, and
    those that hold a replaceable NOP. *)
Definition holds_other (slot : option IntermediateInstruction) : bool :=
  from_option (fun instr => negb (replaceable_NOP instr)) false slot.
Definition holds_replaceable_NOP (slot : option IntermediateInstruction)
  : bool := from_option replaceable_NOP false slot.

(** How many slots of the block satisfy [P]. *)
Definition count_slots (P : option IntermediateInstruction -> bool)
           (b : BasicBlock) : nat :=
  length (filter (fun slot => P slot = true) b).

(** Every instruction of [b0] other than a replaceable NOP is still in
    [b'], in its slot or in one before it. *)
Definition nothing_lost (b0 b' : BasicBlock) : Prop :=
  forall j instr,
    get b0 j = Some instr -> replaceable_NOP instr = false ->
    exists i instr',
      i <= j /\ get b' i = Some instr' /\ same_instruction instr instr'.

(** The registers whose write makes the search exclude the whole SFU/TMU
    group (line 114). *)
Definition triggers_SFU_TMU_group (out : Value) : bool :=
  hasRegister out REG_SFU_EXP2 || hasRegister out REG_SFU_LOG2
  || hasRegister out REG_SFU_RECIP || hasRegister out REG_SFU_RECIP_SQRT
  || hasRegister out REG_TMU_ADDRESS.

End Reordering.

(* ===================================================================== *)
(** ** optimization/Reordering.cpp: the passes over a whole method *)
(* ===================================================================== *)

Module Passes.
Import Locals IR Reordering.
Local Open Scope nat_scope.

(** A method: its basic blocks and the Local objects it owns, each with its
    user map, addressed by their [const Local*]. A Local without an entry has
    no users. *)
Record Method := mkMethod {
  getBasicBlocks : list BasicBlock;
  locals : gmap LocalPtr Local
}.

(** Modelled from the spec: the [InstructionWalker] over a method, a block
    and a position in it. [nextInMethod] steps to the next slot and, from the
    end of a block, to the begin of the following block. *)
Record InstructionWalker := mkWalker { basicBlock : nat; pos : nat }.

#[global] Instance InstructionWalker_eq_dec : EqDecision InstructionWalker.
Proof. solve_decision. Defined.

Definition getBasicBlock (m : Method) (it : InstructionWalker) : BasicBlock :=
  default [] (getBasicBlocks m !! basicBlock it).

Definition walker_get (m : Method) (it : InstructionWalker)
  : option IntermediateInstruction :=
  get (getBasicBlock m it) (pos it).

Definition walker_isEndOfBlock (m : Method) (it : InstructionWalker) : bool :=
  isEndOfBlock (getBasicBlock m it) (pos it).

Definition isEndOfMethod (m : Method) (it : InstructionWalker) : bool :=
  if bool_decide (length (getBasicBlocks m) ≤ basicBlock it) then true
  else if negb (walker_isEndOfBlock m it) then false
  else bool_decide (S (basicBlock it) = length (getBasicBlocks m)).

Definition walker_nextInBlock (it : InstructionWalker) : InstructionWalker :=
  mkWalker (basicBlock it) (nextInBlock (pos it)).

Definition nextInMethod (m : Method) (it : InstructionWalker)
  : InstructionWalker :=
  let it1 := if walker_isEndOfBlock m it then it else walker_nextInBlock it in
  if walker_isEndOfBlock m it1 then
    if bool_decide (S (basicBlock it1) < length (getBasicBlocks m))
    then mkWalker (S (basicBlock it1)) 0
    else it1
  else it1.

(** [method.walkAllInstructions()]: the begin of the first block. *)
Definition walkAllInstructions (m : Method) : InstructionWalker := mkWalker 0 0.

(** [it.emplace(instr)] within the method. *)
Definition walker_emplace (m : Method) (it : InstructionWalker)
           (instr : IntermediateInstruction) : Method :=
  mkMethod (alter (fun b => emplace b (pos it) instr) (basicBlock it)
                  (getBasicBlocks m))
           (locals m).

(** A cursor keeps designating its instruction when another one is inserted
    in front of it: its index moves up by one. *)
Definition after_emplace (inserted it : InstructionWalker) : InstructionWalker :=
  if bool_decide (basicBlock it = basicBlock inserted)
     && bool_decide (pos inserted ≤ pos it)
  then mkWalker (basicBlock it) (S (pos it))
  else it.

(** The addresses of the instructions of the method; [new] yields an address
    that is none of them. *)
Definition addresses (m : Method) : gset LocalUser :=
  list_to_set (self <$> omap id (mjoin (getBasicBlocks m))).

Definition new_address (m : Method) : LocalUser := fresh (addresses m).

Section WithLiveness.
(** [BasicBlock::isLocallyLimited(curIt, locale)], defined outside the files
    at hand. *)
Variable isLocallyLimited : Method -> InstructionWalker -> LocalPtr -> bool.

(** The variables of the loop of [splitReadAfterWrites]. *)
Record SplitState := mkSplit {
  method : Method;
  it : InstructionWalker;
  lastInstruction : InstructionWalker;
  lastWrittenTo : option LocalPtr
}.

(** The condition of line 271. *)
Definition mustSplit (m : Method) (lastInstruction : InstructionWalker)
           (lastWrittenTo : LocalPtr) (instr : IntermediateInstruction) : bool :=
  from_option hasPackMode false (walker_get m lastInstruction)
  || isVectorRotation instr
  || negb (isLocallyLimited m lastInstruction lastWrittenTo).

(** One iteration of the loop of [splitReadAfterWrites]. *)
Definition splitReadAfterWrites_body (s : SplitState) : SplitState :=
  match walker_get (method s) (it s) with
  | None =>
      mkSplit (method s) (nextInMethod (method s) (it s))
              (lastInstruction s) (lastWrittenTo s)
  | Some instr =>
      let '(m1, it1) :=
        match lastWrittenTo s with
        | Some local =>
            if readsLocal instr local
               && mustSplit (method s) (lastInstruction s) local instr
            then
              let target := walker_nextInBlock (lastInstruction s) in
              (walker_emplace (method s) target
                              (new_Nop (new_address (method s)) WAIT_REGISTER),
               after_emplace target (it s))
            else (method s, it s)
        | None => (method s, it s)
        end in
      if mapsToASMInstruction instr then
        mkSplit m1 (nextInMethod m1 it1) it1
                (match getOutput instr with
                 | Some (LOCAL l) => Some l
                 | _ => None
                 end)
      else
        mkSplit m1 (nextInMethod m1 it1) (lastInstruction s) (lastWrittenTo s)
  end.

Fixpoint splitReadAfterWrites_loop (fuel : nat) (s : SplitState) : SplitState :=
  match fuel with
  | 0 => s
  | S fuel' =>
      if isEndOfMethod (method s) (it s) then s
      else splitReadAfterWrites_loop fuel' (splitReadAfterWrites_body s)
  end.

(** Every iteration moves the cursor past one slot or into the next block. *)
Definition split_fuel (m : Method) : nat :=
  length (mjoin (getBasicBlocks m)) + length (getBasicBlocks m).

(** [splitReadAfterWrites(module, method, config)] *)
Definition splitReadAfterWrites (m : Method) : Method :=
  let start := walkAllInstructions m in
  method (splitReadAfterWrites_loop (split_fuel m)
            (mkSplit m (nextInMethod m start) start None)).

(** The backward search for the writer of [loc] (lines 315-321). *)
Fixpoint findWriter (b : BasicBlock) (loc : LocalPtr) (writer : nat) : nat :=
  match writer with
  | 0 => 0
  | S prev =>
      if has (fun instr => hasValueType_LOCAL instr
                           && from_option (fun out => hasLocal out loc) false
                                          (getOutput instr))
             b writer
      then writer
      else findWriter b loc prev
  end.

(** The backward walk over NOPs (lines 327-328); at the begin of the block
    the source decrements the begin cursor, the walk ends there here. *)
Fixpoint findMapper (b : BasicBlock) (mapper : nat) : nat :=
  match mapper with
  | 0 => 0
  | S prev => if has isNop b prev then findMapper b prev else mapper
  end.

Definition update_local (m : Method) (l : LocalPtr) (f : Local -> Local)
  : Method :=
  mkMethod (getBasicBlocks m)
           (<[l := f (default Local_new (locals m !! l))]> (locals m)).


(** Modelled from the spec: [Method::addNewLocal(type, name)], "a freshly
    named temporary": a Local the method does not have yet, without users. *)
Definition addNewLocal (m : Method) : LocalPtr * Method :=
  let tmp := fresh (dom (locals m)) in
  (tmp, mkMethod (getBasicBlocks m) (<[tmp := Local_new]> (locals m))).

(** Modelled from the spec: an instruction registers itself with the locals
    among its operands ("every instruction insert/remove/replace in the IR
    must be paired with a registry update"). *)
Definition addAsUserToValue (user : LocalUser) (type : Type_) (m : Method)
           (v : Value) : Method :=
  match v with
  | LOCAL l => update_local m l (fun L => addUser L user type)
  | _ => m
  end.

Definition registerInstruction (m : Method) (instr : IntermediateInstruction)
  : Method :=
  let m1 := from_option (addAsUserToValue (self instr) WRITER m) m
                        (getOutput instr) in
  fold_left (addAsUserToValue (self instr) READER) (getArguments instr) m1.

(** Modelled from the spec: [replaceLocal(oldLocal, newLocal, READER)] on the
    instruction at [it]: every argument that is [oldLocal] is deregistered
    from it as a reader, becomes [newLocal] and is registered there. *)
Fixpoint replaceLocal_args (user : LocalUser) (oldLocal newLocal : LocalPtr)
         (args : list Value) (registry : gmap LocalPtr Local)
  : outcome (list Value * gmap LocalPtr Local) :=
  match args with
  | [] => Returns ([], registry)
  | arg :: rest =>
      if hasLocal arg oldLocal then
        match removeUser (default Local_new (registry !! oldLocal)) user READER
        with
        | (_, Some e) => Throws e
        | (old', None) =>
            let registry1 := <[oldLocal := old']> registry in
            let new' := addUser (default Local_new (registry1 !! newLocal))
                                user READER in
            let registry2 := <[newLocal := new']> registry1 in
            bind (replaceLocal_args user oldLocal newLocal rest registry2)
                 (fun r => Returns (LOCAL newLocal :: r.1, r.2))
        end
      else
        bind (replaceLocal_args user oldLocal newLocal rest registry)
             (fun r => Returns (arg :: r.1, r.2))
  end.

Definition replaceLocal_READER (m : Method) (it : InstructionWalker)
           (oldLocal newLocal : LocalPtr) : outcome Method :=
  match walker_get m it with
  | None => Returns m
  | Some instr =>
      if bool_decide (oldLocal = newLocal) then Returns m
      else
        bind (replaceLocal_args (self instr) oldLocal newLocal
                                (getArguments instr) (locals m))
             (fun r =>
                Returns
                  (mkMethod
                     (alter (fun b => reset b (pos it)
                                            (Some (set_arguments r.1 instr)))
                            (basicBlock it) (getBasicBlocks m))
                     r.2))
  end.

(** [moveRotationSourcesToAccumulators(module, method, it, config)] *)
Definition moveRotationSourcesToAccumulators (m : Method)
           (it : InstructionWalker) : outcome (Method * InstructionWalker) :=
  match walker_get m it with
  | Some rotation =>
      if isVectorRotation rotation then
        match getArgument rotation 0 with
        | Some (LOCAL loc) =>
            let b := getBasicBlock m it in
            let writer :=
              mkWalker (basicBlock it)
                       (findWriter b loc (previousInBlock (pos it))) in
            if isStartOfBlock (pos writer)
               || negb (isLocallyLimited m writer loc)
            then
              let mapper :=
                mkWalker (basicBlock it)
                         (findMapper b (previousInBlock (pos it))) in
              let '(tmp, m1) := addNewLocal m in
              let move :=
                new_MoveOperation (new_address m) (LOCAL tmp) (LOCAL loc) in
              let m2 := walker_emplace (registerInstruction m1 move) mapper move in
              bind (replaceLocal_READER m2 (after_emplace mapper it) loc tmp)
                   (fun m3 => Returns (m3, after_emplace mapper writer))
            else Returns (m, it)
        | _ => Returns (m, it)
        end
      else Returns (m, it)
  | None => Returns (m, it)
  end.

End WithLiveness.

(** The order of the cursors of a method. *)
Definition walker_le (a b : InstructionWalker) : Prop :=
  basicBlock a < basicBlock b
  \/ (basicBlock a = basicBlock b /\ pos a ≤ pos b).

Definition walker_lt (a b : InstructionWalker) : Prop :=
  basicBlock a < basicBlock b
  \/ (basicBlock a = basicBlock b /\ pos a < pos b).

(** What the cursor has still to visit: the rest of its block from the
    cursor on, and the blocks after it. *)
Definition ahead (m : Method) (it : InstructionWalker)
  : BasicBlock * list BasicBlock :=
  (drop (pos it) (getBasicBlock m it),
   drop (S (basicBlock it)) (getBasicBlocks m)).

(** What lies before and under the cursor: the blocks before its block, and
    its block up to and including its slot. *)
Definition behind (m : Method) (it : InstructionWalker)
  : list BasicBlock * BasicBlock :=
  (take (basicBlock it) (getBasicBlocks m),
   take (S (pos it)) (getBasicBlock m it)).

(** [ahead] after [nextInMethod]. *)
Definition advance (a : BasicBlock * list BasicBlock)
  : BasicBlock * list BasicBlock :=
  match a.1, a.2 with
  | _ :: (_ :: _) as rest, _ => (rest, a.2)
  | _, next :: blocks => (next, blocks)
  | _, [] => ([], [])
  end.

Definition ahead_size (a : BasicBlock * list BasicBlock) : nat :=
  length a.1 + length (mjoin a.2) + length a.2.

(** The last instruction recorded by the loop of [splitReadAfterWrites] is
    not after the cursor; once a written local is recorded, it is a slot of
    its block before the cursor. *)
Definition split_invariant (s : SplitState) : Prop :=
  walker_le (lastInstruction s) (it s)
  /\ (is_Some (lastWrittenTo s) ->
      walker_lt (lastInstruction s) (it s)
      /\ pos (lastInstruction s)
         < length (getBasicBlock (method s) (lastInstruction s))).

(** The Local behind a [const Local*]. *)
Definition local_of (m : Method) (l : LocalPtr) : Local :=
  default Local_new (locals m !! l).

(** [mapper] is where the contiguous run of NOPs that ends right before the
    slot [rotation] begins: every slot from [mapper] up to [rotation] holds a
    NOP, and the slot before [mapper] does not. *)
Definition placeholder_run_start (b : BasicBlock) (rotation mapper : nat)
  : Prop :=
  mapper ≤ rotation
  /\ (forall i, mapper ≤ i < rotation -> has isNop b i = true)
  /\ (mapper = 0 \/ has isNop b (mapper - 1) = false).

(** The method [m'] is [m] with the source [loc] of the rotation at [it]
    hoisted: a copy of [loc] into a temporary the method did not have stands
    right before the run of NOPs preceding the rotation, the rotation reads
    the temporary in place of [loc], the rotation is no reader of [loc] any
    more and is recorded as reading the temporary once. *)
Definition hoisted (m : Method) (it : InstructionWalker) (loc : LocalPtr)
           (m' : Method) : Prop :=
  exists rotation arguments tmp mapper,
    walker_get m it = Some rotation
    /\ getArguments rotation = LOCAL loc :: arguments
    /\ locals m !! tmp = None
    /\ placeholder_run_start (getBasicBlock m it) (pos it) mapper
    /\ getBasicBlocks m'
       = <[basicBlock it :=
             emplace (<[pos it := Some (set_arguments (LOCAL tmp :: arguments)
                                                      rotation)]>
                        (getBasicBlock m it))
                     mapper
                     (new_MoveOperation (new_address m) (LOCAL tmp) (LOCAL loc))]>
           (getBasicBlocks m)
    /\ Locals.readsLocal (local_of m' loc) (self rotation) = false
    /\ users (local_of m' tmp) !! self rotation = Some (mkUse 0 1).

(** The cursor [n] slots further on in its block. *)
Definition walker_plus (c : InstructionWalker) (n : nat) : InstructionWalker :=
  mkWalker (basicBlock c) (pos c + n).

(** The block [b'] is the block [b] with WAIT_REGISTER NOPs put in: every
    slot of [b] is kept, in order, and every other slot of [b'] holds a
    freshly made NOP. *)
Inductive placeholders_added : BasicBlock -> BasicBlock -> Prop :=
| added_none : placeholders_added [] []
| added_keep slot b b' :
    placeholders_added b b' -> placeholders_added (slot :: b) (slot :: b')
| added_placeholder addr b b' :
    placeholders_added b b' ->
    placeholders_added b (Some (new_Nop addr WAIT_REGISTER) :: b').

End Passes.

(* ===================================================================== *)
(** ** Sample instructions and blocks *)
(* ===================================================================== *)

Module Samples.
Import Locals IR Reordering.
Local Open Scope nat_scope.

(** [label:] *)
Definition label (addr : LocalUser) : IntermediateInstruction :=
  mkInstr addr BranchLabel None [] false false false false true.

(** [out = op args] on the ALU, unconditional, no flags, no signal *)
Definition alu (addr : LocalUser) (out : Value) (args : list Value)
  : IntermediateInstruction :=
  mkInstr addr Operation (Some out) args false false true false true.

(** [mov mutex, 1]: the mutex release *)
Definition mutex_release (addr : LocalUser) : IntermediateInstruction :=
  mkInstr addr MoveOperation (Some (REGISTER REG_MUTEX)) [LITERAL 1]
          false false true false true.

(** [mov.ifz mutex, 1]: a mutex release under a condition code *)
Definition mutex_release_conditional (addr : LocalUser)
  : IntermediateInstruction :=
  mkInstr addr MoveOperation (Some (REGISTER REG_MUTEX)) [LITERAL 1]
          true false true false true.

(** [mov -, mutex]: the mutex acquire *)
Definition mutex_acquire (addr : LocalUser) : IntermediateInstruction :=
  mkInstr addr MoveOperation (Some (REGISTER REG_NOP)) [REGISTER REG_MUTEX]
          false false true false true.

(** [%0 = 3; nop; %1 = %0 + 1; %2 = 5]: the last instruction is
    independent of the delayed value. *)
Definition block_independent : BasicBlock :=
  [ Some (label 0);
    Some (alu 1 (LOCAL 0) [LITERAL 3]);
    Some (mkInstr 2 (Nop WAIT_REGISTER) None [] false false true false false);
    Some (alu 3 (LOCAL 1) [LOCAL 0; LITERAL 1]);
    Some (alu 4 (LOCAL 2) [LITERAL 5]) ].

(** [%0 = 3; nop; mov mutex, 1; %1 = %2 + %3] *)
Definition block_release : BasicBlock :=
  [ Some (label 0);
    Some (alu 1 (LOCAL 0) [LITERAL 3]);
    Some (new_Nop 2 WAIT_REGISTER);
    Some (mutex_release 3);
    Some (alu 4 (LOCAL 1) [LOCAL 2; LOCAL 3]) ].

(** [%0 = 3; nop; mov.ifz mutex, 1; %1 = %2 + %3] *)
Definition block_conditional_release : BasicBlock :=
  [ Some (label 0);
    Some (alu 1 (LOCAL 0) [LITERAL 3]);
    Some (new_Nop 2 WAIT_REGISTER);
    Some (mutex_release_conditional 3);
    Some (alu 4 (LOCAL 1) [LOCAL 2; LOCAL 3]) ].

(** [mov mutex, 1; nop; mov -, mutex; %1 = %2 + %3]: the delay is for the
    mutex register itself, so it is among the excluded values when the
    acquire is reached. *)
Definition block_excluded_acquire : BasicBlock :=
  [ Some (label 0);
    Some (mutex_release 1);
    Some (new_Nop 2 WAIT_REGISTER);
    Some (mutex_acquire 3);
    Some (alu 4 (LOCAL 1) [LOCAL 2; LOCAL 3]) ].

(** [%0 = 3; nop; %1 = 5]: the write that the NOP waits for stands in the
    first slot of the block. *)
Definition block_write_first : BasicBlock :=
  [ Some (alu 1 (LOCAL 0) [LITERAL 3]);
    Some (new_Nop 2 WAIT_REGISTER);
    Some (alu 3 (LOCAL 1) [LITERAL 5]) ].

(** [label; sfu_recip = %0; nop; %1 = %2 + %3; %4 = sfu_out] *)
Definition block_sfu : BasicBlock :=
  [ Some (label 0);
    Some (alu 1 (REGISTER REG_SFU_RECIP) [LOCAL 0]);
    Some (new_Nop 2 WAIT_SFU);
    Some (alu 3 (LOCAL 1) [LOCAL 2; LOCAL 3]);
    Some (alu 4 (LOCAL 4) [REGISTER REG_SFU_OUT]) ].

(** [label; br; membar; %0 = 3] *)
Definition block_pinned : BasicBlock :=
  [ Some (label 0);
    Some (mkInstr 1 Branch None [] false false true false true);
    Some (mkInstr 2 MemoryBarrier None [] false false true false true);
    Some (alu 3 (LOCAL 0) [LITERAL 3]) ].

(** [%1 = rotate %0 by 1] *)
Definition rotation (addr : LocalUser) (out : Value) (args : list Value)
  : IntermediateInstruction :=
  mkInstr addr VectorRotation (Some out) args false false true false true.

(** The users of [%0] and [%1] in the two methods below. *)
Definition registry_write_rotate : gmap LocalPtr Local :=
  {[ 0 := mkLocal {[ 1 := mkUse 1 0; 2 := mkUse 0 1 ]};
     1 := mkLocal {[ 2 := mkUse 1 0 ]} ]}.

(** [label; %0 = 3; %1 = rotate %0 by 1] *)
Definition method_write_rotate : Passes.Method :=
  Passes.mkMethod
    [[ Some (label 0);
       Some (alu 1 (LOCAL 0) [LITERAL 3]);
       Some (rotation 2 (LOCAL 1) [LOCAL 0; LITERAL 1]) ]]
    registry_write_rotate.

(** [label; %0 = 3; nop; nop; %1 = rotate %0 by 1] *)
Definition method_write_nops_rotate : Passes.Method :=
  Passes.mkMethod
    [[ Some (label 0);
       Some (alu 1 (LOCAL 0) [LITERAL 3]);
       Some (new_Nop 7 WAIT_REGISTER);
       Some (new_Nop 8 WAIT_REGISTER);
       Some (rotation 2 (LOCAL 1) [LOCAL 0; LITERAL 1]) ]]
    registry_write_rotate.

(** [label; %0 = 3; %1 = %0 + 1] *)
Definition method_write_read : Passes.Method :=
  Passes.mkMethod
    [[ Some (label 0);
       Some (alu 1 (LOCAL 0) [LITERAL 3]);
       Some (alu 2 (LOCAL 1) [LOCAL 0; LITERAL 1]) ]]
    registry_write_rotate.

(** [label; %0 = 3; label; %1 = rotate %0 by 1]: a label stands between
    the write and the rotation that reads it. *)
Definition method_write_label_rotate : Passes.Method :=
  Passes.mkMethod
    [[ Some (label 0);
       Some (alu 1 (LOCAL 0) [LITERAL 3]);
       Some (label 5);
       Some (rotation 2 (LOCAL 1) [LOCAL 0; LITERAL 1]) ]]
    registry_write_rotate.

(** [label; %0 = 3; %1 = %0 + 1; %2 = %1 + 1; %3 = %0 + %2]: [%0] is read
    again three instructions after the write. *)
Definition method_write_read_later : Passes.Method :=
  Passes.mkMethod
    [[ Some (label 0);
       Some (alu 1 (LOCAL 0) [LITERAL 3]);
       Some (alu 2 (LOCAL 1) [LOCAL 0; LITERAL 1]);
       Some (alu 3 (LOCAL 2) [LOCAL 1; LITERAL 1]);
       Some (alu 4 (LOCAL 3) [LOCAL 0; LOCAL 2]) ]]
    registry_write_rotate.

(** A live-range test for the samples, which looks at the method and at the
    cursor: the local is limited at the cursor when no instruction reads it
    behind the [n] slots that follow the cursor in its block, nor in a later
    block. *)
Definition limited_within (n : nat) (m : Passes.Method)
           (it : Passes.InstructionWalker) (l : LocalPtr) : bool :=
  let unread (slot : option IntermediateInstruction) :=
    negb (from_option (fun instr => readsLocal instr l) false slot) in
  forallb unread (drop (S n) (Passes.ahead m it).1)
  && forallb (forallb unread) (Passes.ahead m it).2.

(** No local is locally limited / every local is. *)
Definition never_limited (m : Passes.Method) (it : Passes.InstructionWalker)
           (l : LocalPtr) : bool := false.
Definition always_limited (m : Passes.Method) (it : Passes.InstructionWalker)
           (l : LocalPtr) : bool := true.

End Samples.

(* ===================================================================== *)
(** * Properties *)
(* ===================================================================== *)

Section SaturateFacts.
Import OpCodes.
Local Open Scope Z_scope.

Lemma static_cast_long_id (long_bits x : Z) :
  0 < long_bits ->
  LONG_MIN long_bits <= x <= LONG_MAX long_bits ->
  static_cast_long long_bits x = x.
Proof.
  unfold LONG_MIN, LONG_MAX, static_cast_long. intros Hb Hx.
  assert (Hp : 2 ^ long_bits = 2 * 2 ^ (long_bits - 1)).
  { replace long_bits with (1 + (long_bits - 1)) at 1 by lia.
    rewrite Z.pow_add_r by lia. reflexivity. }
  assert (0 < 2 ^ (long_bits - 1)) by (apply Z.pow_pos_nonneg; lia).
  rewrite Z.mod_small by lia. lia.
Qed.

Lemma limits_in_long (long_bits : Z) (T : IntegralType) :
  0 < long_bits -> fits_long long_bits T ->
  LONG_MIN long_bits <= numeric_limits_min T <= LONG_MAX long_bits /\
  LONG_MIN long_bits <= numeric_limits_max T <= LONG_MAX long_bits /\
  numeric_limits_min T <= numeric_limits_max T.
Proof.
  unfold fits_long, LONG_MIN, LONG_MAX, numeric_limits_min, numeric_limits_max.
  intros Hb [Hw Hfit].
  assert (0 < 2 ^ (long_bits - 1)) by (apply Z.pow_pos_nonneg; lia).
  destruct (is_signed T).
  - assert (0 < 2 ^ (width T - 1)) by (apply Z.pow_pos_nonneg; lia).
    assert (2 ^ (width T - 1) <= 2 ^ (long_bits - 1))
      by (apply Z.pow_le_mono_r; lia).
    lia.
  - assert (0 < 2 ^ width T) by (apply Z.pow_pos_nonneg; lia).
    assert (2 ^ width T <= 2 ^ (long_bits - 1))
      by (apply Z.pow_le_mono_r; lia).
    lia.
Qed.

(** C10 (as amended). For every integral type [T] whose limits are values
    of [long], and every [v]: [saturate<T>(v)] is
    [min(max(v, T's minimum), T's maximum)], it lies in T's range, and it
    equals [v] exactly when [v] lies in T's range. *)
Theorem saturate_clamps (long_bits : Z) (T : IntegralType) (v : Z) :
  0 < long_bits -> fits_long long_bits T ->
  saturate long_bits T v
    = Z.min (Z.max v (numeric_limits_min T)) (numeric_limits_max T)
  /\ numeric_limits_min T <= saturate long_bits T v <= numeric_limits_max T
  /\ (saturate long_bits T v = v
      <-> numeric_limits_min T <= v <= numeric_limits_max T).
Proof.
  intros Hb Hfit.
  destruct (limits_in_long long_bits T Hb Hfit) as (Hmin & Hmax & Hle).
  unfold saturate.
  rewrite !static_cast_long_id by assumption.
  lia.
Qed.

Lemma saturate_clamps_witness :
  saturate 64 uint8_t 300 = 255 /\ saturate 64 int16_t (-5) = -5.
Proof.
  split.
  - destruct (saturate_clamps 64 uint8_t 300) as (H & _ & _);
      [lia | unfold fits_long; simpl; lia | ].
    rewrite H. reflexivity.
  - destruct (saturate_clamps 64 int16_t (-5)) as (_ & _ & H);
      [lia | unfold fits_long; simpl; lia | ].
    apply H. vm_compute. split; discriminate.
Defined.

(** C10, as stated, fails for a type wider than [long]'s positive range:
    with a 64-bit [long], [saturate<uint64_t>(5)] is [-1], which is neither
    [5] nor inside the range of [uint64_t]. *)
Lemma saturate_uint64_counterexample :
  ~ (forall (T : IntegralType) (v : Z),
        0 < width T ->
        LONG_MIN 64 <= v <= LONG_MAX 64 ->
        saturate 64 T v
          = Z.min (Z.max v (numeric_limits_min T)) (numeric_limits_max T)
        /\ numeric_limits_min T <= saturate 64 T v <= numeric_limits_max T
        /\ (saturate 64 T v = v
            <-> numeric_limits_min T <= v <= numeric_limits_max T)).
Proof.
  intros H.
  destruct (H uint64_t 5) as (H1 & _); [simpl; lia | vm_compute; split; discriminate | ].
  vm_compute in H1. discriminate.
Qed.

End SaturateFacts.

Section RegistryFacts.
Import Locals.
Local Open Scope Z_scope.

Implicit Types (L : Local) (U : LocalUser) (k : Type_).

(** [addUser(U, READER)] on a Local without a record for [U] creates the
    record (reads = 1, writes = 0). *)
Lemma addUser_READER_fresh L U :
  users L !! U = None ->
  users (addUser L U READER) = <[U := mkUse 0 1]> (users L).
Proof.
  intros Hnone. unfold addUser. rewrite Hnone. simpl.
  apply map_eq. intros i.
  destruct (decide (U = i)) as [->|Hne].
  - rewrite lookup_alter_eq, !lookup_insert_eq. reflexivity.
  - rewrite lookup_alter_ne, !lookup_insert_ne by assumption. reflexivity.
Qed.

Lemma getUsers_fold k (entries : list (LocalUser * LocalUse)) :
  forall (acc : gset LocalUser) U,
    U ∈ fold_left (fun (acc : gset LocalUser) (entry : LocalUser * LocalUse) =>
                     if matches k entry.2 then acc ∪ {[ entry.1 ]} else acc)
                  entries acc
    <-> U ∈ acc \/ exists use, (U, use) ∈ entries /\ matches k use = true.
Proof.
  induction entries as [|[u use] rest IH]; intros acc U; simpl.
  - split; [auto|]. intros [H|(use & H & _)]; [assumption | inversion H].
  - rewrite IH. destruct (matches k use) eqn:Hm.
    + rewrite elem_of_union, elem_of_singleton. split.
      * intros [[H| ->]|(use' & Hin & Hm')]; [auto | |].
        -- right. exists use. split; [left | assumption].
        -- right. exists use'. split; [right; assumption | assumption].
      * intros [H|(use' & Hin & Hm')]; [auto|].
        apply elem_of_cons in Hin as [Heq|Hin].
        -- injection Heq as -> ->. auto.
        -- right. eauto.
    + split.
      * intros [H|(use' & Hin & Hm')]; [auto|].
        right. exists use'. split; [right; assumption | assumption].
      * intros [H|(use' & Hin & Hm')]; [auto|].
        apply elem_of_cons in Hin as [Heq|Hin].
        -- injection Heq as -> ->. congruence.
        -- right. eauto.
Qed.

(** [getUsers(type)] holds the users whose record matches [type]. *)
Lemma elem_of_getUsers L U k :
  U ∈ getUsers L k
  <-> exists use, users L !! U = Some use /\ matches k use = true.
Proof.
  unfold getUsers. rewrite getUsers_fold. split.
  - intros [H|(use & Hin & Hm)]; [inversion H|].
    exists use. split; [|assumption]. apply elem_of_map_to_list. assumption.
  - intros (use & Hlk & Hm). right. exists use.
    split; [|assumption]. apply elem_of_map_to_list. assumption.
Qed.




(** C5. [removeUser(U, k)] with [k] other than BOTH throws exactly when
    [L] has no record for [U], and then [L] is as it was before the call;
    [removeUser(U, BOTH)] never throws and drops the record, also when
    called a second time. *)
Theorem removeUser_error_iff L U k :
  (k <> BOTH ->
     ((exists e, (removeUser L U k).2 = Some e) <-> users L !! U = None)
     /\ (users L !! U = None ->
         removeUser L U k = (L, Some (NotRegisteredUser U))))
  /\ (exists L1,
        removeUser L U BOTH = (L1, None)
        /\ users L1 = delete U (users L)
        /\ users L1 !! U = None
        /\ exists L2,
             removeUser L1 U BOTH = (L2, None)
             /\ users L2 = users L1
             /\ users L2 !! U = None).
Proof.
  split.
  - intros Hk. unfold removeUser.
    destruct (decide (k = BOTH)) as [Heq|_]; [contradiction|].
    destruct (users L !! U) as [use0|] eqn:Hlk.
    + split.
      * split; [|discriminate].
        intros [e He].
        destruct (negb _ && negb _) in He; discriminate.
      * discriminate.
    + split; [|reflexivity].
      split; [reflexivity|]. intros _. eexists. reflexivity.
  - exists (mkLocal (delete U (users L))).
    repeat split.
    + simpl. apply lookup_delete_eq.
    + exists (mkLocal (delete U (delete U (users L)))).
      repeat split; simpl.
      * apply delete_id. apply lookup_delete_eq.
      * apply lookup_delete_eq.
Qed.

Lemma removeUser_error_iff_witness :
  removeUser Local_new 5%nat WRITER = (Local_new, Some (NotRegisteredUser 5%nat)).
Proof.
  destruct (removeUser_error_iff Local_new 5%nat WRITER) as [H _].
  destruct H as [_ H]; [discriminate|].
  apply H. reflexivity.
Defined.

(** The loop of [getSingleWriter], described by the writing entries. *)
Lemma getSingleWriter_loop_spec (pairs : list (LocalUser * LocalUse)) :
  forall writer,
    getSingleWriter_loop pairs writer =
    match filter (fun e : LocalUser * LocalUse => use_writesLocal e.2 = true) pairs,
          writer with
    | [], _ => writer
    | [e], None => Some e.1
    | _, _ => None
    end.
Proof.
  induction pairs as [|e rest IH]; intros writer.
  - reflexivity.
  - simpl. rewrite filter_cons.
    destruct (use_writesLocal e.2) eqn:Hw.
    + rewrite decide_True by reflexivity.
      destruct writer as [w|]; [|rewrite IH];
        destruct (filter _ rest) as [|e1 [|e2 rest']]; reflexivity.
    + rewrite decide_False by discriminate.
      apply IH.
Qed.

Lemma writing_entries_lookup L U (use : LocalUse) :
  (U, use) ∈ filter (fun e : LocalUser * LocalUse => use_writesLocal e.2 = true)
                    (map_to_list (users L))
  <-> users L !! U = Some use /\ use_writesLocal use = true.
Proof.
  rewrite list_elem_of_filter, elem_of_map_to_list. simpl. tauto.
Qed.

Lemma writing_entries_NoDup L :
  NoDup (filter (fun e : LocalUser * LocalUse => use_writesLocal e.2 = true)
                (map_to_list (users L))).*1.
Proof.
  apply NoDup_fmap_fst.
  - intros x y1 y2 [H1 _]%writing_entries_lookup [H2 _]%writing_entries_lookup.
    congruence.
  - apply NoDup_filter, NoDup_map_to_list.
Qed.

(** C6. [getSingleWriter] is "none" when no recorded user writes [L], is
    "none" when two distinct recorded users write [L], and is the writer
    when exactly one recorded user writes [L]. *)
Theorem getSingleWriter_unique L :
  ((forall U use, users L !! U = Some use -> use_writesLocal use = false) ->
     getSingleWriter L = None)
  /\ (forall U1 U2 use1 use2,
        U1 <> U2 ->
        users L !! U1 = Some use1 -> use_writesLocal use1 = true ->
        users L !! U2 = Some use2 -> use_writesLocal use2 = true ->
        getSingleWriter L = None)
  /\ (forall U use,
        users L !! U = Some use -> use_writesLocal use = true ->
        (forall U' use', users L !! U' = Some use' ->
                         use_writesLocal use' = true -> U' = U) ->
        getSingleWriter L = Some U).
Proof.
  unfold getSingleWriter. rewrite getSingleWriter_loop_spec.
  pose proof (writing_entries_lookup L) as Hin.
  pose proof (writing_entries_NoDup L) as Hnd.
  destruct (filter _ (map_to_list (users L))) as [|[u1 s1] [|[u2 s2] rest]].
  - split; [reflexivity|]. split.
    + reflexivity.
    + intros U use Hlk Hw _.
      assert (Hel : (U, use) ∈ @nil (LocalUser * LocalUse)) by (apply Hin; auto).
      inversion Hel.
  - split; [|split].
    + intros Hnone.
      destruct (Hin u1 s1) as [Hl _].
      destruct Hl as [Hlk Hw]; [left|].
      rewrite (Hnone _ _ Hlk) in Hw. discriminate.
    + intros U1 U2 use1 use2 Hne H1 Hw1 H2 Hw2.
      assert (E1 : (U1, use1) ∈ [(u1, s1)]) by (apply Hin; auto).
      assert (E2 : (U2, use2) ∈ [(u1, s1)]) by (apply Hin; auto).
      apply list_elem_of_singleton in E1, E2. congruence.
    + intros U use Hlk Hw _.
      assert (E : (U, use) ∈ [(u1, s1)]) by (apply Hin; auto).
      apply list_elem_of_singleton in E. inversion E. reflexivity.
  - split; [|split].
    + intros Hnone.
      destruct (Hin u1 s1) as [Hl _].
      destruct Hl as [Hlk Hw]; [left|].
      rewrite (Hnone _ _ Hlk) in Hw. discriminate.
    + reflexivity.
    + intros U use Hlk Hw Huniq.
      destruct (Hin u1 s1) as [Hl1 _]. destruct Hl1 as [Hk1 Hw1]; [left|].
      destruct (Hin u2 s2) as [Hl2 _].
      destruct Hl2 as [Hk2 Hw2]; [right; left|].
      pose proof (Huniq _ _ Hk1 Hw1). pose proof (Huniq _ _ Hk2 Hw2).
      subst u1 u2. simpl in Hnd.
      apply NoDup_cons in Hnd as [Hnotin _].
      exfalso. apply Hnotin. left.
Qed.

Lemma getSingleWriter_unique_witness :
  getSingleWriter (mkLocal {[ 1%nat := mkUse 0 2; 4%nat := mkUse 1 1 ]}) = Some 4%nat.
Proof.
  destruct (getSingleWriter_unique
              (mkLocal {[ 1%nat := mkUse 0 2; 4%nat := mkUse 1 1 ]}))
    as (_ & _ & H).
  apply (H 4%nat (mkUse 1 1)).
  - reflexivity.
  - reflexivity.
  - intros U' use' Hlk Hw. simpl in Hlk.
    destruct (decide (U' = 1%nat)) as [->|H1].
    + vm_compute in Hlk. inversion Hlk; subst. discriminate.
    + destruct (decide (U' = 4%nat)) as [->|H4]; [reflexivity|].
      rewrite lookup_insert_ne in Hlk by congruence.
      rewrite lookup_singleton_ne in Hlk by congruence. discriminate.
Defined.

Lemma addUser_lookup_ne L U U' k :
  U <> U' -> users (addUser L U k) !! U' = users L !! U'.
Proof.
  intros Hne. unfold addUser. simpl.
  rewrite lookup_alter_ne by assumption.
  destruct (users L !! U); [reflexivity|].
  apply lookup_insert_ne. assumption.
Qed.

(** Removing the only read of [U] leaves [U] no reader of [L]. *)
Lemma removeUser_READER_last L U (use : LocalUse) :
  users L !! U = Some use -> numReads use = 1 ->
  exists L',
    removeUser L U READER = (L', None) /\ Locals.readsLocal L' U = false.
Proof.
  intros Hlk Hreads. unfold removeUser.
  destruct (decide (READER = BOTH)) as [Heq|_]; [discriminate|].
  rewrite Hlk. rewrite decide_True by reflexivity.
  unfold decReads, use_readsLocal, use_writesLocal. simpl. rewrite Hreads.
  change (uint32_wrap (1 - 1)) with 0. simpl.
  destruct (0 <? numWrites use); simpl.
  - eexists. split; [reflexivity|].
    unfold Locals.readsLocal. simpl. rewrite lookup_insert_eq. reflexivity.
  - eexists. split; [reflexivity|].
    unfold Locals.readsLocal. simpl. rewrite lookup_delete_eq. reflexivity.
Qed.

End RegistryFacts.

Section SearchFacts.
Import Locals IR Reordering.
Local Open Scope nat_scope.

Implicit Types (b : BasicBlock) (excl : gset Value)
         (instr : IntermediateInstruction).

Lemma isEndOfBlock_lookup b it :
  isEndOfBlock b it = true <-> b !! it = None.
Proof.
  unfold isEndOfBlock. rewrite bool_decide_eq_true.
  symmetry. apply lookup_ge_None.
Qed.

Lemma isEndOfBlock_false b it :
  isEndOfBlock b it = false <-> it < length b.
Proof.
  unfold isEndOfBlock. rewrite bool_decide_eq_false. lia.
Qed.

Lemma isEndOfBlock_ext b b' it :
  b !! it = b' !! it -> isEndOfBlock b it = isEndOfBlock b' it.
Proof.
  intros Heq. unfold isEndOfBlock. apply bool_decide_ext.
  rewrite <- !lookup_ge_None, Heq. reflexivity.
Qed.

(** Every check of lines 64-84 has passed when [validReplacement] holds. *)
Lemma validReplacement_true instr excl :
  validReplacement instr excl = true ->
  relocatable instr /\ mapsToASMInstruction instr = true
  /\ (forall out, getOutput instr = Some out -> out ∉ excl)
  /\ (forall arg, arg ∈ getArguments instr -> arg ∉ excl).
Proof.
  unfold validReplacement, relocatable. intros H. cbv zeta in H.
  destruct (from_option _ false (getOutput instr)) eqn:Hout;
    destruct (existsb _ (getArguments instr)) eqn:Hargs;
    destruct (hasConditionalExecution instr), (hasSideEffects instr),
      (isBranch instr), (isBranchLabel instr), (isMemoryBarrier instr),
      (isNop instr), (mapsToASMInstruction instr);
    cbn [andb orb negb] in H; try discriminate H.
  repeat split; try reflexivity.
  - intros out Hsome Hin. rewrite Hsome in Hout. simpl in Hout.
    apply bool_decide_eq_false in Hout. contradiction.
  - intros arg Hel Hin.
    assert (Hex : existsb (fun a => bool_decide (a ∈ excl)) (getArguments instr) = true).
    { apply existsb_exists. exists arg. split.
      - apply list_elem_of_In. exact Hel.
      - apply bool_decide_eq_true. exact Hin. }
    rewrite Hex in Hargs. discriminate.
Qed.

(** The scan passes one slot per unit of budget. *)
Lemma scan_budget b n : forall pos excl it l excl',
  scan b n pos excl = LoopLeft it l excl' -> it + l = pos + n.
Proof.
  induction n as [|n IH]; intros pos excl it l excl' H; simpl in H.
  - inversion H; subst. lia.
  - destruct (isEndOfBlock b pos).
    { inversion H; subst. lia. }
    destruct (get b pos) as [instr|].
    + destruct (validReplacement instr excl && writesMutex instr); [discriminate|].
      destruct (validReplacement instr excl && readsMutex instr); [discriminate|].
      destruct (validReplacement instr excl).
      * inversion H; subst. lia.
      * apply IH in H. unfold nextInBlock in H. lia.
    + apply IH in H. unfold nextInBlock in H. lia.
Qed.

(** Left with budget to spare, the loop is at the end of the block or at
    an instruction that passed every check. *)
Lemma scan_found b n : forall pos excl it l excl',
  scan b n pos excl = LoopLeft it l excl' -> l <> 0 ->
  isEndOfBlock b it = true
  \/ exists instr,
       get b it = Some instr /\ validReplacement instr excl' = true
       /\ writesMutex instr = false /\ readsMutex instr = false.
Proof.
  induction n as [|n IH]; intros pos excl it l excl' H Hl; simpl in H.
  - inversion H; subst. contradiction.
  - destruct (isEndOfBlock b pos) eqn:Hend.
    { inversion H; subst. left. assumption. }
    destruct (get b pos) as [instr|] eqn:Hget.
    + destruct (validReplacement instr excl) eqn:Hvalid; simpl in H.
      * destruct (writesMutex instr) eqn:Hw; [discriminate|].
        destruct (readsMutex instr) eqn:Hr; [discriminate|].
        inversion H; subst. right. exists instr. auto.
      * eapply IH; eassumption.
    + eapply IH; eassumption.
Qed.

(** The scan reads the block only between [pos] and [pos + n). *)
Lemma scan_window b b' n : forall pos excl,
  (forall i, pos <= i < pos + n -> b !! i = b' !! i) ->
  scan b n pos excl = scan b' n pos excl.
Proof.
  induction n as [|n IH]; intros pos excl Hwin; simpl.
  - reflexivity.
  - assert (Hpos : b !! pos = b' !! pos) by (apply Hwin; lia).
    rewrite (isEndOfBlock_ext b b' pos Hpos).
    unfold get. rewrite Hpos.
    destruct (isEndOfBlock b' pos); [reflexivity|].
    assert (Hrest : forall e, scan b n (nextInBlock pos) e
                              = scan b' n (nextInBlock pos) e).
    { intros e. apply IH. intros i Hi. apply Hwin.
      unfold nextInBlock in Hi. lia. }
    destruct (mjoin (b' !! pos)) as [instr|].
    + rewrite Hrest. reflexivity.
    + apply Hrest.
Qed.

Lemma scan_from_pos b n : forall pos excl it l excl',
  scan b n pos excl = LoopLeft it l excl' -> pos <= it.
Proof.
  induction n as [|n IH]; intros pos excl it l excl' H; simpl in H.
  - inversion H; subst. lia.
  - destruct (isEndOfBlock b pos).
    { inversion H; subst. lia. }
    destruct (get b pos) as [instr|].
    + destruct (validReplacement instr excl && writesMutex instr); [discriminate|].
      destruct (validReplacement instr excl && readsMutex instr); [discriminate|].
      destruct (validReplacement instr excl).
      * inversion H; subst. lia.
      * apply IH in H. unfold nextInBlock in H. lia.
    + apply IH in H. unfold nextInBlock in H. lia.
Qed.

(** What [findInstructionNotAccessing] returns when it returns a position
    inside the block. *)
Lemma findInstructionNotAccessing_found N b pos excl j :
  findInstructionNotAccessing N b pos excl = j -> j < length b ->
  pos <= j < pos + N
  /\ exists instr excl',
       get b j = Some instr /\ validReplacement instr excl' = true
       /\ writesMutex instr = false /\ readsMutex instr = false.
Proof.
  unfold findInstructionNotAccessing, block_end. intros H Hlt.
  destruct (scan b N pos excl) as [|it l excl'] eqn:Hscan; [lia|].
  destruct (bool_decide (l = 0)) eqn:Hl; [lia|].
  apply bool_decide_eq_false in Hl. subst it.
  pose proof (scan_budget _ _ _ _ _ _ _ Hscan).
  pose proof (scan_from_pos _ _ _ _ _ _ _ Hscan).
  split; [lia|].
  destruct (scan_found _ _ _ _ _ _ _ Hscan Hl) as [Hend|(instr & ? & ? & ? & ?)].
  - apply bool_decide_eq_true in Hend. lia.
  - exists instr, excl'. auto.
Qed.

Lemma findReplacementCandidate_found N b pos reason j :
  findReplacementCandidate N b pos reason = j -> j < length b ->
  pos <= j < pos + N
  /\ exists instr excl',
       get b j = Some instr /\ validReplacement instr excl' = true
       /\ writesMutex instr = false /\ readsMutex instr = false.
Proof.
  unfold findReplacementCandidate, block_end. intros H Hlt.
  destruct reason; try lia.
  - destruct (isStartOfBlock _); [lia|].
    destruct (get b _ ≫= getOutput); [|lia].
    eapply findInstructionNotAccessing_found; eassumption.
  - eapply findInstructionNotAccessing_found; eassumption.
  - eapply findInstructionNotAccessing_found; eassumption.
Qed.

End SearchFacts.

Section ReplaceFacts.
Import Locals IR Reordering.
Local Open Scope nat_scope.

Variable N : nat.

Implicit Types (b : BasicBlock) (instr : IntermediateInstruction).

Lemma same_instruction_refl instr : same_instruction instr instr.
Proof. reflexivity. Qed.

Lemma same_instruction_set flag instr :
  same_instruction instr (set_canBeCombined flag instr).
Proof. reflexivity. Qed.

Lemma same_instruction_trans i1 i2 i3 :
  same_instruction i1 i2 -> same_instruction i2 i3 -> same_instruction i1 i3.
Proof. unfold same_instruction. congruence. Qed.

Lemma same_instruction_self i1 i2 :
  same_instruction i1 i2 -> self i1 = self i2.
Proof.
  unfold same_instruction. intros H.
  apply (f_equal self) in H. exact H.
Qed.

Lemma same_instruction_relocatable i1 i2 :
  same_instruction i1 i2 -> relocatable i2 -> relocatable i1.
Proof.
  unfold same_instruction, relocatable, isBranch, isBranchLabel,
    isMemoryBarrier, isNop.
  intros H.
  pose proof (f_equal class H) as Hc.
  pose proof (f_equal hasConditionalExecution H) as He.
  pose proof (f_equal hasSideEffects H) as Hs.
  simpl in Hc, He, Hs. rewrite Hc, He, Hs. tauto.
Qed.

Lemma get_insert_eq b i (slot : option IntermediateInstruction) :
  i < length b -> get (<[i := slot]> b) i = slot.
Proof.
  intros Hlt. unfold get. rewrite list_lookup_insert_eq by assumption.
  reflexivity.
Qed.

Lemma get_insert_ne b i j (slot : option IntermediateInstruction) :
  i <> j -> get (<[i := slot]> b) j = get b j.
Proof.
  intros Hne. unfold get. rewrite list_lookup_insert_ne by assumption.
  reflexivity.
Qed.

Lemma get_Some_lt b i instr : get b i = Some instr -> i < length b.
Proof.
  unfold get. intros H.
  destruct (b !! i) eqn:E; [|discriminate].
  eapply lookup_lt_Some; eassumption.
Qed.

(** The effect of one iteration of [replaceNOPs] at a replaceable NOP for
    which the search returned the position [j]. *)
Lemma replaceNOPs_body_replaced b it nop type j :
  get b it = Some nop -> class nop = Nop type -> hasSideEffects nop = false ->
  findReplacementCandidate N b it type = j -> j < length b ->
  exists candidate,
    get b j = Some candidate /\ it < j /\ relocatable candidate
    /\ replaceNOPs_body N b it =
         (<[it := Some (if canBeCombined nop then candidate
                        else set_canBeCombined false candidate)]>
            (<[j := None]> b),
          Some candidate).
Proof.
  intros Hnop Hclass Hside Hfind Hlt.
  destruct (findReplacementCandidate_found N b it type j Hfind Hlt)
    as ([Hle _] & candidate & excl' & Hget & Hvalid & _ & _).
  apply validReplacement_true in Hvalid as (Hreloc & _).
  exists candidate. split; [assumption|].
  assert (Hne : it <> j).
  { intros ->. rewrite Hnop in Hget. inversion Hget; subst candidate.
    destruct Hreloc as (_ & _ & _ & Hn & _).
    unfold isNop in Hn. rewrite Hclass in Hn. discriminate. }
  split; [lia|]. split; [assumption|].
  unfold replaceNOPs_body, release, reset.
  rewrite Hnop, Hclass, Hside, Hfind. simpl negb. cbv iota.
  replace (isEndOfBlock b j) with false
    by (symmetry; apply isEndOfBlock_false; assumption).
  simpl negb. cbv iota. rewrite Hget.
  destruct (canBeCombined nop); reflexivity.
Qed.

(** In every other situation the iteration leaves the block alone. *)
Lemma replaceNOPs_body_cases b it :
  replaceNOPs_body N b it = (b, None)
  \/ exists nop type j,
       get b it = Some nop /\ class nop = Nop type
       /\ hasSideEffects nop = false
       /\ findReplacementCandidate N b it type = j /\ j < length b.
Proof.
  unfold replaceNOPs_body.
  destruct (get b it) as [nop|] eqn:Hnop; [|left; reflexivity].
  destruct (class nop) as [| | |type| | |] eqn:Hclass; try (left; reflexivity).
  destruct (hasSideEffects nop) eqn:Hside; [left; reflexivity|].
  simpl negb. cbv iota.
  destruct (isEndOfBlock b (findReplacementCandidate N b it type)) eqn:Hend;
    [left; reflexivity|].
  right. exists nop, type, (findReplacementCandidate N b it type).
  apply isEndOfBlock_false in Hend. auto.
Qed.

Lemma replaceNOPs_body_length b it :
  length (replaceNOPs_body N b it).1 = length b.
Proof.
  destruct (replaceNOPs_body_cases b it)
    as [->|(nop & type & j & Hnop & Hclass & Hside & Hfind & Hlt)];
    [reflexivity|].
  destruct (replaceNOPs_body_replaced b it nop type j Hnop Hclass Hside Hfind Hlt)
    as (candidate & _ & _ & _ & ->).
  simpl. rewrite !length_insert. reflexivity.
Qed.

Lemma replaceNOPs_body_log b it instr :
  (replaceNOPs_body N b it).2 = Some instr -> relocatable instr.
Proof.
  destruct (replaceNOPs_body_cases b it)
    as [->|(nop & type & j & Hnop & Hclass & Hside & Hfind & Hlt)];
    [discriminate|].
  destruct (replaceNOPs_body_replaced b it nop type j Hnop Hclass Hside Hfind Hlt)
    as (candidate & _ & _ & Hreloc & ->).
  simpl. intros H. inversion H; subst. assumption.
Qed.

Lemma replaceNOPs_body_moved b0 b it :
  moved_only_relocatable b0 b ->
  moved_only_relocatable b0 (replaceNOPs_body N b it).1.
Proof.
  intros Hinv.
  destruct (replaceNOPs_body_cases b it)
    as [->|(nop & type & j & Hnop & Hclass & Hside & Hfind & Hlt)];
    [assumption|].
  destruct (replaceNOPs_body_replaced b it nop type j Hnop Hclass Hside Hfind Hlt)
    as (candidate & Hget & Hltj & Hreloc & ->).
  simpl. intros i instr' Hi.
  destruct (decide (i = it)) as [->|Hne].
  - rewrite get_insert_eq in Hi
      by (rewrite length_insert; apply get_Some_lt in Hnop; assumption).
    destruct (Hinv j candidate Hget) as (j0 & instr0 & H0 & Hsame & _).
    exists j0, instr0. split; [assumption|].
    assert (Hsame' : same_instruction instr0 instr').
    { inversion Hi as [Hi']. destruct (canBeCombined nop);
        [assumption|].
      eapply same_instruction_trans; [exact Hsame|].
      apply same_instruction_set. }
    split; [assumption|].
    right. exact (same_instruction_relocatable _ _ Hsame Hreloc).
  - rewrite get_insert_ne in Hi by congruence.
    destruct (decide (i = j)) as [->|Hnej].
    + rewrite get_insert_eq in Hi by assumption. discriminate.
    + rewrite get_insert_ne in Hi by congruence.
      apply Hinv. assumption.
Qed.

Lemma replaceNOPs_loop_length fuel : forall b it,
  length (replaceNOPs_loop N fuel b it).1 = length b.
Proof.
  induction fuel as [|fuel IH]; intros b it; simpl; [reflexivity|].
  destruct (isEndOfBlock b it); [reflexivity|].
  pose proof (replaceNOPs_body_length b it) as Hbody.
  destruct (replaceNOPs_body N b it) as [block1 moved]. simpl in Hbody.
  specialize (IH block1 (nextInBlock it)).
  destruct (replaceNOPs_loop N fuel block1 (nextInBlock it)) as [block2 log].
  simpl in *. congruence.
Qed.

Lemma replaceNOPs_loop_log fuel : forall b it instr,
  instr ∈ (replaceNOPs_loop N fuel b it).2 -> relocatable instr.
Proof.
  induction fuel as [|fuel IH]; intros b it instr; simpl.
  - intros H. inversion H.
  - destruct (isEndOfBlock b it); [intros H; inversion H|].
    pose proof (replaceNOPs_body_log b it) as Hbody.
    destruct (replaceNOPs_body N b it) as [block1 moved]. simpl in Hbody.
    specialize (IH block1 (nextInBlock it) instr).
    destruct (replaceNOPs_loop N fuel block1 (nextInBlock it)) as [block2 log].
    simpl in *. intros [Hin|Hin]%elem_of_app.
    + destruct moved as [m|]; simpl in Hin.
      * apply list_elem_of_singleton in Hin. subst. apply Hbody. reflexivity.
      * inversion Hin.
    + apply IH. assumption.
Qed.

Lemma replaceNOPs_loop_moved fuel : forall b0 b it,
  moved_only_relocatable b0 b ->
  moved_only_relocatable b0 (replaceNOPs_loop N fuel b it).1.
Proof.
  induction fuel as [|fuel IH]; intros b0 b it Hinv; simpl; [assumption|].
  destruct (isEndOfBlock b it); [assumption|].
  pose proof (replaceNOPs_body_moved b0 b it Hinv) as Hbody.
  destruct (replaceNOPs_body N b it) as [block1 moved]. simpl in Hbody.
  specialize (IH b0 block1 (nextInBlock it) Hbody).
  destruct (replaceNOPs_loop N fuel block1 (nextInBlock it)) as [block2 log].
  assumption.
Qed.

(** [length basicBlock] iterations are enough for the loop of [replaceNOPs]
    to reach the end of the block: more iterations change nothing. *)
Lemma replaceNOPs_loop_enough fuel : forall b it extra,
  length b ≤ it + fuel ->
  replaceNOPs_loop N (fuel + extra) b it = replaceNOPs_loop N fuel b it.
Proof.
  induction fuel as [|fuel IH]; intros b it extra Hlen.
  - simpl. destruct extra as [|extra]; [reflexivity|]. simpl.
    unfold isEndOfBlock. rewrite bool_decide_eq_true_2 by lia. reflexivity.
  - simpl. destruct (isEndOfBlock b it); [reflexivity|].
    pose proof (replaceNOPs_body_length b it) as Hbody.
    destruct (replaceNOPs_body N b it) as [block1 moved]. simpl in Hbody.
    rewrite IH by (unfold nextInBlock; lia). reflexivity.
Qed.

(** An iteration writes to the slot of the cursor and to a slot behind it
    that holds an instruction: the slots before the cursor and the empty
    slots stay as they are, for the rest of the loop. *)
Lemma replaceNOPs_body_lookup b it i :
  i < it \/ b !! i = Some None ->
  (replaceNOPs_body N b it).1 !! i = b !! i.
Proof.
  intros Hi.
  destruct (replaceNOPs_body_cases b it)
    as [->|(nop & type & j & Hnop & Hclass & Hside & Hfind & Hlt)];
    [reflexivity|].
  destruct (replaceNOPs_body_replaced b it nop type j
              Hnop Hclass Hside Hfind Hlt)
    as (candidate & Hget & Hltj & _ & ->).
  simpl.
  assert (i <> it /\ i <> j) as [H1 H2].
  { destruct Hi as [Hi|Hi]; [lia|].
    split; intros ->; unfold get in *; rewrite Hi in *; discriminate. }
  rewrite !list_lookup_insert_ne by congruence. reflexivity.
Qed.

Lemma replaceNOPs_loop_lookup fuel : forall b it i,
  i < it \/ b !! i = Some None ->
  (replaceNOPs_loop N fuel b it).1 !! i = b !! i.
Proof.
  induction fuel as [|fuel IH]; intros b it i Hi; simpl; [reflexivity|].
  destruct (isEndOfBlock b it); [reflexivity|].
  pose proof (replaceNOPs_body_lookup b it i Hi) as Hbody.
  destruct (replaceNOPs_body N b it) as [block1 moved]. simpl in Hbody.
  specialize (IH block1 (nextInBlock it) i).
  destruct (replaceNOPs_loop N fuel block1 (nextInBlock it)) as [block2 log].
  simpl in *. rewrite IH; [assumption|].
  destruct Hi as [Hi|Hi]; [left; unfold nextInBlock; lia|].
  right. rewrite Hbody. assumption.
Qed.

(** [n + k] iterations are [n] iterations followed by [k] more. *)
Lemma replaceNOPs_loop_add n k : forall b it,
  (replaceNOPs_loop N (n + k) b it).1
  = (replaceNOPs_loop N k (replaceNOPs_loop N n b it).1 (it + n)).1.
Proof.
  induction n as [|n IH]; intros b it.
  - simpl. rewrite Nat.add_0_r. reflexivity.
  - cbn [Nat.add replaceNOPs_loop].
    destruct (isEndOfBlock b it) eqn:Hend.
    + simpl. destruct k as [|k]; [reflexivity|]. simpl.
      replace (isEndOfBlock b (it + S n)) with true; [reflexivity|].
      symmetry. unfold isEndOfBlock in *.
      apply bool_decide_eq_true. apply bool_decide_eq_true in Hend. lia.
    + specialize (IH (replaceNOPs_body N b it).1 (nextInBlock it)).
      destruct (replaceNOPs_body N b it) as [block1 moved]. simpl in IH.
      destruct (replaceNOPs_loop N (n + k) block1 (nextInBlock it))
        as [block2 log] eqn:H2.
      destruct (replaceNOPs_loop N n block1 (nextInBlock it))
        as [block3 log3] eqn:H3.
      simpl in *. rewrite IH. unfold nextInBlock.
      replace (it + S n) with (S it + n) by lia. reflexivity.
Qed.

(** The pass, seen from the iteration at [it]. *)
Lemma replaceNOPs_from b it :
  it < length b ->
  replaceNOPs N b
  = (replaceNOPs_loop N (length b - S it)
       (replaceNOPs_body N (replaceNOPs_upto N b it) it).1 (S it)).1.
Proof.
  intros Hit. unfold replaceNOPs, replaceNOPs_traced, replaceNOPs_upto.
  replace (length b) with (it + S (length b - S it)) at 1 by lia.
  rewrite replaceNOPs_loop_add. simpl Nat.add.
  set (now := (replaceNOPs_loop N it b 0).1).
  assert (Hlen : length now = length b) by apply replaceNOPs_loop_length.
  cbn [replaceNOPs_loop].
  replace (isEndOfBlock now it) with false
    by (symmetry; apply isEndOfBlock_false; lia).
  destruct (replaceNOPs_body N now it) as [block1 moved].
  unfold nextInBlock. cbn [fst].
  destruct (replaceNOPs_loop N (length b - S it) block1 (S it)) as [block2 log].
  reflexivity.
Qed.

Lemma replaceNOPs_upto_unchanged b it :
  (forall i nop, i < it -> get b i = Some nop -> replaceable_NOP nop = false) ->
  replaceNOPs_upto N b it = b.
Proof.
  unfold replaceNOPs_upto. intros Hnone.
  assert (H : forall fuel i0, i0 + fuel <= it ->
                (replaceNOPs_loop N fuel b i0).1 = b).
  { induction fuel as [|fuel IH]; intros i0 Hle; simpl; [reflexivity|].
    destruct (isEndOfBlock b i0); [reflexivity|].
    destruct (replaceNOPs_body_cases b i0)
      as [->|(nop & type & j & Hnop & Hclass & Hside & _)].
    - specialize (IH (nextInBlock i0)).
      destruct (replaceNOPs_loop N fuel b (nextInBlock i0)) as [block2 log].
      simpl in *. apply IH. unfold nextInBlock. lia.
    - assert (Hrepl : replaceable_NOP nop = false)
        by (apply (Hnone i0); [lia | assumption]).
      unfold replaceable_NOP, isNop in Hrepl.
      rewrite Hclass, Hside in Hrepl. discriminate. }
  apply (H it 0). lia.
Qed.

Lemma replaceNOPs_upto_S b it :
  it < length b ->
  replaceNOPs_upto N b (S it)
  = (replaceNOPs_body N (replaceNOPs_upto N b it) it).1.
Proof.
  intros Hit. unfold replaceNOPs_upto.
  replace (S it) with (it + 1) by lia.
  rewrite replaceNOPs_loop_add. simpl Nat.add.
  set (now := (replaceNOPs_loop N it b 0).1).
  assert (Hlen : length now = length b) by apply replaceNOPs_loop_length.
  cbn [replaceNOPs_loop].
  replace (isEndOfBlock now it) with false
    by (symmetry; apply isEndOfBlock_false; lia).
  destruct (replaceNOPs_body N now it) as [block1 moved]. reflexivity.
Qed.

End ReplaceFacts.

Section SchedulerClaims.
Import Locals IR Reordering Samples.
Local Open Scope nat_scope.

Implicit Types (b : BasicBlock) (instr : IntermediateInstruction).

(** The guarded form of the mutex rule, as the code has it: an instruction
    that has passed every earlier check and accesses the mutex register as
    output or as one of its first two arguments ends the search with "no
    candidate". *)
Lemma mutex_access_ends_search n b pos excl instr :
  get b pos = Some instr ->
  validReplacement instr excl = true ->
  writesMutex instr || readsMutex instr = true ->
  findInstructionNotAccessing (S n) b pos excl = block_end b.
Proof.
  intros Hget Hvalid Hmutex.
  unfold findInstructionNotAccessing. simpl.
  replace (isEndOfBlock b pos) with false
    by (symmetry; apply isEndOfBlock_false; eapply get_Some_lt; eassumption).
  rewrite Hget, Hvalid. simpl.
  destruct (writesMutex instr); [reflexivity|].
  simpl in Hmutex. rewrite Hmutex. reflexivity.
Qed.

(** C1 (the code at the failing input). The scan started at the NOP of
    [block_conditional_release] reaches the conditional mutex release at
    position 3, does not stop there, and returns the instruction behind it
    (position 4); [replaceNOPs] then moves that instruction in front of
    the release. The same happens in [block_excluded_acquire], where the
    mutex access is rejected for being among the excluded values. *)
Theorem mutex_release_crossed (k : nat) :
  (exists rel, get block_conditional_release 3 = Some rel
               /\ writesMutex rel = true)
  /\ findReplacementCandidate (3 + k) block_conditional_release 2 WAIT_REGISTER = 4
  /\ replaceNOPs (3 + k) block_conditional_release
     = [ Some (label 0);
         Some (alu 1 (LOCAL 0) [LITERAL 3]);
         Some (alu 4 (LOCAL 1) [LOCAL 2; LOCAL 3]);
         Some (mutex_release_conditional 3);
         None ]
  /\ (exists acq, get block_excluded_acquire 3 = Some acq
                  /\ readsMutex acq = true)
  /\ findReplacementCandidate (3 + k) block_excluded_acquire 2 WAIT_REGISTER = 4
  /\ findReplacementCandidate (3 + k) block_release 2 WAIT_REGISTER
     = block_end block_release.
Proof.
  split; [eexists; split; reflexivity|].
  split; [vm_compute; reflexivity|].
  split; [vm_compute; reflexivity|].
  split; [eexists; split; reflexivity|].
  split; vm_compute; reflexivity.
Qed.

(** C2. The position returned by the search, when inside the block, holds
    an instruction that is no branch, no label, no memory barrier, no NOP,
    and has neither conditional execution nor side effects; every
    instruction [replaceNOPs] reports as moved is of that kind; and in a
    block whose slots hold distinct objects, an instruction found at
    another position after [replaceNOPs] is of that kind. *)
Theorem candidate_is_relocatable (N : nat) :
  (forall b pos reason j,
      findReplacementCandidate N b pos reason = j -> j < length b ->
      exists instr, get b j = Some instr /\ relocatable instr)
  /\ (forall b instr,
        instr ∈ (replaceNOPs_traced N b).2 -> relocatable instr)
  /\ (forall b i j instr instr',
        distinct_addresses b ->
        get b j = Some instr ->
        get (replaceNOPs N b) i = Some instr' ->
        self instr' = self instr ->
        i <> j ->
        relocatable instr).
Proof.
  split; [|split].
  - intros b pos reason j Hfind Hlt.
    destruct (findReplacementCandidate_found N b pos reason j Hfind Hlt)
      as (_ & instr & excl' & Hget & Hvalid & _).
    exists instr. split; [assumption|].
    apply validReplacement_true in Hvalid. tauto.
  - intros b instr. apply replaceNOPs_loop_log.
  - intros b i j instr instr' Hdistinct Hj Hi Hself Hne.
    assert (Hinv : moved_only_relocatable b (replaceNOPs N b)).
    { apply replaceNOPs_loop_moved.
      intros i0 instr0 H0. exists i0, instr0.
      split; [assumption|]. split; [reflexivity|]. left. reflexivity. }
    destruct (Hinv i instr' Hi) as (j1 & instr1 & Hj1 & Hsame & Hor).
    apply same_instruction_self in Hsame.
    assert (j1 = j) by (eapply Hdistinct; eauto; congruence). subst j1.
    assert (instr1 = instr) by congruence. subst instr1.
    destruct Hor as [->|Hreloc]; [contradiction|assumption].
Qed.

Lemma candidate_is_relocatable_witness :
  exists instr, get block_independent 4 = Some instr /\ relocatable instr.
Proof.
  apply (proj1 (candidate_is_relocatable 8) block_independent 2 WAIT_REGISTER 4).
  - vm_compute. reflexivity.
  - simpl. lia.
Defined.

(** C8. The scan of [findInstructionNotAccessing] passes exactly one slot
    per unit of its budget of [N]; a position it returns inside the block is among
    the [N] slots from [pos] on; it depends on no other slot
    of the block; and with the budget used up it is the end of the block,
    whatever the cursor points at. *)
Theorem scan_is_bounded (N : nat) b pos excl :
  (forall it l excl',
      scan b N pos excl = LoopLeft it l excl' -> it + l = pos + N)
  /\ (forall j,
        candidate_at b (findInstructionNotAccessing N b pos excl) = Some j ->
        pos <= j < pos + N /\ j < length b)
  /\ (forall b',
        (forall i, pos <= i < pos + N -> b !! i = b' !! i) ->
        candidate_at b (findInstructionNotAccessing N b pos excl)
        = candidate_at b' (findInstructionNotAccessing N b' pos excl))
  /\ (forall it excl',
        scan b N pos excl = LoopLeft it 0 excl' ->
        findInstructionNotAccessing N b pos excl = block_end b).
Proof.
  split; [|split; [|split]].
  - apply scan_budget.
  - intros j Hj. unfold candidate_at in Hj.
    destruct (isEndOfBlock b _) eqn:Hend; [discriminate|].
    injection Hj as Hj'. rewrite Hj' in Hend.
    apply isEndOfBlock_false in Hend. split; [|assumption].
    apply (findInstructionNotAccessing_found N b pos excl j Hj' Hend).
  - intros b' Hwin. unfold findInstructionNotAccessing.
    rewrite <- (scan_window b b' N pos excl Hwin).
    assert (Hend : forall c : BasicBlock,
               candidate_at c (block_end c) = None).
    { intros c. unfold candidate_at, block_end, isEndOfBlock.
      rewrite bool_decide_eq_true_2 by lia. reflexivity. }
    destruct (scan b N pos excl) as [|it l excl'] eqn:Hscan.
    + rewrite !Hend. reflexivity.
    + destruct (bool_decide (l = 0)) eqn:Hl.
      * rewrite !Hend. reflexivity.
      * apply bool_decide_eq_false in Hl.
        pose proof (scan_budget _ _ _ _ _ _ _ Hscan).
        pose proof (scan_from_pos _ _ _ _ _ _ _ Hscan).
        unfold candidate_at.
        rewrite (isEndOfBlock_ext b b' it) by (apply Hwin; lia).
        reflexivity.
  - intros it excl' Hscan. unfold findInstructionNotAccessing.
    rewrite Hscan. reflexivity.
Qed.

Lemma scan_is_bounded_witness :
  findInstructionNotAccessing 2 block_independent 2 {[ LOCAL 0 ]}
  = block_end block_independent.
Proof.
  eapply (proj2 (proj2 (proj2
            (scan_is_bounded 2 block_independent 2 {[ LOCAL 0 ]})))).
  vm_compute. reflexivity.
Defined.

(** C9. When the loop of [replaceNOPs] stands at a NOP without side
    effects at [it] and the search returns the candidate at [j]: in the
    block that the pass returns, the slot at [it] holds the candidate, with
    its "may be fused" flag forced to false if that of the NOP was false and
    its own flag otherwise, and the slot at [j] is still there and empty
    (the block keeps its length); the iteration itself changes these two
    slots and no other, and the slots before [it] are final. The empty slot
    is gone only after [reorderWithinBasicBlocks] has treated all blocks:
    the block of the result holds the installed instruction and no empty
    slot, and is shorter. Before the first NOP without side effects the loop
    changes nothing, so that for this NOP the block the loop stands in is
    the block given to the pass. *)
Theorem replaceNOPs_installs_candidate (N : nat) :
  (forall b it nop type j,
      get (replaceNOPs_upto N b it) it = Some nop -> class nop = Nop type ->
      hasSideEffects nop = false ->
      findReplacementCandidate N (replaceNOPs_upto N b it) it type = j ->
      j < length b ->
      exists candidate installed,
        get (replaceNOPs_upto N b it) j = Some candidate /\ it < j
        /\ same_instruction candidate installed
        /\ canBeCombined installed
           = (if canBeCombined nop then canBeCombined candidate else false)
        /\ replaceNOPs_upto N b (S it)
           = <[it := Some installed]> (<[j := None]> (replaceNOPs_upto N b it))
        /\ get (replaceNOPs N b) it = Some installed
        /\ replaceNOPs N b !! j = Some None
        /\ length (replaceNOPs N b) = length b
        /\ (forall i, i < it ->
                      replaceNOPs N b !! i = replaceNOPs_upto N b it !! i)
        /\ (forall blocks bi, blocks !! bi = Some b ->
              exists b', reorderWithinBasicBlocks N blocks !! bi = Some b'
                         /\ Some installed ∈ b' /\ (None ∉ b')
                         /\ b' `sublist_of` replaceNOPs N b
                         /\ length b' < length b))
  /\ (forall b it,
        (forall i nop, i < it -> get b i = Some nop ->
                       replaceable_NOP nop = false) ->
        replaceNOPs_upto N b it = b).
Proof.
  split; [|apply replaceNOPs_upto_unchanged].
  intros b it nop type j Hnop Hclass Hside Hfind Hlt.
  set (now := replaceNOPs_upto N b it) in *.
  assert (Hlen : length now = length b) by apply replaceNOPs_loop_length.
  rewrite <- Hlen in Hlt.
  destruct (replaceNOPs_body_replaced N now it nop type j
              Hnop Hclass Hside Hfind Hlt)
    as (candidate & Hget & Hltj & _ & Hbody).
  pose proof (get_Some_lt _ _ _ Hnop) as Hit.
  set (installed := if canBeCombined nop then candidate
                    else set_canBeCombined false candidate) in *.
  assert (Hstep : replaceNOPs_upto N b (S it)
                  = <[it := Some installed]> (<[j := None]> now)).
  { rewrite replaceNOPs_upto_S by lia. fold now. rewrite Hbody. reflexivity. }
  assert (Hpass : forall i, i <= it \/ i = j ->
            replaceNOPs N b !! i
            = <[it := Some installed]> (<[j := None]> now) !! i).
  { intros i Hi. rewrite (replaceNOPs_from N b it) by lia. fold now.
    rewrite Hbody. cbn [fst]. apply replaceNOPs_loop_lookup.
    destruct Hi as [Hi| ->]; [left; lia|]. right.
    rewrite list_lookup_insert_ne by lia.
    apply list_lookup_insert_eq. assumption. }
  assert (Hinst : get (replaceNOPs N b) it = Some installed).
  { unfold get. rewrite Hpass by (left; lia).
    rewrite list_lookup_insert_eq by (rewrite length_insert; assumption).
    reflexivity. }
  assert (Hempty : replaceNOPs N b !! j = Some None).
  { rewrite Hpass by (right; reflexivity).
    rewrite list_lookup_insert_ne by lia.
    apply list_lookup_insert_eq. assumption. }
  exists candidate, installed.
  split; [assumption|]. split; [assumption|]. split.
  { unfold installed. destruct (canBeCombined nop);
      [reflexivity | apply same_instruction_set]. }
  split. { unfold installed. destruct (canBeCombined nop); reflexivity. }
  split; [assumption|]. split; [assumption|]. split; [assumption|].
  split; [apply replaceNOPs_loop_length|]. split.
  { intros i Hi. rewrite Hpass by (left; lia).
    rewrite !list_lookup_insert_ne by lia. reflexivity. }
  intros blocks bi Hb.
  exists (filter (fun slot => is_Some slot) (replaceNOPs N b)).
  split.
  { unfold reorderWithinBasicBlocks, cleanEmptyInstructions.
    rewrite !list_lookup_fmap, Hb. reflexivity. }
  split.
  { apply list_elem_of_filter. split; [eexists; reflexivity|].
    unfold get in Hinst.
    destruct (replaceNOPs N b !! it) as [slot|] eqn:Hslot; [|discriminate].
    simpl in Hinst. subst slot. eapply list_elem_of_lookup_2. eassumption. }
  split.
  { intros [Hsome _]%list_elem_of_filter. destruct Hsome as [x Hx].
    discriminate. }
  split; [apply sublist_filter|].
  rewrite <- (replaceNOPs_loop_length N (length b) b 0).
  fold (replaceNOPs_traced N b). fold (replaceNOPs N b).
  apply list_elem_of_lookup_2 in Hempty.
  clear -Hempty. induction (replaceNOPs N b) as [|slot rest IH];
    [inversion Hempty|].
  rewrite filter_cons. destruct (decide (is_Some slot)) as [Hs|Hs].
  - simpl. apply elem_of_cons in Hempty as [<-|Hin].
    + destruct Hs as [x Hx]. discriminate.
    + specialize (IH Hin). lia.
  - simpl. pose proof (length_filter (fun slot : option IntermediateInstruction => is_Some slot) rest). lia.
Qed.

Lemma replaceNOPs_installs_candidate_witness :
  exists candidate installed,
    get (replaceNOPs_upto 8 block_independent 2) 4 = Some candidate /\ 2 < 4
    /\ same_instruction candidate installed
    /\ canBeCombined installed = false
    /\ replaceNOPs_upto 8 block_independent 3
       = <[2 := Some installed]>
           (<[4 := None]> (replaceNOPs_upto 8 block_independent 2))
    /\ get (replaceNOPs 8 block_independent) 2 = Some installed
    /\ replaceNOPs 8 block_independent !! 4 = Some None
    /\ length (replaceNOPs 8 block_independent) = 5
    /\ (forall i, i < 2 ->
                  replaceNOPs 8 block_independent !! i
                  = replaceNOPs_upto 8 block_independent 2 !! i)
    /\ (forall blocks bi, blocks !! bi = Some block_independent ->
          exists b', reorderWithinBasicBlocks 8 blocks !! bi = Some b'
                     /\ Some installed ∈ b' /\ (None ∉ b')
                     /\ b' `sublist_of` replaceNOPs 8 block_independent
                     /\ length b' < 5).
Proof.
  apply (proj1 (replaceNOPs_installs_candidate 8) block_independent 2
               (mkInstr 2 (Nop WAIT_REGISTER) None [] false false true false false)
               WAIT_REGISTER 4).
  - vm_compute. reflexivity.
  - reflexivity.
  - reflexivity.
  - vm_compute. reflexivity.
  - simpl. lia.
Defined.

(** The pass on the sample block: the addition of slot 4 stands at the place
    of the NOP, with its flag cleared, and slot 4 is empty. *)
Lemma replaceNOPs_block_independent :
  replaceNOPs 8 block_independent
  = <[2 := set_canBeCombined false <$> block_independent !!! 4]>
      (<[4 := None]> block_independent).
Proof. vm_compute. reflexivity. Qed.

End SchedulerClaims.

Section HoistFacts.
Import Locals IR Reordering Passes Samples.
Local Open Scope nat_scope.

Implicit Types (b : BasicBlock) (m : Method) (it : InstructionWalker).

(** The walk of lines 327-328 started at [k] ends at the begin of the run of
    NOPs that ends right before [k]. *)
Lemma findMapper_run b k :
  findMapper b k ≤ k
  /\ (forall i, findMapper b k ≤ i < k -> has isNop b i = true)
  /\ (findMapper b k = 0 \/ has isNop b (findMapper b k - 1) = false).
Proof.
  induction k as [|k (IHle & IHrun & IHstart)]; simpl.
  - split; [lia|]. split; [intros i Hi; lia | left; reflexivity].
  - destruct (has isNop b k) eqn:Hk.
    + split; [lia|]. split; [|assumption].
      intros i Hi. destruct (decide (i = k)) as [->|Hne]; [assumption|].
      apply IHrun. lia.
    + split; [lia|]. split; [intros i Hi; lia|].
      right. simpl. rewrite Nat.sub_0_r. assumption.
Qed.

Lemma findMapper_placeholder_run b p :
  has isNop b (previousInBlock p) = true ->
  get b p ≠ None -> has isNop b p = false ->
  placeholder_run_start b p (findMapper b (previousInBlock p)).
Proof.
  intros Hprev Hget Hself.
  assert (Hp : p ≠ 0).
  { intros ->. simpl in Hprev. congruence. }
  destruct p as [|k]; [contradiction|]. simpl in *.
  destruct (findMapper_run b k) as (Hle & Hrun & Hstart).
  split; [lia|]. split; [|assumption].
  intros i Hi. destruct (decide (i = k)) as [->|Hne]; [assumption|].
  apply Hrun. lia.
Qed.

Lemma lookup_emplace_lt b i j (x : IntermediateInstruction) :
  j < i -> i ≤ length b -> emplace b i x !! j = b !! j.
Proof.
  intros Hlt Hlen. unfold emplace.
  rewrite lookup_app_l by (rewrite length_take; lia).
  apply lookup_take_lt. assumption.
Qed.

Lemma lookup_emplace_eq b i (x : IntermediateInstruction) :
  i ≤ length b -> emplace b i x !! i = Some (Some x).
Proof.
  intros Hlen. unfold emplace.
  rewrite lookup_app_r by (rewrite length_take; lia).
  rewrite length_take. replace (i - i `min` length b) with 0 by lia.
  reflexivity.
Qed.

Lemma lookup_emplace_gt b i j (x : IntermediateInstruction) :
  i ≤ j -> i ≤ length b -> emplace b i x !! S j = b !! j.
Proof.
  intros Hle Hlen. unfold emplace.
  rewrite lookup_app_r by (rewrite length_take; lia).
  rewrite length_take. replace (S j - i `min` length b) with (S (j - i)) by lia.
  simpl. rewrite lookup_drop. f_equal. lia.
Qed.

Lemma insert_emplace b mp p (x : option IntermediateInstruction)
      (y : IntermediateInstruction) :
  mp ≤ p -> p < length b ->
  <[S p := x]> (emplace b mp y) = emplace (<[p := x]> b) mp y.
Proof.
  intros Hle Hlt. unfold emplace.
  rewrite insert_app_r_alt by (rewrite length_take; lia).
  rewrite length_take. replace (S p - mp `min` length b) with (S (p - mp)) by lia.
  simpl. rewrite take_insert_ge by assumption.
  rewrite drop_insert_ge by assumption. reflexivity.
Qed.

Lemma replaceLocal_args_absent user oldLocal newLocal args registry :
  existsb (fun arg => hasLocal arg oldLocal) args = false ->
  replaceLocal_args user oldLocal newLocal args registry
  = Returns (args, registry).
Proof.
  induction args as [|arg rest IH]; simpl; [reflexivity|].
  intros H. apply orb_false_iff in H as [Harg Hrest].
  rewrite Harg, (IH Hrest). reflexivity.
Qed.

Lemma new_address_fresh m : new_address m ∉ addresses m.
Proof. unfold new_address. apply is_fresh. Qed.

Lemma walker_get_address m it instr :
  walker_get m it = Some instr -> self instr ∈ addresses m.
Proof.
  unfold walker_get, getBasicBlock, get, addresses. intros H.
  destruct (getBasicBlocks m !! basicBlock it) as [b|] eqn:Hb;
    simpl in H; [|discriminate].
  destruct (b !! pos it) as [slot|] eqn:Hslot; [|discriminate].
  simpl in H. subst slot.
  apply elem_of_list_to_set, list_elem_of_fmap.
  exists instr. split; [reflexivity|].
  apply list_elem_of_omap. exists (Some instr). split; [|reflexivity].
  apply list_elem_of_join. exists b. split.
  - eapply list_elem_of_lookup_2. eassumption.
  - eapply list_elem_of_lookup_2. eassumption.
Qed.

Lemma findWriter_le b loc k : findWriter b loc k ≤ k.
Proof.
  induction k as [|k IH]; simpl; [lia|].
  destruct (has _ b (S k)); lia.
Qed.

Lemma alter_block (blocks : list BasicBlock) bi b (f : BasicBlock -> BasicBlock) :
  blocks !! bi = Some b -> alter f bi blocks = <[bi := f b]> blocks.
Proof.
  intros Hb. rewrite list_insert_alter.
  apply list_alter_ext; [|reflexivity].
  intros x Hx. congruence.
Qed.

Lemma walker_get_Some m it instr :
  walker_get m it = Some instr ->
  exists b, getBasicBlocks m !! basicBlock it = Some b
            /\ getBasicBlock m it = b
            /\ b !! pos it = Some (Some instr)
            /\ pos it < length b.
Proof.
  unfold walker_get, getBasicBlock, get. intros H.
  destruct (getBasicBlocks m !! basicBlock it) as [b|] eqn:Hb;
    simpl in H; [|discriminate].
  exists b. split; [reflexivity|]. split; [reflexivity|].
  destruct (b !! pos it) as [slot|] eqn:Hslot; [|discriminate].
  simpl in H. subst slot. split; [reflexivity|].
  eapply lookup_lt_Some. eassumption.
Qed.



(** Without a NOP in front of the rotation the copy is put in front of the
    instruction preceding the rotation, here the writer of the source. *)
Lemma hoist_write_rotate :
  getBasicBlocks
    <$> (fst <$> match moveRotationSourcesToAccumulators
                         never_limited method_write_rotate (mkWalker 0 2) with
                 | Returns r => Some r
                 | Throws _ => None
                 end)
  = Some [[ Some (label 0);
            Some (new_MoveOperation 3 (LOCAL 2) (LOCAL 0));
            Some (alu 1 (LOCAL 0) [LITERAL 3]);
            Some (rotation 2 (LOCAL 1) [LOCAL 2; LITERAL 1]) ]].
Proof. vm_compute. reflexivity. Qed.


End HoistFacts.

Section SplitFacts.
Import Locals IR Reordering Passes Samples.
Local Open Scope nat_scope.

Variable isLocallyLimited : Method -> InstructionWalker -> LocalPtr -> bool.

Implicit Types (b : BasicBlock) (m : Method) (it : InstructionWalker)
         (s : SplitState).

Lemma walker_le_refl it : walker_le it it.
Proof. right. split; [reflexivity | lia]. Qed.

Lemma walker_lt_le a c : walker_lt a c -> walker_le a c.
Proof. unfold walker_lt, walker_le. lia. Qed.

Lemma walker_le_lt_trans a c d : walker_le a c -> walker_lt c d -> walker_lt a d.
Proof. unfold walker_lt, walker_le. lia. Qed.

Lemma walker_lt_le_trans a c d : walker_lt a c -> walker_le c d -> walker_lt a d.
Proof. unfold walker_lt, walker_le. lia. Qed.

Lemma walker_le_trans a c d : walker_le a c -> walker_le c d -> walker_le a d.
Proof. unfold walker_le. lia. Qed.

Lemma drop_next_block m bi :
  S bi < length (getBasicBlocks m) ->
  drop (S bi) (getBasicBlocks m)
  = getBasicBlock m (mkWalker (S bi) 0) :: drop (S (S bi)) (getBasicBlocks m).
Proof.
  intros Hlt. unfold getBasicBlock. simpl.
  destruct (lookup_lt_is_Some_2 (getBasicBlocks m) (S bi) Hlt) as [next Hnext].
  rewrite Hnext. simpl. apply drop_S. assumption.
Qed.

(** [nextInMethod] moves the cursor over one slot of what is ahead, or into
    the next block. *)
Lemma ahead_nextInMethod m it :
  ahead m (nextInMethod m it) = advance (ahead m it).
Proof.
  destruct it as [bi p].
  assert (Hjump : S bi < length (getBasicBlocks m) -> forall cur,
            (cur = [] \/ exists x, cur = [x]) ->
            ahead m (mkWalker (S bi) 0)
            = advance (cur, drop (S bi) (getBasicBlocks m))).
  { intros Hlt cur Hcur. unfold ahead. simpl.
    rewrite (drop_next_block m bi Hlt). unfold advance. simpl.
    destruct Hcur as [->|[x ->]]; reflexivity. }
  unfold nextInMethod, walker_isEndOfBlock, walker_nextInBlock, nextInBlock,
    ahead, getBasicBlock in *.
  cbn [basicBlock pos] in *.
  set (b := default [] (getBasicBlocks m !! bi)) in *.
  assert (Hstay : ¬ S bi < length (getBasicBlocks m) -> forall q cur,
            length b ≤ q -> (cur = [] \/ exists x, cur = [x]) ->
            (drop q b, drop (S bi) (getBasicBlocks m))
            = advance (cur, drop (S bi) (getBasicBlocks m))).
  { intros Hge q cur Hq Hcur.
    rewrite (drop_ge b q Hq).
    rewrite (drop_ge (getBasicBlocks m) (S bi)) by lia.
    destruct Hcur as [->|[x ->]]; reflexivity. }
  destruct (isEndOfBlock b p) eqn:Hend.
  - cbn [basicBlock pos]. fold b. rewrite Hend.
    apply bool_decide_eq_true in Hend.
    rewrite (drop_ge b p Hend).
    destruct (bool_decide (S bi < length (getBasicBlocks m))) eqn:Hnext.
    + apply bool_decide_eq_true in Hnext. cbn [basicBlock pos].
      apply Hjump; auto.
    + apply bool_decide_eq_false in Hnext. cbn [basicBlock pos]. fold b.
      specialize (Hstay Hnext p [] Hend (or_introl eq_refl)).
      rewrite (drop_ge b p Hend) in *. exact Hstay.
  - cbn [basicBlock pos]. fold b.
    apply isEndOfBlock_false in Hend.
    destruct (lookup_lt_is_Some_2 b p Hend) as [x Hx].
    rewrite (drop_S b x p Hx).
    destruct (isEndOfBlock b (S p)) eqn:Hend'.
    + apply bool_decide_eq_true in Hend'.
      rewrite (drop_ge b (S p) Hend').
      destruct (bool_decide (S bi < length (getBasicBlocks m))) eqn:Hnext.
      * apply bool_decide_eq_true in Hnext. cbn [basicBlock pos].
        apply Hjump; eauto.
      * apply bool_decide_eq_false in Hnext. cbn [basicBlock pos]. fold b.
        apply Hstay; eauto.
    + apply isEndOfBlock_false in Hend'.
      destruct (lookup_lt_is_Some_2 b (S p) Hend') as [y Hy].
      cbn [basicBlock pos]. fold b. rewrite (drop_S b y (S p) Hy).
      reflexivity.
Qed.

Lemma nextInMethod_ge m it : walker_le it (nextInMethod m it).
Proof.
  unfold nextInMethod, walker_nextInBlock, nextInBlock, walker_le.
  destruct (walker_isEndOfBlock m it); simpl;
    repeat (match goal with |- context [if ?c then _ else _] => destruct c end;
            simpl); lia.
Qed.

Lemma nextInMethod_gt m it instr :
  walker_get m it = Some instr -> walker_lt it (nextInMethod m it).
Proof.
  intros Hget. destruct (walker_get_Some m it instr Hget) as (b & _ & Hb & _ & Hlt).
  unfold nextInMethod, walker_nextInBlock, nextInBlock, walker_lt.
  replace (walker_isEndOfBlock m it) with false
    by (symmetry; unfold walker_isEndOfBlock; rewrite Hb;
        apply isEndOfBlock_false; assumption).
  repeat (match goal with |- context [if ?c then _ else _] => destruct c end;
          simpl); lia.
Qed.

Lemma ahead_end m it : isEndOfMethod m it = true -> ahead m it = ([], []).
Proof.
  unfold isEndOfMethod, ahead, walker_isEndOfBlock, getBasicBlock.
  destruct (bool_decide (length (getBasicBlocks m) ≤ basicBlock it)) eqn:Hout.
  - intros _. apply bool_decide_eq_true in Hout.
    rewrite (lookup_ge_None_2 _ _ Hout). simpl.
    rewrite drop_nil, drop_ge by lia. reflexivity.
  - destruct (isEndOfBlock _ (pos it)) eqn:Hend; simpl; [|discriminate].
    intros Hlast. apply bool_decide_eq_true in Hlast, Hend.
    rewrite (drop_ge _ _ Hend), drop_ge by lia. reflexivity.
Qed.

Lemma ahead_head m it instr rest bs :
  ahead m it = (Some instr :: rest, bs) -> walker_get m it = Some instr.
Proof.
  unfold ahead, walker_get, get. intros H. injection H as Hcur _.
  apply (f_equal (fun l => l !! 0)) in Hcur.
  rewrite lookup_drop, Nat.add_0_r in Hcur. rewrite Hcur. reflexivity.
Qed.

Lemma nextInMethod_inside m it x y rest bs :
  ahead m it = (x :: y :: rest, bs) ->
  nextInMethod m it = walker_nextInBlock it.
Proof.
  unfold ahead. intros H. injection H as Hcur _.
  assert (Hlen : S (pos it) < length (getBasicBlock m it)).
  { apply (f_equal length) in Hcur. rewrite length_drop in Hcur.
    simpl in Hcur. lia. }
  unfold nextInMethod, walker_isEndOfBlock.
  replace (isEndOfBlock (getBasicBlock m it) (pos it)) with false
    by (symmetry; apply isEndOfBlock_false; lia).
  replace (isEndOfBlock (getBasicBlock m (walker_nextInBlock it))
                        (pos (walker_nextInBlock it))) with false
    by (symmetry; apply isEndOfBlock_false; exact Hlen).
  reflexivity.
Qed.

Lemma drop_emplace_after b t q (x : IntermediateInstruction) :
  t ≤ q -> drop (S q) (emplace b t x) = drop q b.
Proof.
  intros Hle. unfold emplace.
  rewrite drop_app_ge by (rewrite length_take; lia).
  rewrite length_take.
  destruct (decide (t ≤ length b)) as [Hin|Hout].
  - replace (S q - t `min` length b) with (S (q - t)) by lia.
    simpl. rewrite drop_drop. f_equal. lia.
  - replace (S q - t `min` length b) with (S (q - length b)) by lia.
    simpl. rewrite !drop_ge by (rewrite ?length_drop; lia). reflexivity.
Qed.

Lemma take_emplace_before b q (x : IntermediateInstruction) :
  q < length b -> take (S q) (emplace b (S q) x) = take (S q) b.
Proof.
  intros Hlt. unfold emplace.
  rewrite take_app_le by (rewrite length_take; lia).
  apply take_idemp.
Qed.

Lemma getBasicBlock_alter m bi d (f : BasicBlock -> BasicBlock) locals' :
  getBasicBlock (mkMethod (alter f bi (getBasicBlocks m)) locals') d
  = if decide (bi = basicBlock d)
    then (if decide (basicBlock d < length (getBasicBlocks m))
          then f (getBasicBlock m d) else [])
    else getBasicBlock m d.
Proof.
  unfold getBasicBlock. simpl.
  destruct (decide (bi = basicBlock d)) as [->|Hne].
  - rewrite list_lookup_alter_eq.
    destruct (decide (basicBlock d < length (getBasicBlocks m))) as [Hin|Hout].
    + destruct (lookup_lt_is_Some_2 _ _ Hin) as [b ->]. reflexivity.
    + rewrite lookup_ge_None_2 by lia. reflexivity.
  - rewrite list_lookup_alter_ne by assumption. reflexivity.
Qed.

(** Inserting right behind [last], which is before the cursor, changes
    nothing of what is ahead of the cursor. *)
Lemma ahead_emplace m last it (x : IntermediateInstruction) :
  walker_lt last it ->
  ahead (walker_emplace m (walker_nextInBlock last) x)
        (after_emplace (walker_nextInBlock last) it)
  = ahead m it.
Proof.
  intros Hlt. unfold walker_emplace, after_emplace, walker_nextInBlock, nextInBlock.
  cbn [basicBlock pos].
  destruct Hlt as [Hblock|[Hblock Hpos]].
  - rewrite bool_decide_eq_false_2 by lia. simpl.
    unfold ahead. rewrite getBasicBlock_alter.
    cbn [basicBlock pos getBasicBlocks].
    rewrite decide_False by lia.
    rewrite drop_alter_lt by lia. reflexivity.
  - rewrite !bool_decide_eq_true_2 by lia. simpl.
    unfold ahead.
    rewrite getBasicBlock_alter.
    cbn [basicBlock pos getBasicBlocks].
    rewrite decide_True by lia.
    rewrite drop_alter_lt by lia.
    replace (getBasicBlock m (mkWalker (basicBlock it) (S (pos it))))
      with (getBasicBlock m it) by reflexivity.
    destruct (decide (basicBlock it < length (getBasicBlocks m))) as [Hin|Hout].
    + rewrite drop_emplace_after by lia. reflexivity.
    + unfold getBasicBlock. rewrite lookup_ge_None_2 by lia. simpl.
      rewrite !drop_nil. reflexivity.
Qed.

(** ... and nothing up to and including [last]. *)
Lemma behind_emplace m last (x : IntermediateInstruction) :
  pos last < length (getBasicBlock m last) ->
  behind (walker_emplace m (walker_nextInBlock last) x) last = behind m last.
Proof.
  intros Hvalid. unfold behind, walker_emplace, walker_nextInBlock, nextInBlock.
  rewrite getBasicBlock_alter.
  cbn [basicBlock pos getBasicBlocks].
  rewrite decide_True by reflexivity.
  rewrite take_alter_ge by lia.
  destruct (decide (basicBlock last < length (getBasicBlocks m))) as [Hin|Hout].
  - rewrite take_emplace_before by assumption. reflexivity.
  - unfold getBasicBlock in Hvalid. rewrite lookup_ge_None_2 in Hvalid by lia.
    simpl in Hvalid. lia.
Qed.

Lemma behind_walker_get m m' c :
  behind m' c = behind m c -> walker_get m' c = walker_get m c.
Proof.
  unfold behind, walker_get, get. intros H. injection H as _ Htake.
  apply (f_equal (fun l => l !! pos c)) in Htake.
  rewrite !lookup_take_lt in Htake by lia. rewrite Htake. reflexivity.
Qed.

Lemma behind_length m m' c :
  behind m' c = behind m c ->
  pos c < length (getBasicBlock m c) -> pos c < length (getBasicBlock m' c).
Proof.
  unfold behind. intros H Hlt. injection H as _ Htake.
  apply (f_equal length) in Htake. rewrite !length_take in Htake. lia.
Qed.

(** What is frozen for a cursor is frozen for every cursor before it. *)
Lemma behind_mono m m' c d :
  walker_le c d -> behind m' d = behind m d -> behind m' c = behind m c.
Proof.
  unfold behind, getBasicBlock. intros Hle H. injection H as Hblocks Hblock.
  destruct Hle as [Hlt|[Heq Hpos]].
  - assert (Htake : take (basicBlock c) (getBasicBlocks m')
                    = take (basicBlock c) (getBasicBlocks m)).
    { apply (f_equal (take (basicBlock c))) in Hblocks.
      rewrite !take_take in Hblocks.
      replace (basicBlock c `min` basicBlock d) with (basicBlock c) in Hblocks
        by lia.
      assumption. }
    assert (Hlookup : getBasicBlocks m' !! basicBlock c
                      = getBasicBlocks m !! basicBlock c).
    { apply (f_equal (fun l => l !! basicBlock c)) in Hblocks.
      rewrite !lookup_take_lt in Hblocks by assumption. assumption. }
    rewrite Htake, Hlookup. reflexivity.
  - rewrite Heq, Hblocks. f_equal.
    apply (f_equal (take (S (pos c)))) in Hblock.
    rewrite !take_take in Hblock.
    replace (S (pos c) `min` S (pos d)) with (S (pos c)) in Hblock by lia.
    assumption.
Qed.

Lemma walker_get_ahead m it instr :
  walker_get m it = Some instr ->
  exists rest bs, ahead m it = (Some instr :: rest, bs).
Proof.
  intros Hget.
  destruct (walker_get_Some m it instr Hget) as (b & _ & Hb & Hslot & _).
  unfold ahead. rewrite Hb, (drop_S b _ _ Hslot). eauto.
Qed.

Lemma after_emplace_ge inserted it : walker_le it (after_emplace inserted it).
Proof.
  unfold after_emplace, walker_le.
  destruct (_ && _); simpl; lia.
Qed.

Lemma body_None s :
  walker_get (method s) (it s) = None ->
  splitReadAfterWrites_body isLocallyLimited s
  = mkSplit (method s) (nextInMethod (method s) (it s))
            (lastInstruction s) (lastWrittenTo s).
Proof. intros Hget. unfold splitReadAfterWrites_body. rewrite Hget. reflexivity. Qed.

(** One iteration at an instruction: a NOP may have been inserted right
    behind the last instruction; the cursor still designates the
    instruction, and nothing at or before the last instruction changed. *)
Lemma body_Some s instr :
  walker_get (method s) (it s) = Some instr -> split_invariant s ->
  exists m1 it1,
    splitReadAfterWrites_body isLocallyLimited s
    = mkSplit m1 (nextInMethod m1 it1)
              (if mapsToASMInstruction instr then it1 else lastInstruction s)
              (if mapsToASMInstruction instr
               then match getOutput instr with
                    | Some (LOCAL l) => Some l
                    | _ => None
                    end
               else lastWrittenTo s)
    /\ ahead m1 it1 = ahead (method s) (it s)
    /\ behind m1 (lastInstruction s) = behind (method s) (lastInstruction s)
    /\ walker_le (it s) it1.
Proof.
  intros Hget [Hle Hlast]. unfold splitReadAfterWrites_body. rewrite Hget.
  destruct (lastWrittenTo s) as [x|] eqn:Hx.
  - destruct (Hlast (ex_intro _ x eq_refl)) as [Hlt Hvalid].
    destruct (readsLocal instr x
              && mustSplit isLocallyLimited (method s) (lastInstruction s) x instr).
    + eexists. eexists. split.
      * destruct (mapsToASMInstruction instr); reflexivity.
      * split; [apply ahead_emplace; assumption|].
        split; [apply behind_emplace; assumption|].
        apply after_emplace_ge.
    + exists (method s), (it s). split.
      * destruct (mapsToASMInstruction instr); reflexivity.
      * split; [reflexivity|]. split; [reflexivity|]. apply walker_le_refl.
  - exists (method s), (it s). split.
    + destruct (mapsToASMInstruction instr); reflexivity.
    + split; [reflexivity|]. split; [reflexivity|]. apply walker_le_refl.
Qed.

Lemma body_invariant s :
  split_invariant s ->
  split_invariant (splitReadAfterWrites_body isLocallyLimited s).
Proof.
  intros Hinv. pose proof Hinv as [Hle Hlast].
  destruct (walker_get (method s) (it s)) as [instr|] eqn:Hget.
  - destruct (body_Some s instr Hget Hinv)
      as (m1 & it1 & -> & Hahead & Hbehind & Hit1).
    destruct (walker_get_ahead _ _ _ Hget) as (rest & bs & Hshape).
    rewrite Hshape in Hahead. apply ahead_head in Hahead.
    pose proof (nextInMethod_gt m1 it1 instr Hahead) as Hnext.
    unfold split_invariant. cbn [method it lastInstruction lastWrittenTo].
    destruct (mapsToASMInstruction instr).
    + split; [apply walker_lt_le; assumption|].
      intros _. split; [assumption|].
      destruct (walker_get_Some m1 it1 instr Hahead) as (b & _ & -> & _ & Hlt).
      assumption.
    + assert (Hle1 : walker_le (lastInstruction s) it1)
        by (eapply walker_le_trans; eassumption).
      split; [apply walker_lt_le; eapply walker_le_lt_trans; eassumption|].
      intros Hsome. destruct (Hlast Hsome) as [Hlt Hvalid].
      split; [eapply walker_le_lt_trans; eassumption|].
      eapply behind_length; eassumption.
  - rewrite (body_None s Hget).
    unfold split_invariant. cbn [method it lastInstruction lastWrittenTo].
    pose proof (nextInMethod_ge (method s) (it s)) as Hnext.
    split; [eapply walker_le_trans; eassumption|].
    intros Hsome. destruct (Hlast Hsome) as [Hlt Hvalid].
    split; [eapply walker_lt_le_trans; eassumption | assumption].
Qed.

Lemma body_frozen s :
  split_invariant s ->
  behind (method (splitReadAfterWrites_body isLocallyLimited s))
         (lastInstruction s)
  = behind (method s) (lastInstruction s)
  /\ walker_le (lastInstruction s)
               (lastInstruction (splitReadAfterWrites_body isLocallyLimited s)).
Proof.
  intros Hinv. pose proof Hinv as [Hle Hlast].
  destruct (walker_get (method s) (it s)) as [instr|] eqn:Hget.
  - destruct (body_Some s instr Hget Hinv)
      as (m1 & it1 & -> & _ & Hbehind & Hit1).
    cbn [method lastInstruction]. split; [assumption|].
    destruct (mapsToASMInstruction instr).
    + eapply walker_le_trans; eassumption.
    + apply walker_le_refl.
  - rewrite (body_None s Hget). cbn [method lastInstruction].
    split; [reflexivity | apply walker_le_refl].
Qed.

(** Once an instruction is the last one recorded, the rest of the loop
    changes nothing at or before it. *)
Lemma loop_frozen fuel : forall s,
  split_invariant s ->
  behind (method (splitReadAfterWrites_loop isLocallyLimited fuel s))
         (lastInstruction s)
  = behind (method s) (lastInstruction s).
Proof.
  induction fuel as [|fuel IH]; intros s Hinv; simpl; [reflexivity|].
  destruct (isEndOfMethod (method s) (it s)); [reflexivity|].
  destruct (body_frozen s Hinv) as [Hbody Hle].
  rewrite <- Hbody.
  eapply behind_mono; [exact Hle|].
  apply IH. apply body_invariant. assumption.
Qed.

Lemma body_ahead s :
  split_invariant s ->
  ahead (method (splitReadAfterWrites_body isLocallyLimited s))
        (it (splitReadAfterWrites_body isLocallyLimited s))
  = advance (ahead (method s) (it s)).
Proof.
  intros Hinv.
  destruct (walker_get (method s) (it s)) as [instr|] eqn:Hget.
  - destruct (body_Some s instr Hget Hinv) as (m1 & it1 & -> & Hahead & _).
    cbn [method it]. rewrite ahead_nextInMethod, Hahead. reflexivity.
  - rewrite (body_None s Hget). cbn [method it]. apply ahead_nextInMethod.
Qed.

Lemma advance_size a : a ≠ ([], []) -> ahead_size (advance a) < ahead_size a.
Proof.
  destruct a as [cur bs]. unfold advance, ahead_size. simpl. intros Hne.
  destruct cur as [|x [|y rest]], bs as [|next blocks]; simpl;
    rewrite ?length_app; try lia.
  contradiction.
Qed.

Lemma ahead_not_end m it :
  isEndOfMethod m it = false -> ahead m it ≠ ([], []).
Proof.
  unfold isEndOfMethod, ahead, walker_isEndOfBlock.
  destruct (bool_decide (length (getBasicBlocks m) ≤ basicBlock it)) eqn:Hout;
    [discriminate|].
  apply bool_decide_eq_false in Hout.
  destruct (isEndOfBlock (getBasicBlock m it) (pos it)) eqn:Hend; simpl.
  - intros Hlast H. apply bool_decide_eq_false in Hlast.
    injection H as _ Hblocks. apply drop_nil_inv in Hblocks. lia.
  - intros _ H. apply isEndOfBlock_false in Hend.
    injection H as Hcur _. apply drop_nil_inv in Hcur. lia.
Qed.

(** [split_fuel] iterations are enough for the loop of
    [splitReadAfterWrites] to reach the end of the method: more iterations
    change nothing. *)
Lemma splitReadAfterWrites_loop_enough fuel : forall s extra,
  split_invariant s ->
  ahead_size (ahead (method s) (it s)) ≤ fuel ->
  splitReadAfterWrites_loop isLocallyLimited (fuel + extra) s
  = splitReadAfterWrites_loop isLocallyLimited fuel s.
Proof.
  induction fuel as [|fuel IH]; intros s extra Hinv Hsize.
  - simpl. destruct extra as [|extra]; [reflexivity|]. simpl.
    destruct (isEndOfMethod (method s) (it s)) eqn:Hend; [reflexivity|].
    exfalso. apply (ahead_not_end _ _ Hend).
    destruct (ahead (method s) (it s)) as [cur bs].
    unfold ahead_size in Hsize. simpl in Hsize.
    destruct cur, bs; simpl in Hsize; try lia. reflexivity.
  - simpl. destruct (isEndOfMethod (method s) (it s)) eqn:Hend; [reflexivity|].
    apply IH; [apply body_invariant; assumption|].
    rewrite body_ahead by assumption.
    pose proof (advance_size _ (ahead_not_end _ _ Hend)). lia.
Qed.

Lemma not_end_of_method m it :
  ahead m it ≠ ([], []) -> isEndOfMethod m it = false.
Proof.
  intros Hne. destruct (isEndOfMethod m it) eqn:Hend; [|reflexivity].
  apply ahead_end in Hend. contradiction.
Qed.

Lemma walker_get_not_end m it instr :
  walker_get m it = Some instr -> isEndOfMethod m it = false.
Proof.
  intros Hget. apply not_end_of_method.
  destruct (walker_get_ahead m it instr Hget) as (rest & bs & ->). discriminate.
Qed.

Lemma walker_le_next c : walker_le c (walker_nextInBlock c).
Proof. right. simpl. unfold nextInBlock. lia. Qed.

Lemma initial_size m :
  ahead_size (ahead m (nextInMethod m (walkAllInstructions m))) ≤ split_fuel m.
Proof.
  rewrite ahead_nextInMethod.
  assert (Hstart : ahead_size (ahead m (walkAllInstructions m)) ≤ split_fuel m).
  { unfold ahead, ahead_size, split_fuel, walkAllInstructions, getBasicBlock.
    simpl. destruct (getBasicBlocks m) as [|b0 rest]; simpl; [lia|].
    rewrite !drop_0, length_app. lia. }
  destruct (decide (ahead m (walkAllInstructions m) = ([], []))) as [->|Hne].
  - unfold advance, ahead_size. simpl. lia.
  - pose proof (advance_size _ Hne). lia.
Qed.

Lemma splitReadAfterWrites_fuel_enough m extra :
  method (splitReadAfterWrites_loop isLocallyLimited (split_fuel m + extra)
            (mkSplit m (nextInMethod m (walkAllInstructions m))
                     (walkAllInstructions m) None))
  = splitReadAfterWrites isLocallyLimited m.
Proof.
  unfold splitReadAfterWrites. cbv zeta.
  rewrite splitReadAfterWrites_loop_enough; [reflexivity| |].
  - split; simpl; [apply nextInMethod_ge|]. intros [? Hsome]. discriminate.
  - simpl. apply initial_size.
Qed.

Lemma walker_get_pair_ahead m c w r :
  walker_get m c = Some w ->
  walker_get m (walker_nextInBlock c) = Some r ->
  exists post bs, ahead m c = (Some w :: Some r :: post, bs).
Proof.
  intros Hw Hr.
  destruct (walker_get_Some m c w Hw) as (b & Hblock & Hb & Hslot & _).
  destruct (walker_get_Some m _ r Hr) as (b' & Hblock' & _ & Hslot' & _).
  simpl in Hblock', Hslot'. unfold nextInBlock in Hslot'.
  assert (b' = b) by congruence. subst b'.
  unfold ahead. rewrite Hb, (drop_S b _ _ Hslot), (drop_S b _ _ Hslot').
  eauto.
Qed.

Lemma placeholders_added_refl b : placeholders_added b b.
Proof. induction b; constructor; assumption. Qed.

Lemma placeholders_added_trans b1 b2 b3 :
  placeholders_added b1 b2 -> placeholders_added b2 b3 ->
  placeholders_added b1 b3.
Proof.
  intros H12 H23. revert b1 H12.
  induction H23 as [|slot b2 b3 H23 IH|addr b2 b3 H23 IH]; intros b1 H12.
  - assumption.
  - inversion H12; subst.
    + apply added_keep. apply IH. assumption.
    + apply added_placeholder. apply IH. assumption.
  - apply added_placeholder. apply IH. assumption.
Qed.

Lemma placeholders_added_emplace b : forall p addr,
  placeholders_added b (emplace b p (new_Nop addr WAIT_REGISTER)).
Proof.
  unfold emplace. induction b as [|slot b IH]; intros p addr.
  - rewrite take_nil, drop_nil. simpl. apply added_placeholder, added_none.
  - destruct p as [|p]; simpl.
    + apply added_placeholder, placeholders_added_refl.
    + apply added_keep, IH.
Qed.

(** The blocks of [m'] are those of [m] with WAIT_REGISTER NOPs put in. *)
Lemma blocks_added_refl (blocks : list BasicBlock) :
  Forall2 placeholders_added blocks blocks.
Proof. apply Forall_Forall2_diag, Forall_forall. intros; apply placeholders_added_refl. Qed.

Lemma blocks_added_trans (l1 l2 l3 : list BasicBlock) :
  Forall2 placeholders_added l1 l2 -> Forall2 placeholders_added l2 l3 ->
  Forall2 placeholders_added l1 l3.
Proof.
  intros H12. revert l3. induction H12; intros l3 H23; inversion H23; subst;
    constructor; eauto using placeholders_added_trans.
Qed.

Lemma blocks_added_emplace m c addr :
  Forall2 placeholders_added (getBasicBlocks m)
    (getBasicBlocks (walker_emplace m c (new_Nop addr WAIT_REGISTER))).
Proof.
  unfold walker_emplace. simpl.
  apply Forall2_alter_r; [apply blocks_added_refl|].
  intros x y Hx Hy Hxy.
  eapply placeholders_added_trans; [exact Hxy|].
  apply placeholders_added_emplace.
Qed.

Lemma splitReadAfterWrites_body_added s :
  Forall2 placeholders_added (getBasicBlocks (method s))
    (getBasicBlocks (method (splitReadAfterWrites_body isLocallyLimited s)))
  /\ locals (method (splitReadAfterWrites_body isLocallyLimited s))
     = locals (method s).
Proof.
  unfold splitReadAfterWrites_body.
  destruct (walker_get (method s) (it s)) as [instr|];
    [|split; [apply blocks_added_refl | reflexivity]].
  destruct (lastWrittenTo s) as [x|].
  - destruct (readsLocal instr x && mustSplit _ _ _ _ _);
      destruct (mapsToASMInstruction instr); cbn [method];
      (split; [apply blocks_added_emplace || apply blocks_added_refl
              | reflexivity]).
  - destruct (mapsToASMInstruction instr); cbn [method];
      (split; [apply blocks_added_refl | reflexivity]).
Qed.

Lemma splitReadAfterWrites_loop_added fuel : forall s,
  Forall2 placeholders_added (getBasicBlocks (method s))
    (getBasicBlocks (method (splitReadAfterWrites_loop isLocallyLimited fuel s)))
  /\ locals (method (splitReadAfterWrites_loop isLocallyLimited fuel s))
     = locals (method s).
Proof.
  induction fuel as [|fuel IH]; intros s; simpl.
  - split; [apply blocks_added_refl | reflexivity].
  - destruct (isEndOfMethod (method s) (it s)).
    + split; [apply blocks_added_refl | reflexivity].
    + destruct (splitReadAfterWrites_body_added s) as [Hb Hl].
      destruct (IH (splitReadAfterWrites_body isLocallyLimited s)) as [Hb' Hl'].
      split; [eapply blocks_added_trans; eassumption | congruence].
Qed.

(** The iteration at the write [w]: it becomes the last instruction, and
    what is ahead is as before. *)
Lemma step_at_write s w y x rest bs :
  split_invariant s ->
  ahead (method s) (it s) = (Some w :: Some y :: rest, bs) ->
  mapsToASMInstruction w = true -> getOutput w = Some (LOCAL x) ->
  exists m1 c,
    splitReadAfterWrites_body isLocallyLimited s
    = mkSplit m1 (walker_nextInBlock c) c (Some x)
    /\ ahead m1 c = (Some w :: Some y :: rest, bs)
    /\ ahead m1 (walker_nextInBlock c) = (Some y :: rest, bs).
Proof.
  intros Hinv Hahead Hasm Hout.
  pose proof (ahead_head _ _ _ _ _ Hahead) as Hget.
  destruct (body_Some s w Hget Hinv)
    as (m1 & it1 & Hbody & Hahead1 & _).
  rewrite Hahead in Hahead1. rewrite Hasm, Hout in Hbody.
  pose proof (nextInMethod_inside _ _ _ _ _ _ Hahead1) as Hnext.
  rewrite Hnext in Hbody.
  exists m1, it1. split; [assumption|]. split; [assumption|].
  rewrite <- Hnext, ahead_nextInMethod, Hahead1. reflexivity.
Qed.

(** The iterations at instructions that are not encoded and do not read the
    local written last: nothing changes but the cursor. *)
Lemma loop_passes_unencoded x r labels : forall fuel s rest bs,
  split_invariant s ->
  lastWrittenTo s = Some x ->
  ahead (method s) (it s) = ((Some <$> labels) ++ Some r :: rest, bs) ->
  Forall (fun l => mapsToASMInstruction l = false /\ readsLocal l x = false)
         labels ->
  exists s',
    splitReadAfterWrites_loop isLocallyLimited (length labels + fuel) s
    = splitReadAfterWrites_loop isLocallyLimited fuel s'
    /\ method s' = method s
    /\ lastInstruction s' = lastInstruction s
    /\ lastWrittenTo s' = Some x
    /\ it s' = walker_plus (it s) (length labels)
    /\ ahead (method s') (it s') = (Some r :: rest, bs)
    /\ split_invariant s'.
Proof.
  induction labels as [|l labels IH];
    intros fuel s rest bs Hinv Hlw Hahead Hlabels.
  - exists s. simpl in *.
    split; [reflexivity|]. split; [reflexivity|]. split; [reflexivity|].
    split; [assumption|]. split; [|split; assumption].
    unfold walker_plus. rewrite Nat.add_0_r. destruct (it s); reflexivity.
  - inversion Hlabels as [|? ? [Hasm Hreads] Hrest]; subst.
    simpl in Hahead.
    pose proof (ahead_head _ _ _ _ _ Hahead) as Hget.
    assert (Hnext : nextInMethod (method s) (it s) = walker_nextInBlock (it s)).
    { destruct labels; simpl in Hahead;
        eapply nextInMethod_inside; eassumption. }
    assert (Hbody : splitReadAfterWrites_body isLocallyLimited s
                    = mkSplit (method s) (walker_nextInBlock (it s))
                              (lastInstruction s) (Some x)).
    { unfold splitReadAfterWrites_body. rewrite Hget, Hlw, Hreads, Hasm.
      simpl. rewrite Hnext. reflexivity. }
    destruct (IH fuel (mkSplit (method s) (walker_nextInBlock (it s))
                               (lastInstruction s) (Some x)) rest bs)
      as (s' & Hloop & Hm & Hlast & Hlw' & Hit & Hahead' & Hinv');
      try assumption; try reflexivity.
    { rewrite <- Hbody. apply body_invariant. assumption. }
    { cbn [method it]. rewrite <- Hnext, ahead_nextInMethod, Hahead.
      destruct labels; reflexivity. }
    exists s'. cbn [method it lastInstruction] in *.
    split; [|split; [assumption|split; [assumption|split; [assumption|split;
                                           [|split; assumption]]]]].
    + simpl. rewrite (walker_get_not_end _ _ _ Hget). rewrite Hbody. exact Hloop.
    + rewrite Hit. unfold walker_plus, walker_nextInBlock, nextInBlock. simpl.
      f_equal. lia.
Qed.

(** [nextInMethod] does not step over an instruction. *)
Lemma nextInMethod_le m it c instr :
  walker_lt it c -> walker_get m c = Some instr ->
  walker_le (nextInMethod m it) c.
Proof.
  intros Hlt Hget.
  destruct (walker_get_Some m c instr Hget) as (b & Hblock & Hb & _ & Hpos).
  assert (Hin : basicBlock c < length (getBasicBlocks m))
    by (eapply lookup_lt_Some; eassumption).
  destruct it as [bi p], c as [bc pc].
  unfold nextInMethod, walker_isEndOfBlock, walker_nextInBlock, nextInBlock,
    isEndOfBlock, walker_lt, walker_le in *.
  cbn [basicBlock pos] in *.
  destruct Hlt as [Hlt|[-> Hlt]].
  - repeat (match goal with
            | |- context [bool_decide ?P] => destruct (bool_decide_reflect P)
            end; cbn [basicBlock pos]); lia.
  - replace (getBasicBlock m {| basicBlock := bc; pos := p |}) with b
      by (rewrite <- Hb; reflexivity).
    rewrite (bool_decide_eq_false_2 (length b ≤ p)) by lia.
    cbn [basicBlock pos].
    replace (getBasicBlock m {| basicBlock := bc; pos := S p |}) with b
      by (rewrite <- Hb; reflexivity).
    rewrite (bool_decide_eq_false_2 (length b ≤ S p)) by lia.
    cbn [basicBlock pos]. lia.
Qed.

Lemma ahead_before m it c instr :
  walker_le it c -> walker_get m c = Some instr -> ahead m it ≠ ([], []).
Proof.
  intros Hle Hget H.
  destruct (walker_get_Some m c instr Hget) as (b & Hblock & Hb & _ & Hpos).
  assert (Hin : basicBlock c < length (getBasicBlocks m))
    by (eapply lookup_lt_Some; eassumption).
  unfold ahead in H. injection H as Hcur Hblocks.
  apply drop_nil_inv in Hcur, Hblocks.
  destruct Hle as [Hlt|[Heq Hle]]; [lia|].
  replace (getBasicBlock m it) with b in Hcur
    by (rewrite <- Hb; unfold getBasicBlock; rewrite Heq; reflexivity).
  lia.
Qed.

(** The cursor comes to every instruction of the method. *)
Lemma ahead_reachable m c instr :
  walker_get m c = Some instr ->
  forall n it, ahead_size (ahead m it) ≤ n -> walker_le it c ->
  exists j, Nat.iter j advance (ahead m it) = ahead m c.
Proof.
  intros Hget. induction n as [|n IH]; intros it Hsize Hle.
  - exfalso. apply (ahead_before m it c instr Hle Hget).
    destruct (ahead m it) as [cur bs].
    unfold ahead_size in Hsize. simpl in Hsize.
    destruct cur, bs; simpl in Hsize; try lia. reflexivity.
  - destruct (decide (it = c)) as [->|Hne]; [exists 0; reflexivity|].
    assert (Hlt : walker_lt it c).
    { destruct it as [bi p], c as [bc pc]. unfold walker_le, walker_lt in *.
      simpl in *. destruct Hle as [?|[-> Hle]]; [lia|].
      right. split; [reflexivity|].
      destruct (decide (p = pc)) as [->|?]; [contradiction | lia]. }
    destruct (IH (nextInMethod m it)) as [j Hj].
    + rewrite ahead_nextInMethod.
      pose proof (advance_size _ (ahead_before m it c instr Hle Hget)). lia.
    + eapply nextInMethod_le; eassumption.
    + exists (S j). rewrite Nat.iter_succ_r, <- ahead_nextInMethod. exact Hj.
Qed.

(** The loop comes to stand where [j] more steps of the cursor lead, and so
    far has only put placeholders in. *)
Lemma loop_reaches_ahead target : forall j fuel s,
  target ≠ ([], []) ->
  split_invariant s ->
  ahead_size (ahead (method s) (it s)) ≤ fuel ->
  Nat.iter j advance (ahead (method s) (it s)) = target ->
  exists fuel' s',
    splitReadAfterWrites_loop isLocallyLimited fuel s
    = splitReadAfterWrites_loop isLocallyLimited fuel' s'
    /\ split_invariant s'
    /\ ahead (method s') (it s') = target
    /\ ahead_size target ≤ fuel'
    /\ Forall2 placeholders_added (getBasicBlocks (method s))
                                  (getBasicBlocks (method s'))
    /\ locals (method s') = locals (method s).
Proof.
  induction j as [|j IH]; intros fuel s Htarget Hinv Hfuel Hj.
  - simpl in Hj. exists fuel, s. rewrite <- Hj.
    split; [reflexivity|]. split; [assumption|]. split; [reflexivity|].
    split; [assumption|]. split; [apply blocks_added_refl | reflexivity].
  - rewrite Nat.iter_succ_r in Hj.
    assert (Hne : ahead (method s) (it s) ≠ ([], [])).
    { intros Hnil. rewrite Hnil in Hj. apply Htarget. rewrite <- Hj.
      clear. induction j as [|j IHj]; [reflexivity|].
      rewrite Nat.iter_succ_r. exact IHj. }
    pose proof (advance_size _ Hne) as Hsize.
    destruct fuel as [|fuel]; [lia|].
    destruct (IH fuel (splitReadAfterWrites_body isLocallyLimited s))
      as (fuel' & s' & Hloop & Hinv' & Hahead' & Hfuel' & Hadded & Hlocals);
      try assumption.
    + apply body_invariant. assumption.
    + rewrite body_ahead by assumption. lia.
    + rewrite body_ahead by assumption. assumption.
    + exists fuel', s'. simpl.
      rewrite (not_end_of_method _ _ Hne).
      destruct (splitReadAfterWrites_body_added s) as [Hb Hl].
      split; [assumption|]. split; [assumption|]. split; [assumption|].
      split; [assumption|].
      split; [eapply blocks_added_trans; eassumption | congruence].
Qed.

Lemma take_segment {A} (x y : A) (l rest : list A) n :
  n = length l + 2 -> take n (x :: l ++ y :: rest) = x :: l ++ [y].
Proof.
  intros ->. change (x :: l ++ y :: rest) with ((x :: l) ++ [y] ++ rest).
  rewrite app_assoc. apply take_app_length'.
  simpl. rewrite length_app. simpl. lia.
Qed.

(** The block of a cursor, cut at the cursor. *)
Lemma ahead_block m it cur bs :
  ahead m it = (cur, bs) -> cur <> [] ->
  getBasicBlocks m !! basicBlock it = Some (getBasicBlock m it)
  /\ getBasicBlock m it = take (pos it) (getBasicBlock m it) ++ cur
  /\ pos it < length (getBasicBlock m it).
Proof.
  unfold ahead. intros H Hcur. injection H as Hdrop _.
  assert (Hlt : pos it < length (getBasicBlock m it)).
  { destruct (decide (pos it < length (getBasicBlock m it))) as [?|Hge];
      [assumption|].
    rewrite drop_ge in Hdrop by lia. congruence. }
  split; [|split; [|assumption]].
  - unfold getBasicBlock in *.
    destruct (getBasicBlocks m !! basicBlock it) as [b|]; [reflexivity|].
    simpl in Hlt. lia.
  - rewrite <- Hdrop. symmetry. apply take_drop.
Qed.

(** The loop of [splitReadAfterWrites] at a write [w] of [x] that is
    followed, behind instructions that are not encoded and do not read [x],
    by a read [r] of [x]. [m1] is the method and [c1] the cursor of the write
    when the loop stands at the read: the question of line 271 is asked of
    them. *)
Lemma split_at_write m c w labels r x rest bs :
  ahead m c = (Some w :: (Some <$> labels) ++ Some r :: rest, bs) ->
  c ≠ walkAllInstructions m ->
  mapsToASMInstruction w = true -> getOutput w = Some (LOCAL x) ->
  Forall (fun l => mapsToASMInstruction l = false /\ readsLocal l x = false)
         labels ->
  readsLocal r x = true -> mapsToASMInstruction r = true ->
  exists m1 c1,
    ahead m1 c1 = ahead m c
    /\ basicBlock c1 = basicBlock c
    /\ Forall2 placeholders_added (getBasicBlocks m) (getBasicBlocks m1)
    /\ locals m1 = locals m
    /\ (hasPackMode w = false -> isVectorRotation r = false ->
        isLocallyLimited m1 c1 x = true ->
        take (pos c1 + length labels + 2)
             (getBasicBlock (splitReadAfterWrites isLocallyLimited m) c1)
        = take (pos c1) (getBasicBlock m1 c1)
          ++ Some w :: (Some <$> labels) ++ [Some r])
    /\ (hasPackMode w = true \/ isVectorRotation r = true
        \/ isLocallyLimited m1 c1 x = false ->
        take (pos c1 + length labels + 3)
             (getBasicBlock (splitReadAfterWrites isLocallyLimited m) c1)
        = take (pos c1) (getBasicBlock m1 c1)
          ++ Some w :: Some (new_Nop (new_address m1) WAIT_REGISTER)
             :: (Some <$> labels) ++ [Some r]).
Proof.
  intros Hahead Hfirst Hasm_w Hout Hlabels Hreads Hasm_r.
  set (k := length labels).
  pose proof (ahead_head _ _ _ _ _ Hahead) as Hw.
  set (start := walkAllInstructions m).
  assert (Hle0 : walker_le (nextInMethod m start) c).
  { apply (nextInMethod_le m start c w); [|assumption].
    destruct c as [bc pc]. unfold walker_lt, start, walkAllInstructions in *.
    simpl. destruct bc as [|bc]; [|left; lia]. right. split; [reflexivity|].
    destruct pc as [|pc]; [contradiction | lia]. }
  destruct (ahead_reachable m c w Hw (split_fuel m) (nextInMethod m start)
              (initial_size m) Hle0) as [j Hj].
  unfold splitReadAfterWrites. cbv zeta. fold start.
  set (s0 := mkSplit m (nextInMethod m start) start None).
  assert (Hinv0 : split_invariant s0).
  { split; simpl; [apply nextInMethod_ge|].
    intros [? Hsome]. discriminate. }
  destruct (loop_reaches_ahead (ahead m c) j (split_fuel m) s0)
    as (fuel' & s' & -> & Hinv' & Hahead' & Hfuel' & Hadded' & Hlocals');
    [rewrite Hahead; discriminate | assumption | apply initial_size
     | exact Hj |].
  cbn [method s0] in Hadded', Hlocals'.
  rewrite Hahead in Hahead', Hfuel'.
  (* the fuel left covers the write, the unencoded instructions, the read *)
  assert (Hfuel : exists f, fuel' = S (k + S f)).
  { unfold ahead_size in Hfuel'. simpl in Hfuel'.
    rewrite length_app, length_fmap in Hfuel'. simpl in Hfuel'.
    exists (fuel' - k - 2). unfold k. lia. }
  destruct Hfuel as [f ->].
  (* the iteration at the write *)
  assert (Htl : exists y tl,
            (Some <$> labels) ++ Some r :: rest = Some y :: tl).
  { destruct labels as [|l labels']; simpl; eauto. }
  destruct Htl as (y & tl & Htl).
  rewrite Htl in Hahead'.
  destruct (step_at_write s' w y x tl bs Hinv' Hahead'
              Hasm_w Hout)
    as (m1 & c1 & Hbody1 & Hahead1 & Hnext1).
  rewrite <- Htl in Hahead1, Hnext1.
  pose proof (body_invariant s' Hinv') as Hinv1.
  destruct (splitReadAfterWrites_body_added s')
    as [Hadded1 Hlocals1].
  rewrite Hbody1 in Hinv1, Hadded1, Hlocals1.
  cbn [method] in Hadded1, Hlocals1.
  set (s1 := mkSplit m1 (walker_nextInBlock c1) c1 (Some x)) in *.
  assert (Hloop1 :
    splitReadAfterWrites_loop isLocallyLimited (S (k + S f)) s'
    = splitReadAfterWrites_loop isLocallyLimited (k + S f) s1).
  { simpl. rewrite not_end_of_method by (rewrite Hahead'; discriminate).
    rewrite Hbody1. reflexivity. }
  rewrite Hloop1. clear Hloop1.
  (* the iterations at the unencoded instructions *)
  destruct (loop_passes_unencoded x r labels (S f) s1 rest bs
              Hinv1 eq_refl Hnext1 Hlabels)
    as (s2 & Hloop2 & Hm2 & Hlast2 & Hlw2 & Hit2 & Hahead2 & Hinv2).
  fold k in Hloop2, Hit2. rewrite Hloop2. clear Hloop2.
  unfold s1 in Hm2, Hlast2, Hit2.
  cbn [method it lastInstruction] in Hm2, Hlast2, Hit2.
  (* the iteration at the read *)
  pose proof (ahead_head _ _ _ _ _ Hahead1) as Hw1.
  pose proof (ahead_head _ _ _ _ _ Hahead2) as Hr2.
  destruct (ahead_block m1 c1 _ _ Hahead1) as (Hblock1 & Hcut1 & Hlt1);
    [discriminate|].
  set (b1 := getBasicBlock m1 c1) in *.
  assert (Hloop3 :
    splitReadAfterWrites_loop isLocallyLimited (S f) s2
    = splitReadAfterWrites_loop isLocallyLimited f
        (splitReadAfterWrites_body isLocallyLimited s2)).
  { simpl. rewrite (walker_get_not_end _ _ _ Hr2). reflexivity. }
  rewrite Hloop3. clear Hloop3.
  pose proof (body_invariant s2 Hinv2) as Hinv3.
  pose proof (loop_frozen f _ Hinv3) as Hfrozen.
  set (final := method (splitReadAfterWrites_loop isLocallyLimited f
                          (splitReadAfterWrites_body isLocallyLimited s2))) in *.
  assert (Hsplit : mustSplit isLocallyLimited m1 c1 x r
                   = hasPackMode w || isVectorRotation r
                     || negb (isLocallyLimited m1 c1 x)).
  { unfold mustSplit. rewrite Hw1. reflexivity. }
  exists m1, c1.
  split; [rewrite Hahead; assumption|].
  assert (Hblocks : Forall2 placeholders_added (getBasicBlocks m)
                                               (getBasicBlocks m1))
    by (eapply blocks_added_trans; eassumption).
  split.
  { destruct (ahead_block m c _ _ Hahead) as (Hblock & _ & _); [discriminate|].
    apply lookup_lt_Some in Hblock, Hblock1.
    pose proof (Forall2_length _ _ _ Hblocks) as Hlen.
    unfold ahead in Hahead, Hahead1.
    injection Hahead as _ Hbs. injection Hahead1 as _ Hbs1.
    rewrite <- Hbs1 in Hbs. apply (f_equal length) in Hbs.
    rewrite !length_drop in Hbs. lia. }
  split; [assumption|]. split; [congruence|].
  split.
  - (* the read stays where it is *)
    intros Hpack Hnorot Hlimited.
    assert (Hbody2 :
      method (splitReadAfterWrites_body isLocallyLimited s2) = m1
      /\ lastInstruction (splitReadAfterWrites_body isLocallyLimited s2)
         = walker_plus (walker_nextInBlock c1) k).
    { unfold splitReadAfterWrites_body. rewrite Hr2, Hlw2, Hreads, Hasm_r.
      rewrite Hm2, Hlast2, Hsplit, Hpack, Hnorot, Hlimited. simpl.
      rewrite Hit2. split; reflexivity. }
    destruct Hbody2 as [Hmethod3 Hlast3].
    rewrite Hmethod3, Hlast3 in Hfrozen.
    unfold behind in Hfrozen. injection Hfrozen as _ Htake.
    unfold walker_plus, walker_nextInBlock, nextInBlock in Htake.
    cbn [basicBlock pos] in Htake.
    replace (pos c1 + k + 2) with (S (S (pos c1 + k))) by lia.
    etransitivity; [exact Htake|].
    change (getBasicBlock m1 (mkWalker (basicBlock c1) (S (pos c1) + k)))
      with b1.
    rewrite Hcut1 at 1.
    replace (S (S (pos c1 + k)))
      with (length (take (pos c1) b1) + (k + 2))
      by (rewrite length_take; lia).
    rewrite take_app_add'; [|reflexivity]. f_equal.
    apply take_segment. rewrite length_fmap. reflexivity.
  - (* a NOP right behind the write *)
    intros Htrigger.
    set (nop := new_Nop (new_address m1) WAIT_REGISTER).
    set (it1 := mkWalker (basicBlock c1) (S (S (pos c1) + k))).
    set (m2 := walker_emplace m1 (walker_nextInBlock c1) nop).
    assert (Hbody2 :
      method (splitReadAfterWrites_body isLocallyLimited s2) = m2
      /\ lastInstruction (splitReadAfterWrites_body isLocallyLimited s2) = it1).
    { unfold splitReadAfterWrites_body. rewrite Hr2, Hlw2, Hreads, Hasm_r.
      rewrite Hm2, Hlast2.
      assert (Hyes : mustSplit isLocallyLimited m1 c1 x r = true).
      { rewrite Hsplit. destruct Htrigger as [-> | [-> | ->]].
        - reflexivity.
        - apply orb_true_iff. left. apply orb_true_r.
        - apply orb_true_r. }
      rewrite Hyes. simpl.
      rewrite Hit2. unfold after_emplace, walker_plus, walker_nextInBlock,
        nextInBlock. cbn [basicBlock pos].
      rewrite !bool_decide_eq_true_2 by (reflexivity || lia).
      simpl. split; reflexivity. }
    destruct Hbody2 as [Hmethod3 Hlast3].
    rewrite Hmethod3, Hlast3 in Hfrozen.
    unfold behind in Hfrozen. injection Hfrozen as _ Htake.
    cbn [basicBlock pos it1] in Htake.
    replace (pos c1 + k + 3) with (S (S (S (pos c1 + k)))) by lia.
    etransitivity; [exact Htake|].
    destruct (walker_get_Some m1 c1 w Hw1) as (b1' & _ & Hb1 & Hslot1 & _).
    fold b1 in Hb1. subst b1'.
    assert (Hdrop : drop (pos c1) b1
                    = Some w :: (Some <$> labels) ++ Some r :: rest).
    { unfold ahead in Hahead1. injection Hahead1 as Hcur _. assumption. }
    assert (Hblock2 : getBasicBlock m2 it1
                      = take (pos c1) b1
                        ++ Some w :: Some nop
                           :: (Some <$> labels) ++ Some r :: rest).
    { unfold m2, walker_emplace. rewrite getBasicBlock_alter.
      cbn [basicBlock pos walker_nextInBlock it1].
      rewrite decide_True by reflexivity.
      rewrite decide_True by (eapply lookup_lt_Some; eassumption).
      change (getBasicBlock m1 it1) with b1.
      unfold emplace, nextInBlock.
      rewrite (take_S_r b1 (pos c1) (Some w) Hslot1).
      replace (drop (S (pos c1)) b1) with ((Some <$> labels) ++ Some r :: rest)
        by (replace (S (pos c1)) with (pos c1 + 1) by lia;
            rewrite <- drop_drop, Hdrop; reflexivity).
      rewrite <- !app_assoc. reflexivity. }
    rewrite Hblock2.
    replace (S (S (S (pos c1 + k))))
      with (length (take (pos c1) b1) + S (k + 2))
      by (rewrite length_take; lia).
    rewrite take_app_add'; [|reflexivity]. f_equal.
    cbn [take]. f_equal.
    apply take_segment. rewrite length_fmap. reflexivity.
Qed.

Lemma take_lookup_eq {A} (l pre seg : list A) n i x :
  take n l = pre ++ seg -> seg !! i = Some x -> l !! (length pre + i) = Some x.
Proof.
  intros Htake Hseg.
  assert (Hlk : (pre ++ seg) !! (length pre + i) = Some x)
    by (rewrite lookup_app_r by lia;
        replace (length pre + i - length pre) with i by lia; assumption).
  rewrite <- Htake in Hlk. apply lookup_take_Some in Hlk as [Hlk _].
  assumption.
Qed.

(** C3. In a method that begins with a label, let the write [w] of the
    local [x] be immediately followed by the read [r] of [x], both encoded
    as machine instructions. [m1] and [c1] are the method and the cursor of
    the write when the loop of [splitReadAfterWrites] stands at the read:
    [m1] is [m] with the placeholders put in so far, all of them before the
    write (from the write on it is as [m] is, and the users of the locals
    are those of [m]). The question of line 271 is asked once, of [m1] and
    [c1]. If [w] has no pack mode, [r] is no vector rotation and [x] is
    locally limited at [c1] in [m1], no placeholder is inserted: in the
    result the read still follows the write immediately. If [r] is a vector
    rotation then, whatever [isLocallyLimited] says, a new WAIT_REGISTER NOP
    stands right behind the write and the read behind it; the same holds
    when [w] has a pack mode or [x] is not locally limited. *)
Theorem split_read_after_write m c w r x :
  walker_get m c = Some w ->
  walker_get m (walker_nextInBlock c) = Some r ->
  (forall first, walker_get m (walkAllInstructions m) = Some first ->
                 isBranchLabel first = true) ->
  isBranchLabel w = false ->
  mapsToASMInstruction w = true ->
  getOutput w = Some (LOCAL x) ->
  readsLocal r x = true ->
  mapsToASMInstruction r = true ->
  exists m1 c1,
    ahead m1 c1 = ahead m c
    /\ basicBlock c1 = basicBlock c
    /\ Forall2 placeholders_added (getBasicBlocks m) (getBasicBlocks m1)
    /\ locals m1 = locals m
    /\ (hasPackMode w = false ->
        isVectorRotation r = false ->
        isLocallyLimited m1 c1 x = true ->
        walker_get (splitReadAfterWrites isLocallyLimited m) c1 = Some w
        /\ walker_get (splitReadAfterWrites isLocallyLimited m)
                      (walker_nextInBlock c1) = Some r)
    /\ (isVectorRotation r = true \/ hasPackMode w = true
        \/ isLocallyLimited m1 c1 x = false ->
        walker_get (splitReadAfterWrites isLocallyLimited m) c1 = Some w
        /\ walker_get (splitReadAfterWrites isLocallyLimited m)
                      (walker_nextInBlock c1)
           = Some (new_Nop (new_address m1) WAIT_REGISTER)
        /\ walker_get (splitReadAfterWrites isLocallyLimited m)
                      (walker_nextInBlock (walker_nextInBlock c1)) = Some r).
Proof.
  intros Hw Hr Hlabel Hnolabel Hasm_w Hout Hreads Hasm_r.
  assert (Hfirst : c ≠ walkAllInstructions m).
  { intros ->. rewrite (Hlabel w Hw) in Hnolabel. discriminate. }
  destruct (walker_get_pair_ahead m c w r Hw Hr) as (rest & bs & Hahead).
  destruct (split_at_write m c w [] r x rest bs Hahead Hfirst Hasm_w Hout
              (Forall_nil_2 _) Hreads Hasm_r)
    as (m1 & c1 & Hahead1 & Hblock & Hadded & Hlocals & Hplain & Hsplit).
  exists m1, c1.
  split; [assumption|]. split; [assumption|]. split; [assumption|].
  split; [assumption|].
  set (final := splitReadAfterWrites isLocallyLimited m) in *.
  assert (Hpos : length (take (pos c1) (getBasicBlock m1 c1)) = pos c1).
  { rewrite Hahead in Hahead1.
    destruct (ahead_block m1 c1 _ _ Hahead1) as (_ & _ & Hlt); [discriminate|].
    rewrite length_take. lia. }
  assert (Hget : forall i seg instr n,
            take n (getBasicBlock final c1)
            = take (pos c1) (getBasicBlock m1 c1) ++ seg ->
            seg !! i = Some (Some instr) ->
            walker_get final (mkWalker (basicBlock c1) (pos c1 + i))
            = Some instr).
  { intros i seg instr n Htake Hseg. unfold walker_get, get.
    change (getBasicBlock final (mkWalker (basicBlock c1) (pos c1 + i)))
      with (getBasicBlock final c1). cbn [pos].
    rewrite <- Hpos.
    rewrite (take_lookup_eq _ _ _ _ _ _ Htake Hseg). reflexivity. }
  assert (Hc1 : forall i, Nat.iter i walker_nextInBlock c1
                          = mkWalker (basicBlock c1) (pos c1 + i)).
  { induction i as [|i IHi]; simpl.
    - rewrite Nat.add_0_r. destruct c1; reflexivity.
    - rewrite IHi. unfold walker_nextInBlock, nextInBlock. simpl.
      f_equal. lia. }
  split.
  - intros Hpack Hnorot Hlimited.
    specialize (Hplain Hpack Hnorot Hlimited). simpl in Hplain.
    split.
    + rewrite <- (Hget 0 _ w _ Hplain eq_refl). rewrite <- (Hc1 0). reflexivity.
    + rewrite <- (Hget 1 _ r _ Hplain eq_refl). rewrite <- (Hc1 1). reflexivity.
  - intros Htrigger.
    assert (Htrigger' : hasPackMode w = true \/ isVectorRotation r = true
                        \/ isLocallyLimited m1 c1 x = false) by tauto.
    specialize (Hsplit Htrigger'). simpl in Hsplit.
    split; [|split].
    + rewrite <- (Hget 0 _ w _ Hsplit eq_refl). rewrite <- (Hc1 0). reflexivity.
    + rewrite <- (Hget 1 _ _ _ Hsplit eq_refl). rewrite <- (Hc1 1). reflexivity.
    + rewrite <- (Hget 2 _ r _ Hsplit eq_refl). rewrite <- (Hc1 2). reflexivity.
Qed.

End SplitFacts.

Section SplitWitness.
Import Locals IR Reordering Passes Samples.
Local Open Scope nat_scope.

Lemma split_read_after_write_witness :
  (exists c',
      walker_get (splitReadAfterWrites (limited_within 1) method_write_read) c'
      = Some (alu 1 (LOCAL 0) [LITERAL 3])
      /\ walker_get (splitReadAfterWrites (limited_within 1) method_write_read)
                    (walker_nextInBlock c')
         = Some (alu 2 (LOCAL 1) [LOCAL 0; LITERAL 1]))
  /\ (exists c' addr,
        walker_get (splitReadAfterWrites (limited_within 1) method_write_rotate)
                   c'
        = Some (alu 1 (LOCAL 0) [LITERAL 3])
        /\ walker_get (splitReadAfterWrites (limited_within 1)
                                            method_write_rotate)
                      (walker_nextInBlock c')
           = Some (new_Nop addr WAIT_REGISTER)
        /\ walker_get (splitReadAfterWrites (limited_within 1)
                                            method_write_rotate)
                      (walker_nextInBlock (walker_nextInBlock c'))
           = Some (rotation 2 (LOCAL 1) [LOCAL 0; LITERAL 1])).
Proof.
  split.
  - destruct (split_read_after_write (limited_within 1) method_write_read
                (mkWalker 0 1) (alu 1 (LOCAL 0) [LITERAL 3])
                (alu 2 (LOCAL 1) [LOCAL 0; LITERAL 1]) 0)
      as (m1 & c1 & Hahead & _ & _ & _ & Hplain & _);
      try reflexivity.
    { intros first Hfirst. injection Hfirst as <-. reflexivity. }
    exists c1. apply Hplain; try reflexivity.
    unfold limited_within. rewrite Hahead. reflexivity.
  - destruct (split_read_after_write (limited_within 1) method_write_rotate
                (mkWalker 0 1) (alu 1 (LOCAL 0) [LITERAL 3])
                (rotation 2 (LOCAL 1) [LOCAL 0; LITERAL 1]) 0)
      as (m1 & c1 & _ & _ & _ & _ & _ & Hsplit);
      try reflexivity.
    { intros first Hfirst. injection Hfirst as <-. reflexivity. }
    exists c1, (new_address m1). apply Hsplit. left. reflexivity.
Defined.

End SplitWitness.

(* ===================================================================== *)
(** * Further properties of the same code *)
(* ===================================================================== *)

Section SaturateExtras.
Import OpCodes.
Local Open Scope Z_scope.

(** X1. [saturate<T>] is monotone and idempotent and never returns more than
    T's maximum as a [long], whatever the width of [long] and whether or not
    the limits of [T] are values of [long]. Saturating to a wider type [T']
    first changes nothing: when the limits of both types are values of
    [long] and the range of [T] lies within that of [T'],
    [saturate<T>(saturate<T'>(v))] is [saturate<T>(v)]. *)
Theorem saturate_monotone_idempotent (long_bits : Z) (T : IntegralType)
        (v w : Z) :
  (v <= w -> saturate long_bits T v <= saturate long_bits T w)
  /\ saturate long_bits T (saturate long_bits T v) = saturate long_bits T v
  /\ saturate long_bits T v <= static_cast_long long_bits (numeric_limits_max T)
  /\ (forall T' : IntegralType,
        0 < long_bits -> fits_long long_bits T -> fits_long long_bits T' ->
        numeric_limits_min T' <= numeric_limits_min T ->
        numeric_limits_max T <= numeric_limits_max T' ->
        saturate long_bits T (saturate long_bits T' v) = saturate long_bits T v).
Proof.
  split; [|split; [|split]]; try (unfold saturate; lia).
  intros T' Hb Hfit Hfit' Hmin Hmax.
  destruct (limits_in_long long_bits T Hb Hfit) as (Hmin1 & Hmax1 & Hle1).
  destruct (limits_in_long long_bits T' Hb Hfit') as (Hmin2 & Hmax2 & Hle2).
  unfold saturate.
  rewrite !static_cast_long_id by assumption.
  lia.
Qed.

Lemma saturate_monotone_idempotent_witness :
  saturate 64 int8_t 3 <= saturate 64 int8_t 200
  /\ saturate 64 int8_t (saturate 64 int16_t 300) = saturate 64 int8_t 300.
Proof.
  split.
  - apply (proj1 (saturate_monotone_idempotent 64 int8_t 3 200)). lia.
  - apply (proj2 (proj2 (proj2 (saturate_monotone_idempotent 64 int8_t 300 0)))
             int16_t).
    + lia.
    + unfold fits_long. simpl. lia.
    + unfold fits_long. simpl. lia.
    + vm_compute. discriminate.
    + vm_compute. discriminate.
Defined.

(** X2. For an unsigned type as wide as [long] (as [unsigned long] or
    [uint64_t] on LP64), the maximum wraps to -1 as a [long] and
    [saturate<T>] returns -1 for every value. *)
Theorem saturate_unsigned_full_width (long_bits : Z) (v : Z) :
  0 < long_bits ->
  saturate long_bits (mkIntegral false long_bits) v = -1.
Proof.
  intros Hb. unfold saturate, static_cast_long, numeric_limits_min,
    numeric_limits_max. simpl.
  assert (Hpow : 2 ^ long_bits = 2 * 2 ^ (long_bits - 1)).
  { replace long_bits with (1 + (long_bits - 1)) at 1 by lia.
    rewrite Z.pow_add_r by lia. reflexivity. }
  assert (Hpos : 0 < 2 ^ (long_bits - 1)) by (apply Z.pow_pos_nonneg; lia).
  rewrite Hpow.
  rewrite (Z.mod_small (2 ^ (long_bits - 1))) by lia.
  replace (2 * 2 ^ (long_bits - 1) - 1 + 2 ^ (long_bits - 1))
    with (2 ^ (long_bits - 1) - 1 + 1 * (2 * 2 ^ (long_bits - 1))) by lia.
  rewrite Z.mod_add by lia.
  rewrite Z.mod_small by lia. lia.
Qed.

Lemma saturate_unsigned_full_width_witness :
  saturate 64 uint64_t 5 = -1.
Proof. apply (saturate_unsigned_full_width 64 5). lia. Defined.

End SaturateExtras.

Section RegistryExtras.
Import Locals.
Local Open Scope Z_scope.

Implicit Types (L : Local) (U : LocalUser) (k : Type_).

(** The record of [U] after [addUser(U, k)]. *)
Lemma addUser_lookup_eq L U k :
  users (addUser L U k) !! U
  = Some (let use := default LocalUse_new (users L !! U) in
          let use1 := if has_flag k READER then incReads use else use in
          if has_flag k WRITER then incWrites use1 else use1).
Proof.
  unfold addUser. simpl. rewrite lookup_alter_eq.
  destruct (users L !! U) as [use|] eqn:Hlk; simpl.
  - rewrite Hlk. reflexivity.
  - rewrite lookup_insert_eq. reflexivity.
Qed.

(** The loop over [users] meets every record once, in ascending order. *)
Lemma elem_of_entries_in_order L U (use : LocalUse) :
  (U, use) ∈ entries_in_order L <-> users L !! U = Some use.
Proof.
  unfold entries_in_order. rewrite merge_sort_Permutation.
  apply elem_of_map_to_list.
Qed.

Lemma entries_in_order_NoDup L : NoDup (entries_in_order L).
Proof.
  unfold entries_in_order. rewrite merge_sort_Permutation.
  apply NoDup_map_to_list.
Qed.

Lemma entries_in_order_sorted L : StronglySorted key_le (entries_in_order L).
Proof.
  apply StronglySorted_merge_sort.
  - intros a b c. unfold key_le. lia.
  - intros a b. unfold key_le. lia.
Qed.

Lemma StronglySorted_filter {A} (R : relation A) (P : A -> Prop)
      `{!forall x, Decision (P x)} (l : list A) :
  StronglySorted R l -> StronglySorted R (filter P l).
Proof.
  induction 1 as [|x l Hs IH Hall]; [constructor|].
  rewrite filter_cons. destruct (decide (P x)); [|assumption].
  constructor; [assumption|].
  apply Forall_forall. intros y [_ Hy]%list_elem_of_filter.
  rewrite Forall_forall in Hall. auto.
Qed.

Lemma elem_of_forUsers L U k :
  U ∈ forUsers L k
  <-> exists use, users L !! U = Some use /\ matches k use = true.
Proof.
  unfold forUsers. rewrite list_elem_of_fmap. split.
  - intros ([u use] & -> & Hin). apply list_elem_of_filter in Hin as [Hm Hin].
    apply elem_of_entries_in_order in Hin. exists use. auto.
  - intros (use & Hlk & Hm). exists (U, use). split; [reflexivity|].
    apply list_elem_of_filter. split; [assumption|].
    apply elem_of_entries_in_order. assumption.
Qed.



(** X4. After [addUser(U, k)], with the counters of [U] below their maximum:
    [U] is among the readers when [k] has the READER flag, among the writers
    when it has the WRITER flag; whether another user is among the users of
    some kind is as before; and nobody who was among them is lost. *)
Theorem addUser_registers L U k :
  (forall use, users L !! U = Some use ->
     0 <= numReads use < 2 ^ 32 - 1 /\ 0 <= numWrites use < 2 ^ 32 - 1) ->
  (has_flag k READER = true -> U ∈ getUsers (addUser L U k) READER)
  /\ (has_flag k WRITER = true -> U ∈ getUsers (addUser L U k) WRITER)
  /\ U ∈ getUsers (addUser L U k) BOTH
  /\ (forall U' t, U' <> U ->
        U' ∈ getUsers (addUser L U k) t <-> U' ∈ getUsers L t)
  /\ (forall t, getUsers L t ⊆ getUsers (addUser L U k) t).
Proof.
  intros Hrange.
  assert (Hbump : exists r w,
             users (addUser L U k) !! U = Some (mkUse w r)
             /\ 0 <= r /\ 0 <= w
             /\ (has_flag k READER = true -> 0 < r)
             /\ (has_flag k WRITER = true -> 0 < w)
             /\ (forall use, users L !! U = Some use ->
                   numReads use <= r /\ numWrites use <= w)
             /\ (0 < r \/ 0 < w)).
  { rewrite addUser_lookup_eq.
    assert (H0 : 0 <= numReads (default LocalUse_new (users L !! U)) < 2 ^ 32 - 1
                 /\ 0 <= numWrites (default LocalUse_new (users L !! U)) < 2 ^ 32 - 1).
    { destruct (users L !! U) as [use|] eqn:Hlk; simpl.
      - apply Hrange. reflexivity.
      - lia. }
    assert (Hsame : forall use, users L !! U = Some use ->
                      use = default LocalUse_new (users L !! U)).
    { intros use ->. reflexivity. }
    destruct (default LocalUse_new (users L !! U)) as [w r]. simpl in H0.
    unfold incReads, incWrites, uint32_wrap. simpl.
    destruct k; simpl;
      change (has_flag READER READER) with true;
      change (has_flag READER WRITER) with false;
      change (has_flag WRITER READER) with false;
      change (has_flag WRITER WRITER) with true;
      change (has_flag BOTH READER) with true;
      change (has_flag BOTH WRITER) with true; simpl;
      rewrite ?(Z.mod_small (r + 1)), ?(Z.mod_small (w + 1)) by lia;
      eexists; eexists; (split; [reflexivity|]);
      repeat split; try lia; try discriminate;
      try match goal with
          | Huse : users L !! U = Some ?u |- _ =>
              apply Hsame in Huse; subst u; simpl; lia
          end. }
  destruct Hbump as (r & w & Hlk & Hr0 & Hw0 & Hr & Hw & Hmono & Hlive).
  assert (Hother : forall U' t, U' <> U ->
            U' ∈ getUsers (addUser L U k) t <-> U' ∈ getUsers L t).
  { intros U' t Hne. rewrite !elem_of_getUsers.
    rewrite addUser_lookup_ne by congruence. reflexivity. }
  split; [|split; [|split; [|split]]].
  - intros Hk. apply elem_of_getUsers. eexists. split; [exact Hlk|].
    unfold matches, use_readsLocal. simpl.
    change (has_flag READER READER) with true. simpl.
    apply Hr in Hk. apply orb_true_iff. left. apply Z.ltb_lt. assumption.
  - intros Hk. apply elem_of_getUsers. eexists. split; [exact Hlk|].
    unfold matches, use_writesLocal. simpl.
    change (has_flag WRITER READER) with false.
    change (has_flag WRITER WRITER) with true. simpl.
    apply Z.ltb_lt. apply Hw. assumption.
  - apply elem_of_getUsers. eexists. split; [exact Hlk|].
    unfold matches, use_readsLocal, use_writesLocal. simpl.
    change (has_flag BOTH READER) with true.
    change (has_flag BOTH WRITER) with true. simpl.
    apply orb_true_iff. destruct Hlive; [left | right]; apply Z.ltb_lt; assumption.
  - exact Hother.
  - intros t U'. destruct (decide (U' = U)) as [->|Hne].
    + rewrite !elem_of_getUsers. intros (use & Huse & Hm).
      eexists. split; [exact Hlk|].
      destruct (Hmono use Huse) as [Hle_r Hle_w].
      unfold matches, use_readsLocal, use_writesLocal in *. simpl.
      apply orb_true_iff in Hm. apply orb_true_iff.
      destruct Hm as [Hm|Hm]; apply andb_true_iff in Hm as [Hf Hpos];
        apply Z.ltb_lt in Hpos; [left | right]; apply andb_true_iff;
        (split; [assumption|]); apply Z.ltb_lt; lia.
    + apply Hother. assumption.
Qed.

Lemma addUser_registers_witness :
  (3%nat ∈ getUsers (addUser (mkLocal {[ 3%nat := mkUse 1 0 ]}) 3%nat READER) READER)
  /\ (3%nat ∈ getUsers (addUser (mkLocal {[ 3%nat := mkUse 1 0 ]}) 3%nat READER) WRITER).
Proof.
  assert (Hrange : forall use,
            users (mkLocal {[ 3%nat := mkUse 1 0 ]}) !! 3%nat = Some use ->
            0 <= numReads use < 2 ^ 32 - 1 /\ 0 <= numWrites use < 2 ^ 32 - 1).
  { intros use Hlk. simpl in Hlk. rewrite lookup_singleton_eq in Hlk.
    injection Hlk as <-. simpl. lia. }
  pose proof (addUser_registers (mkLocal {[ 3%nat := mkUse 1 0 ]}) 3%nat READER
                Hrange) as (Hr & _ & _ & _ & Hkeep).
  split.
  - apply Hr. reflexivity.
  - apply Hkeep. apply elem_of_getUsers. exists (mkUse 1 0).
    split; [apply lookup_singleton_eq | reflexivity].
Defined.

Lemma uint32_wrap_inc_dec (z : Z) :
  0 <= z < 2 ^ 32 -> uint32_wrap (uint32_wrap (z + 1) - 1) = z.
Proof.
  intros Hz. unfold uint32_wrap.
  destruct (decide (z = 2 ^ 32 - 1)) as [->|Hne].
  - reflexivity.
  - rewrite (Z.mod_small (z + 1)) by lia.
    replace (z + 1 - 1) with z by lia. apply Z.mod_small. lia.
Qed.

Lemma insert_alter_back (m : gmap LocalUser LocalUse) U f (use : LocalUse) :
  m !! U = Some use -> <[U := use]> (alter f U m) = m.
Proof.
  intros Hlk. apply map_eq. intros i. destruct (decide (U = i)) as [<-|Hne].
  - rewrite lookup_insert_eq. symmetry. assumption.
  - rewrite lookup_insert_ne, lookup_alter_ne by assumption. reflexivity.
Qed.

Lemma delete_alter_insert_back (m : gmap LocalUser LocalUse) U f
      (use : LocalUse) :
  m !! U = None -> delete U (alter f U (<[U := use]> m)) = m.
Proof.
  intros Hlk. apply map_eq. intros i. destruct (decide (U = i)) as [<-|Hne].
  - rewrite lookup_delete_eq. symmetry. assumption.
  - rewrite lookup_delete_ne, lookup_alter_ne, lookup_insert_ne by assumption.
    reflexivity.
Qed.

(** X5. [addUser(U, k)] followed by [removeUser(U, k)], for [k] READER or
    WRITER, gives back the Local as it was: when [U] had no record, and when
    it had a record that says something (even with the counter at its
    maximum). With BOTH the two calls leave no record of [U], whatever was
    recorded for it before. *)
Theorem addUser_removeUser_round_trip L U k :
  (k <> BOTH ->
   (forall use, users L !! U = Some use ->
      counters_in_range use /\ live use = true) ->
   removeUser (addUser L U k) U k = (L, None))
  /\ removeUser (addUser L U BOTH) U BOTH
     = (mkLocal (delete U (users L)), None).
Proof.
  split.
  2:{ unfold removeUser. rewrite decide_True by reflexivity. do 2 f_equal.
      apply map_eq. intros i. destruct (decide (U = i)) as [<-|Hne].
      - rewrite !lookup_delete_eq. reflexivity.
      - rewrite !lookup_delete_ne by assumption.
        apply addUser_lookup_ne. assumption. }
  intros Hk Hrec. unfold removeUser.
  destruct (decide (k = BOTH)) as [|_]; [contradiction|].
  rewrite addUser_lookup_eq. cbv zeta.
  destruct L as [m]. simpl in *.
  destruct (m !! U) as [[w r]|] eqn:Hlk; simpl.
  - destruct (Hrec _ eq_refl) as [[Hw Hr] Hlive]. simpl in Hw, Hr.
    unfold live, use_readsLocal, use_writesLocal in Hlive. simpl in Hlive.
    destruct k; [| |contradiction].
    + change (has_flag READER READER) with true.
      change (has_flag READER WRITER) with false. cbv iota.
      rewrite decide_True by reflexivity.
      unfold decReads, incReads, use_readsLocal, use_writesLocal. simpl.
      rewrite uint32_wrap_inc_dec by assumption.
      rewrite <- negb_orb, Hlive. cbn [negb]. do 2 f_equal.
      apply insert_alter_back. assumption.
    + change (has_flag WRITER READER) with false.
      change (has_flag WRITER WRITER) with true. cbv iota.
      rewrite decide_False by discriminate.
      rewrite decide_True by reflexivity.
      unfold decWrites, incWrites, use_readsLocal, use_writesLocal. simpl.
      rewrite uint32_wrap_inc_dec by assumption.
      rewrite <- negb_orb, Hlive. cbn [negb]. do 2 f_equal.
      apply insert_alter_back. assumption.
  - destruct k; [| |contradiction].
    + change (has_flag READER READER) with true.
      change (has_flag READER WRITER) with false. cbv iota.
      rewrite decide_True by reflexivity.
      simpl. do 2 f_equal. apply delete_alter_insert_back. assumption.
    + change (has_flag WRITER READER) with false.
      change (has_flag WRITER WRITER) with true. cbv iota.
      rewrite decide_False by discriminate.
      rewrite decide_True by reflexivity.
      simpl. do 2 f_equal. apply delete_alter_insert_back. assumption.
Qed.

Lemma addUser_removeUser_round_trip_witness :
  removeUser (addUser (mkLocal {[ 3%nat := mkUse 1 0 ]}) 3%nat WRITER)
             3%nat WRITER
  = (mkLocal {[ 3%nat := mkUse 1 0 ]}, None).
Proof.
  apply (proj1 (addUser_removeUser_round_trip
                  (mkLocal {[ 3%nat := mkUse 1 0 ]}) 3%nat WRITER)).
  - discriminate.
  - intros use Hlk. simpl in Hlk. rewrite lookup_singleton_eq in Hlk.
    injection Hlk as <-. unfold counters_in_range. simpl. split; [lia|reflexivity].
Defined.

Lemma addUser_registered (others : gmap LocalUser LocalUse) U k (c : Z) :
  others !! U = None -> 0 <= c -> c + 1 < 2 ^ 32 ->
  addUser (registered others U k c) U k = registered others U k (c + 1).
Proof.
  intros Hnone Hc Hmax. unfold registered, addUser.
  rewrite (decide_False (P := c + 1 = 0)) by lia.
  f_equal. cbn [users].
  destruct (decide (c = 0)) as [->|Hpos].
  - rewrite Hnone. apply map_eq. intros i.
    destruct (decide (U = i)) as [<-|Hne].
    + rewrite lookup_alter_eq, !lookup_insert_eq. simpl.
      destruct k; reflexivity.
    + rewrite lookup_alter_ne, !lookup_insert_ne by assumption. reflexivity.
  - rewrite lookup_insert_eq. apply map_eq. intros i.
    destruct (decide (U = i)) as [<-|Hne].
    + rewrite lookup_alter_eq, !lookup_insert_eq. simpl.
      unfold incReads, incWrites, uint32_wrap.
      destruct k; simpl; rewrite ?Z.mod_small by lia; reflexivity.
    + rewrite lookup_alter_ne, !lookup_insert_ne by assumption. reflexivity.
Qed.

Lemma removeUser_registered (others : gmap LocalUser LocalUse) U k (c : Z) :
  k <> BOTH -> others !! U = None -> 0 <= c -> c + 1 < 2 ^ 32 ->
  removeUser (registered others U k (c + 1)) U k
  = (registered others U k c, None).
Proof.
  intros Hk Hnone Hc Hmax. unfold registered, removeUser.
  rewrite (decide_False (P := c + 1 = 0)) by lia.
  rewrite (decide_False (P := k = BOTH)) by assumption.
  cbn [users]. rewrite lookup_insert_eq.
  assert (Hdel : delete U (<[U := use_of k (c + 1)]> others) = others).
  { rewrite delete_insert_eq. apply delete_id. assumption. }
  destruct k; [| |contradiction].
  - rewrite decide_True by reflexivity.
    unfold decReads, use_readsLocal, use_writesLocal, uint32_wrap. simpl.
    replace (c + 1 - 1) with c by lia. rewrite Z.mod_small by lia.
    destruct (decide (c = 0)) as [->|Hpos]; simpl.
    + do 2 f_equal. exact Hdel.
    + replace (0 <? c) with true by (symmetry; apply Z.ltb_lt; lia). simpl.
      rewrite insert_insert_eq. reflexivity.
  - rewrite decide_False by discriminate. rewrite decide_True by reflexivity.
    unfold decWrites, use_readsLocal, use_writesLocal, uint32_wrap. simpl.
    replace (c + 1 - 1) with c by lia. rewrite Z.mod_small by lia.
    destruct (decide (c = 0)) as [->|Hpos]; simpl.
    + do 2 f_equal. exact Hdel.
    + replace (0 <? c) with true by (symmetry; apply Z.ltb_lt; lia). simpl.
      rewrite insert_insert_eq. reflexivity.
Qed.

Lemma addUser_times_registered (others : gmap LocalUser LocalUse) U k n :
  forall c, others !! U = None -> 0 <= c -> c + Z.of_nat n < 2 ^ 32 ->
  addUser_times n (registered others U k c) U k
  = registered others U k (c + Z.of_nat n).
Proof.
  induction n as [|n IH]; intros c Hnone Hc Hmax.
  - simpl. rewrite Z.add_0_r. reflexivity.
  - simpl addUser_times. rewrite addUser_registered by (assumption || lia).
    rewrite IH by (assumption || lia). f_equal. lia.
Qed.

Lemma removeUser_times_registered (others : gmap LocalUser LocalUse) U k n :
  forall c, k <> BOTH -> others !! U = None -> 0 <= c ->
  c + Z.of_nat n < 2 ^ 32 ->
  removeUser_times n (registered others U k (c + Z.of_nat n)) U k
  = (registered others U k c, None).
Proof.
  induction n as [|n IH]; intros c Hk Hnone Hc Hmax.
  - simpl. rewrite Z.add_0_r. reflexivity.
  - simpl removeUser_times.
    replace (c + Z.of_nat (S n)) with (c + Z.of_nat n + 1) by lia.
    rewrite removeUser_registered by (assumption || lia).
    apply IH; assumption || lia.
Qed.

Lemma removeUser_times_one_more L U k n :
  forall L0, users L !! U = None -> k <> BOTH ->
  removeUser_times n L0 U k = (L, None) ->
  removeUser_times (S n) L0 U k = (L, Some (NotRegisteredUser U)).
Proof.
  induction n as [|n IH]; intros L0 Hnone Hk Hall.
  - simpl in Hall. injection Hall as ->. simpl. unfold removeUser.
    rewrite decide_False by assumption. rewrite Hnone. reflexivity.
  - change (removeUser_times (S (S n)) L0 U k)
      with (match removeUser L0 U k with
            | (l', None) => removeUser_times (S n) l' U k
            | (l', Some e) => (l', Some e)
            end).
    simpl removeUser_times in Hall.
    destruct (removeUser L0 U k) as [L1 [e|]]; [discriminate|].
    apply IH; assumption.
Qed.

(** X6. Registrations and withdrawals balance: after [n] calls of
    [addUser(U, k)] for a user without a record ([k] READER or WRITER, [n]
    below 2^32), [m <= n] calls of [removeUser(U, k)] do not throw and
    leave [U] registered [n - m] times; when [m = n] the Local is as it was
    at the start, and one more [removeUser(U, k)] throws. *)
Theorem addUser_removeUser_balanced L U k (n m : nat) :
  users L !! U = None -> k <> BOTH -> Z.of_nat n < 2 ^ 32 -> (m <= n)%nat ->
  removeUser_times m (addUser_times n L U k) U k
  = (registered (users L) U k (Z.of_nat (n - m)), None)
  /\ removeUser_times n (addUser_times n L U k) U k = (L, None)
  /\ removeUser_times (S n) (addUser_times n L U k) U k
     = (L, Some (NotRegisteredUser U)).
Proof.
  intros Hnone Hk Hmax Hle.
  assert (HL : L = registered (users L) U k 0) by (destruct L; reflexivity).
  assert (Hadd : addUser_times n L U k
                 = registered (users L) U k (Z.of_nat n)).
  { rewrite HL at 1. rewrite addUser_times_registered by (assumption || lia).
    reflexivity. }
  assert (Hall : removeUser_times n (addUser_times n L U k) U k = (L, None)).
  { rewrite Hadd.
    replace (Z.of_nat n) with (0 + Z.of_nat n) by lia.
    rewrite removeUser_times_registered by (assumption || lia).
    rewrite <- HL. reflexivity. }
  split; [|split].
  - rewrite Hadd.
    replace (Z.of_nat n) with (Z.of_nat (n - m) + Z.of_nat m) by lia.
    apply removeUser_times_registered; assumption || lia.
  - exact Hall.
  - apply removeUser_times_one_more; assumption.
Qed.

Lemma addUser_removeUser_balanced_witness :
  removeUser_times 1 (addUser_times 2 Local_new 5%nat READER) 5%nat READER
  = (mkLocal {[ 5%nat := mkUse 0 1 ]}, None)
  /\ removeUser_times 3 (addUser_times 2 Local_new 5%nat READER) 5%nat READER
     = (Local_new, Some (NotRegisteredUser 5%nat)).
Proof.
  assert (Hlt : Z.of_nat 2 < 2 ^ 32) by (vm_compute; reflexivity).
  assert (Hle : (1 <= 2)%nat) by lia.
  assert (Hk : READER <> BOTH) by discriminate.
  pose proof (addUser_removeUser_balanced Local_new 5%nat READER 2 1
                eq_refl Hk Hlt Hle) as (H1 & _ & H3).
  split; [exact H1 | exact H3].
Defined.

(** [getSingleWriter] by the records: the one user whose record writes. *)
Lemma getSingleWriter_only L U (use : LocalUse) :
  users L !! U = Some use -> use_writesLocal use = true ->
  (forall U' use', users L !! U' = Some use' ->
                   use_writesLocal use' = true -> U' = U) ->
  getSingleWriter L = Some U.
Proof.
  intros Hlk Hw Honly.
  unfold getSingleWriter. rewrite getSingleWriter_loop_spec.
  pose proof (writing_entries_lookup L) as Hin.
  pose proof (writing_entries_NoDup L) as Hnd.
  destruct (filter _ (map_to_list (users L))) as [|[u1 s1] [|[u2 s2] rest]].
  - assert (Hel : (U, use) ∈ @nil (LocalUser * LocalUse)) by (apply Hin; auto).
    inversion Hel.
  - assert (E : (U, use) ∈ [(u1, s1)]) by (apply Hin; auto).
    apply list_elem_of_singleton in E. inversion E. reflexivity.
  - exfalso.
    destruct (Hin u1 s1) as [[H1 Hw1] _]; [left|].
    destruct (Hin u2 s2) as [[H2 Hw2] _]; [right; left|].
    pose proof (Honly _ _ H1 Hw1). pose proof (Honly _ _ H2 Hw2).
    subst u1 u2. simpl in Hnd. inversion Hnd as [|? ? Hnotin _]; subst.
    apply Hnotin. left.
Qed.

Lemma getSingleWriter_several L U1 U2 (use1 use2 : LocalUse) :
  U1 <> U2 ->
  users L !! U1 = Some use1 -> use_writesLocal use1 = true ->
  users L !! U2 = Some use2 -> use_writesLocal use2 = true ->
  getSingleWriter L = None.
Proof.
  intros Hne H1 Hw1 H2 Hw2.
  unfold getSingleWriter. rewrite getSingleWriter_loop_spec.
  pose proof (writing_entries_lookup L) as Hin.
  destruct (filter _ (map_to_list (users L))) as [|[u1 s1] [|[u2 s2] rest]];
    [reflexivity | | reflexivity].
  assert (E1 : (U1, use1) ∈ [(u1, s1)]) by (apply Hin; auto).
  assert (E2 : (U2, use2) ∈ [(u1, s1)]) by (apply Hin; auto).
  apply list_elem_of_singleton in E1, E2. congruence.
Qed.

Lemma getSingleWriter_nobody L :
  (forall U use, users L !! U = Some use -> use_writesLocal use = false) ->
  getSingleWriter L = None.
Proof.
  intros Hnone.
  unfold getSingleWriter. rewrite getSingleWriter_loop_spec.
  pose proof (writing_entries_lookup L) as Hin.
  destruct (filter _ (map_to_list (users L))) as [|[u1 s1] rest];
    [reflexivity|].
  destruct (Hin u1 s1) as [[Hlk Hw] _]; [left|].
  rewrite (Hnone _ _ Hlk) in Hw. discriminate.
Qed.

(** X7. How [getSingleWriter] follows the registrations on a Local that nobody
    writes yet: the first [addUser(U1, WRITER)] makes [U1] the single
    writer; [U1] writing once more or another user reading changes nothing;
    a second writer [U2] makes the answer "none"; and once the record of
    [U2] is dropped, [U1] is the single writer again. *)
Theorem getSingleWriter_follows_registrations L U1 U2 :
  (forall U use, users L !! U = Some use -> numWrites use = 0) ->
  U1 <> U2 ->
  getSingleWriter L = None
  /\ getSingleWriter (addUser L U1 WRITER) = Some U1
  /\ getSingleWriter (addUser (addUser L U1 WRITER) U1 WRITER) = Some U1
  /\ getSingleWriter (addUser (addUser L U1 WRITER) U2 READER) = Some U1
  /\ getSingleWriter (addUser (addUser L U1 WRITER) U2 WRITER) = None
  /\ getSingleWriter
       (removeUser (addUser (addUser L U1 WRITER) U2 WRITER) U2 BOTH).1
     = Some U1.
Proof.
  intros Hnone Hne.
  assert (Hzero : numWrites (default LocalUse_new (users L !! U1)) = 0
                  /\ numWrites (default LocalUse_new (users L !! U2)) = 0).
  { split.
    - destruct (users L !! U1) as [use|] eqn:Hlk; [|reflexivity].
      exact (Hnone _ _ Hlk).
    - destruct (users L !! U2) as [use|] eqn:Hlk; [|reflexivity].
      exact (Hnone _ _ Hlk). }
  destruct Hzero as [Hz1 Hz2].
  assert (Hw1 : exists use, users (addUser L U1 WRITER) !! U1 = Some use
                            /\ numWrites use = 1).
  { rewrite addUser_lookup_eq. eexists. split; [reflexivity|].
    cbv zeta. change (has_flag WRITER READER) with false.
    change (has_flag WRITER WRITER) with true. cbv iota.
    unfold incWrites. simpl. rewrite Hz1. reflexivity. }
  destruct Hw1 as (use1 & Hlk1 & Hcount1).
  assert (Hothers : forall U use, U <> U1 ->
            users (addUser L U1 WRITER) !! U = Some use -> numWrites use = 0).
  { intros U use HU Hlk. rewrite addUser_lookup_ne in Hlk by congruence.
    exact (Hnone _ _ Hlk). }
  assert (Hwrites : forall use : LocalUse,
            use_writesLocal use = true -> numWrites use <> 0).
  { intros use Hw. unfold use_writesLocal in Hw. apply Z.ltb_lt in Hw. lia. }
  split; [|split; [|split; [|split; [|split]]]].
  - apply getSingleWriter_nobody. intros U use Hlk.
    unfold use_writesLocal. rewrite (Hnone _ _ Hlk). reflexivity.
  - apply (getSingleWriter_only _ _ use1 Hlk1).
    + unfold use_writesLocal. rewrite Hcount1. reflexivity.
    + intros U' use' Hlk' Hw'.
      destruct (decide (U' = U1)) as [|HU]; [assumption|].
      exfalso. apply (Hwrites _ Hw'). eapply Hothers; eassumption.
  - eapply getSingleWriter_only.
    + apply addUser_lookup_eq.
    + cbv zeta. rewrite Hlk1. simpl.
      change (has_flag WRITER READER) with false.
      change (has_flag WRITER WRITER) with true. cbv iota.
      unfold use_writesLocal, incWrites. simpl. rewrite Hcount1. reflexivity.
    + intros U' use' Hlk' Hw'.
      destruct (decide (U' = U1)) as [|HU]; [assumption|].
      exfalso. apply (Hwrites _ Hw').
      rewrite addUser_lookup_ne in Hlk' by congruence.
      eapply Hothers; eassumption.
  - eapply getSingleWriter_only.
    + rewrite addUser_lookup_ne by congruence. exact Hlk1.
    + unfold use_writesLocal. rewrite Hcount1. reflexivity.
    + intros U' use' Hlk' Hw'.
      destruct (decide (U' = U1)) as [|HU]; [assumption|].
      exfalso. apply (Hwrites _ Hw').
      destruct (decide (U' = U2)) as [->|HU2].
      * rewrite addUser_lookup_eq in Hlk'. cbv zeta in Hlk'.
        rewrite addUser_lookup_ne in Hlk' by congruence.
        change (has_flag READER READER) with true in Hlk'.
        change (has_flag READER WRITER) with false in Hlk'. cbv iota in Hlk'.
        injection Hlk' as <-. exact Hz2.
      * rewrite addUser_lookup_ne in Hlk' by congruence.
        eapply Hothers; eassumption.
  - eapply (getSingleWriter_several _ U1 U2).
    + assumption.
    + rewrite addUser_lookup_ne by congruence. exact Hlk1.
    + unfold use_writesLocal. rewrite Hcount1. reflexivity.
    + apply addUser_lookup_eq.
    + cbv zeta. rewrite addUser_lookup_ne by congruence.
      change (has_flag WRITER READER) with false.
      change (has_flag WRITER WRITER) with true. cbv iota.
      unfold use_writesLocal, incWrites. simpl. rewrite Hz2. reflexivity.
  - unfold removeUser. rewrite decide_True by reflexivity. cbn [fst].
    eapply getSingleWriter_only.
    + cbn [users]. rewrite lookup_delete_ne by congruence.
      rewrite addUser_lookup_ne by congruence. exact Hlk1.
    + unfold use_writesLocal. rewrite Hcount1. reflexivity.
    + intros U' use' Hlk' Hw'.
      destruct (decide (U' = U1)) as [|HU]; [assumption|].
      exfalso. apply (Hwrites _ Hw').
      cbn [users] in Hlk'.
      destruct (decide (U' = U2)) as [->|HU2].
      * rewrite lookup_delete_eq in Hlk'. discriminate.
      * rewrite lookup_delete_ne in Hlk' by congruence.
        rewrite addUser_lookup_ne in Hlk' by congruence.
        eapply Hothers; eassumption.
Qed.

Lemma getSingleWriter_follows_registrations_witness :
  getSingleWriter (addUser (mkLocal {[ 7%nat := mkUse 0 2 ]}) 1%nat WRITER)
  = Some 1%nat
  /\ getSingleWriter
       (addUser (addUser (mkLocal {[ 7%nat := mkUse 0 2 ]}) 1%nat WRITER)
                2%nat WRITER)
     = None.
Proof.
  assert (Hnone : forall U use,
            users (mkLocal {[ 7%nat := mkUse 0 2 ]}) !! U = Some use ->
            numWrites use = 0).
  { intros U use Hlk. simpl in Hlk.
    apply lookup_singleton_Some in Hlk as [_ <-]. reflexivity. }
  assert (Hne : 1%nat <> 2%nat) by discriminate.
  pose proof (getSingleWriter_follows_registrations
                (mkLocal {[ 7%nat := mkUse 0 2 ]}) 1%nat 2%nat Hnone Hne)
    as (_ & H1 & _ & _ & H2 & _).
  split; [exact H1 | exact H2].
Defined.

Lemma removeUser_lookup_ne L U U' k :
  U <> U' -> users (removeUser L U k).1 !! U' = users L !! U'.
Proof.
  intros Hne. unfold removeUser.
  destruct (decide (k = BOTH)); simpl.
  - apply lookup_delete_ne. assumption.
  - destruct (users L !! U) as [use0|]; [|reflexivity].
    destruct (negb _ && negb _); simpl.
    + apply lookup_delete_ne. assumption.
    + apply lookup_insert_ne. assumption.
Qed.

(** X24. [addUser(U, k)] and [removeUser(U, k)] touch the record of [U]
    only: the record of every other user is as before, whether or not
    [removeUser] throws. [addUser] leaves [U] with a record and removes
    none; [removeUser] creates none. *)
Theorem registry_calls_are_local L U U' k :
  (U' <> U -> users (addUser L U k) !! U' = users L !! U')
  /\ (U' <> U -> users (removeUser L U k).1 !! U' = users L !! U')
  /\ is_Some (users (addUser L U k) !! U)
  /\ (is_Some (users L !! U') -> is_Some (users (addUser L U k) !! U'))
  /\ (is_Some (users (removeUser L U k).1 !! U') -> is_Some (users L !! U')).
Proof.
  split; [|split; [|split; [|split]]].
  - intros Hne. apply addUser_lookup_ne. congruence.
  - intros Hne. apply removeUser_lookup_ne. congruence.
  - rewrite addUser_lookup_eq. eauto.
  - destruct (decide (U' = U)) as [->|Hne].
    + intros _. rewrite addUser_lookup_eq. eauto.
    + rewrite addUser_lookup_ne by congruence. auto.
  - destruct (decide (U' = U)) as [->|Hne].
    + unfold removeUser. destruct (decide (k = BOTH)); simpl.
      * rewrite lookup_delete_eq. intros [? H]. discriminate.
      * destruct (users L !! U) as [use0|] eqn:Hlk; [eauto|].
        simpl. rewrite Hlk. auto.
    + rewrite removeUser_lookup_ne by congruence. auto.
Qed.

Lemma registry_calls_are_local_witness :
  users (removeUser (mkLocal {[ 3%nat := mkUse 1 0; 7%nat := mkUse 0 2 ]})
                    3%nat WRITER).1 !! 7%nat
  = Some (mkUse 0 2).
Proof.
  rewrite (proj1 (proj2 (registry_calls_are_local
                           (mkLocal {[ 3%nat := mkUse 1 0; 7%nat := mkUse 0 2 ]})
                           3%nat 7%nat WRITER))) by discriminate.
  reflexivity.
Defined.

(** X25. [getSingleWriter] agrees with [getUsers(WRITER)]: it returns [U]
    exactly when [U] is the one and only member of [getUsers(WRITER)], and
    nothing exactly when [getUsers(WRITER)] does not have exactly one
    member. *)
Theorem getSingleWriter_getUsers L :
  (forall U, getSingleWriter L = Some U <-> getUsers L WRITER = {[ U ]})
  /\ (getSingleWriter L = None <-> size (getUsers L WRITER) <> 1%nat).
Proof.
  assert (Hwriter : forall U,
            U ∈ getUsers L WRITER
            <-> exists use, users L !! U = Some use
                            /\ use_writesLocal use = true).
  { intros U. rewrite elem_of_getUsers. reflexivity. }
  assert (Hto : forall U, getUsers L WRITER = {[ U ]} ->
                          getSingleWriter L = Some U).
  { intros U Hset.
    assert (HU : U ∈ getUsers L WRITER) by (rewrite Hset; apply elem_of_singleton; reflexivity).
    apply Hwriter in HU as (use & Hlk & Hw).
    apply (getSingleWriter_only L U use Hlk Hw).
    intros U' use' Hlk' Hw'.
    assert (HU' : U' ∈ getUsers L WRITER) by (apply Hwriter; eauto).
    rewrite Hset in HU'. apply elem_of_singleton in HU'. assumption. }
  assert (Hcases : (exists U, getUsers L WRITER = {[ U ]})
                   \/ ((forall U, getUsers L WRITER <> {[ U ]})
                       /\ getSingleWriter L = None)).
  { destruct (decide (getUsers L WRITER = ∅)) as [Hempty|Hne].
    - right. split.
      + intros U Hset. rewrite Hset in Hempty.
        exact (non_empty_singleton_L (C:=gset LocalUser) U Hempty).
      + apply getSingleWriter_nobody. intros U use Hlk.
        destruct (use_writesLocal use) eqn:Hw; [|reflexivity].
        assert (HU : U ∈ getUsers L WRITER) by (apply Hwriter; eauto).
        rewrite Hempty in HU. apply elem_of_empty in HU. contradiction.
    - apply set_choose_L in Hne as [U1 HU1].
      destruct (decide (getUsers L WRITER = {[ U1 ]})) as [Hone|Hmore];
        [left; eauto|].
      right.
      assert (Hother : exists U2, U2 ∈ getUsers L WRITER /\ U2 <> U1).
      { destruct (decide (getUsers L WRITER ∖ {[ U1 ]} = ∅)) as [He|Hn].
        - exfalso. apply Hmore. apply set_eq. intros x.
          rewrite elem_of_singleton. split.
          + intros Hx. destruct (decide (x = U1)) as [|Hxne]; [assumption|].
            assert (Hin : x ∈ getUsers L WRITER ∖ {[ U1 ]}).
            { apply elem_of_difference. split; [assumption|].
              rewrite elem_of_singleton. assumption. }
            rewrite He in Hin. apply elem_of_empty in Hin. contradiction.
          + intros ->. assumption.
        - apply set_choose_L in Hn as [U2 HU2].
          apply elem_of_difference in HU2 as [Hin Hnot].
          rewrite elem_of_singleton in Hnot. eauto. }
      destruct Hother as (U2 & HU2 & Hne12).
      split.
      + intros U Hset. rewrite Hset in HU1, HU2.
        apply elem_of_singleton in HU1, HU2. congruence.
      + apply Hwriter in HU1 as (use1 & Hlk1 & Hw1).
        apply Hwriter in HU2 as (use2 & Hlk2 & Hw2).
        apply (getSingleWriter_several L U1 U2 use1 use2); auto. }
  split.
  - intros U. split; [|apply Hto].
    intros Hget.
    destruct Hcases as [[U0 Hset]|[_ Hnone]]; [|congruence].
    rewrite (Hto _ Hset) in Hget. injection Hget as ->. assumption.
  - split.
    + intros Hnone Hsize. apply size_1_elem_of in Hsize as [U Hset].
      apply leibniz_equiv in Hset.
      rewrite (Hto _ Hset) in Hnone. discriminate.
    + intros Hsize.
      destruct Hcases as [[U0 Hset]|[_ Hnone]]; [|assumption].
      exfalso. apply Hsize. rewrite Hset. apply size_singleton.
Qed.

Lemma getSingleWriter_getUsers_witness :
  getSingleWriter (mkLocal {[ 3%nat := mkUse 1 0; 7%nat := mkUse 0 2 ]})
  = Some 3%nat.
Proof.
  apply (proj1 (getSingleWriter_getUsers
                  (mkLocal {[ 3%nat := mkUse 1 0; 7%nat := mkUse 0 2 ]}))).
  apply set_eq. intros x. rewrite elem_of_getUsers, elem_of_singleton.
  split.
  - intros (use & Hlk & Hm). simpl in Hlk.
    apply lookup_insert_Some in Hlk as [[<- <-]|[Hne Hlk]]; [reflexivity|].
    apply lookup_singleton_Some in Hlk as [<- <-]. discriminate.
  - intros ->. exists (mkUse 1 0). split; [|reflexivity].
    simpl. apply lookup_insert_eq.
Defined.

End RegistryExtras.

Section SearchExtras.
Import Locals IR Reordering Samples.
Local Open Scope nat_scope.

Implicit Types (b : BasicBlock) (excl : gset Value)
         (instr : IntermediateInstruction).

(** X9. [findPreviousInstruction] returns a position at or before [pos]; unless
    it is the start of the block, that slot holds an instruction with an
    output; and no slot behind it up to [pos] holds one. The first slot of
    the block is never examined. *)
Theorem findPreviousInstruction_nearest b pos :
  findPreviousInstruction b pos <= pos
  /\ (findPreviousInstruction b pos <> 0 ->
      exists instr out,
        get b (findPreviousInstruction b pos) = Some instr
        /\ getOutput instr = Some out)
  /\ (forall i, findPreviousInstruction b pos < i <= pos ->
                get b i ≫= getOutput = None)
  /\ (forall slot slot' rest,
        findPreviousInstruction (slot' :: rest) pos
        = findPreviousInstruction (slot :: rest) pos).
Proof.
  split; [|split; [|split]].
  - induction pos as [|pos IH]; simpl; [lia|].
    destruct (get b (S pos)) as [instr|]; [|lia].
    destruct (bool_decide _); lia.
  - induction pos as [|pos IH]; simpl; [congruence|].
    destruct (get b (S pos)) as [instr|] eqn:Hget; [|assumption].
    destruct (bool_decide (is_Some (getOutput instr))) eqn:Hout; [|assumption].
    intros _. apply bool_decide_eq_true in Hout as [out Hout].
    rewrite Hget. eauto.
  - induction pos as [|pos IH]; simpl; [lia|].
    intros i Hi.
    destruct (get b (S pos)) as [instr|] eqn:Hget.
    + destruct (bool_decide (is_Some (getOutput instr))) eqn:Hout; [lia|].
      destruct (decide (i = S pos)) as [->|Hne]; [|apply IH; lia].
      rewrite Hget. simpl. apply bool_decide_eq_false in Hout.
      destruct (getOutput instr); [|reflexivity].
      exfalso. apply Hout. eauto.
    + destruct (decide (i = S pos)) as [->|Hne]; [|apply IH; lia].
      rewrite Hget. reflexivity.
  - intros slot slot' rest.
    induction pos as [|pos IH]; simpl; [reflexivity|].
    unfold get in *. simpl. rewrite IH. reflexivity.
Qed.

Lemma findPreviousInstruction_nearest_witness :
  exists instr out,
    get block_independent 1 = Some instr /\ getOutput instr = Some out.
Proof.
  apply (proj1 (proj2 (findPreviousInstruction_nearest block_independent 2))).
  vm_compute. discriminate.
Defined.

Lemma excludeOutput_mono instr excl : excl ⊆ excludeOutput instr excl.
Proof.
  unfold excludeOutput. destruct (getOutput instr) as [out|]; [|reflexivity].
  destruct (negb (hasRegister out REG_NOP)); [|reflexivity].
  destruct (_ || _); set_solver.
Qed.

Lemma excludeOutput_output instr excl out :
  getOutput instr = Some out -> out <> REGISTER REG_NOP ->
  out ∈ excludeOutput instr excl.
Proof.
  intros Hout Hnop. unfold excludeOutput. rewrite Hout.
  unfold hasRegister at 1. rewrite bool_decide_eq_false_2 by assumption.
  simpl. destruct (_ || _); set_solver.
Qed.

Lemma excludeOutput_group instr excl out :
  getOutput instr = Some out -> triggers_SFU_TMU_group out = true ->
  SFU_TMU_registers ⊆ excludeOutput instr excl.
Proof.
  intros Hout Htrig. unfold excludeOutput. rewrite Hout.
  unfold triggers_SFU_TMU_group in Htrig. rewrite Htrig.
  destruct (negb (hasRegister out REG_NOP)) eqn:Hnop;
    [apply union_subseteq_r|].
  exfalso. apply negb_false_iff, bool_decide_eq_true in Hnop. subst out.
  vm_compute in Htrig. discriminate.
Qed.

(** What the scan has excluded when it leaves the loop: the values it
    started with, and the outputs of the instructions it has passed. *)
Lemma scan_excluded b n : forall pos excl it l excl',
  scan b n pos excl = LoopLeft it l excl' ->
  excl ⊆ excl'
  /\ (forall i skipped, pos <= i < it -> get b i = Some skipped ->
        excludeOutput skipped ∅ ⊆ excl').
Proof.
  assert (Hunion : forall instr excl,
            excludeOutput instr ∅ ⊆ excludeOutput instr excl).
  { intros instr excl. unfold excludeOutput.
    destruct (getOutput instr) as [out|]; [|apply empty_subseteq].
    destruct (negb (hasRegister out REG_NOP)); [|apply empty_subseteq].
    destruct (_ || _); repeat apply union_mono_r; apply empty_subseteq. }
  induction n as [|n IH]; intros pos excl it l excl' H; simpl in H.
  - inversion H; subst. split; [reflexivity|]. intros; lia.
  - destruct (isEndOfBlock b pos).
    { inversion H; subst. split; [reflexivity|]. intros; lia. }
    destruct (get b pos) as [instr|] eqn:Hget.
    + destruct (validReplacement instr excl && writesMutex instr); [discriminate|].
      destruct (validReplacement instr excl && readsMutex instr); [discriminate|].
      destruct (validReplacement instr excl).
      * inversion H; subst. split; [reflexivity|]. intros; lia.
      * destruct (IH _ _ _ _ _ H) as [Hsub Hpassed]. split.
        -- etrans; [apply (excludeOutput_mono instr)|exact Hsub].
        -- intros i skipped Hi Hskipped.
           destruct (decide (i = pos)) as [->|Hne].
           ++ rewrite Hget in Hskipped. injection Hskipped as <-.
              etrans; [apply Hunion|exact Hsub].
           ++ apply (Hpassed i); [unfold nextInBlock; lia | assumption].
    + destruct (IH _ _ _ _ _ H) as [Hsub Hpassed]. split; [assumption|].
      intros i skipped Hi Hskipped.
      destruct (decide (i = pos)) as [->|Hne]; [congruence|].
      apply (Hpassed i); [unfold nextInBlock; lia | assumption].
Qed.

Lemma validReplacement_accesses instr excl v :
  validReplacement instr excl = true -> v ∈ excl -> ~ accesses instr v.
Proof.
  intros Hvalid Hin [Hout|Harg];
    apply validReplacement_true in Hvalid as (_ & _ & Houts & Hargs).
  - exact (Houts _ Hout Hin).
  - exact (Hargs _ Harg Hin).
Qed.

(** The candidate with the values excluded when it was found. *)
Lemma findInstructionNotAccessing_excluded N b pos excl j :
  findInstructionNotAccessing N b pos excl = j -> j < length b ->
  exists candidate excl',
    get b j = Some candidate
    /\ validReplacement candidate excl' = true
    /\ excl ⊆ excl'
    /\ (forall i skipped, pos <= i < j -> get b i = Some skipped ->
          excludeOutput skipped ∅ ⊆ excl').
Proof.
  unfold findInstructionNotAccessing, block_end. intros H Hlt.
  destruct (scan b N pos excl) as [|it l excl'] eqn:Hscan; [lia|].
  destruct (bool_decide (l = 0)) eqn:Hl; [lia|].
  apply bool_decide_eq_false in Hl. subst it.
  destruct (scan_found _ _ _ _ _ _ _ Hscan Hl) as [Hend|(instr & ? & ? & ? & ?)].
  { apply bool_decide_eq_true in Hend. lia. }
  destruct (scan_excluded _ _ _ _ _ _ _ Hscan) as [Hsub Hpassed].
  exists instr, excl'. auto.
Qed.

Lemma candidate_avoids_excluded N b pos excl j :
  findInstructionNotAccessing N b pos excl = j -> j < length b ->
  exists candidate,
    get b j = Some candidate
    /\ (forall v, v ∈ excl -> ~ accesses candidate v).
Proof.
  intros Hfind Hlt.
  destruct (findInstructionNotAccessing_excluded N b pos excl j Hfind Hlt)
    as (candidate & excl' & Hget & Hvalid & Hsub & _).
  exists candidate. split; [assumption|].
  intros v Hv. apply (validReplacement_accesses _ _ _ Hvalid). set_solver.
Qed.

(** X10. The instruction [findInstructionNotAccessing] returns depends on
    nothing in between: it neither writes nor reads one of the values to
    exclude it was given, nor the output (other than the discard register)
    of any instruction between [pos] and itself; and when one of these
    writes an SFU register or the TMU address, it accesses none of the SFU
    and TMU registers. *)
Theorem candidate_independent_of_skipped N b pos excl j :
  findInstructionNotAccessing N b pos excl = j -> j < length b ->
  exists candidate,
    get b j = Some candidate
    /\ (forall v, v ∈ excl -> ~ accesses candidate v)
    /\ (forall i skipped out,
          pos <= i < j -> get b i = Some skipped ->
          getOutput skipped = Some out -> out <> REGISTER REG_NOP ->
          ~ accesses candidate out)
    /\ (forall i skipped out,
          pos <= i < j -> get b i = Some skipped ->
          getOutput skipped = Some out -> triggers_SFU_TMU_group out = true ->
          forall v, v ∈ SFU_TMU_registers -> ~ accesses candidate v).
Proof.
  intros Hfind Hlt.
  destruct (findInstructionNotAccessing_excluded N b pos excl j Hfind Hlt)
    as (candidate & excl' & Hget & Hvalid & Hsub & Hpassed).
  exists candidate. split; [assumption|]. split; [|split].
  - intros v Hv. apply (validReplacement_accesses _ _ _ Hvalid). set_solver.
  - intros i skipped out Hi Hskipped Hout Hnop.
    apply (validReplacement_accesses _ _ _ Hvalid).
    apply (Hpassed i skipped Hi Hskipped).
    apply excludeOutput_output; assumption.
  - intros i skipped out Hi Hskipped Hout Htrig v Hv.
    apply (validReplacement_accesses _ _ _ Hvalid).
    apply (Hpassed i skipped Hi Hskipped).
    eapply excludeOutput_group; eassumption.
Qed.

Lemma candidate_independent_of_skipped_witness :
  exists candidate,
    get block_independent 4 = Some candidate
    /\ (forall v, v ∈ ({[ LOCAL 0 ]} : gset Value) -> ~ accesses candidate v).
Proof.
  assert (Hlt : 4 < length block_independent) by (vm_compute; lia).
  assert (Hfind : findInstructionNotAccessing 8 block_independent 2
                    {[ LOCAL 0 ]} = 4) by (vm_compute; reflexivity).
  destruct (candidate_independent_of_skipped 8 block_independent 2
              {[ LOCAL 0 ]} 4 Hfind Hlt) as (candidate & Hget & Hexcl & _).
  exists candidate. split; assumption.
Defined.

Lemma findPreviousInstruction_start b pos :
  (forall i, 0 < i <= pos -> get b i ≫= getOutput = None) ->
  findPreviousInstruction b pos = 0.
Proof.
  induction pos as [|pos IH]; intros Hnone; simpl; [reflexivity|].
  pose proof (Hnone (S pos) ltac:(lia)) as Hpos.
  destruct (get b (S pos)) as [instr|]; simpl in Hpos.
  - rewrite Hpos. rewrite bool_decide_eq_false_2 by (intros [? H]; discriminate).
    apply IH. intros i Hi. apply Hnone. lia.
  - apply IH. intros i Hi. apply Hnone. lia.
Qed.

(** X11. The instruction [findReplacementCandidate] returns respects the reason
    of the NOP: for WAIT_REGISTER it neither writes nor reads the output of
    the instruction [findPreviousInstruction] has found (nor, when that is a
    VPM address register, the matching busy register and the VPM I/O
    register); for WAIT_SFU and WAIT_TMU it accesses none of the SFU and TMU
    registers; for BRANCH_DELAY and THREAD_END nothing is returned. *)
Theorem candidate_respects_delay N b pos reason j :
  findReplacementCandidate N b pos reason = j -> j < length b ->
  exists candidate,
    get b j = Some candidate
    /\ match reason with
       | WAIT_REGISTER =>
           exists last out,
             get b (findPreviousInstruction b pos) = Some last
             /\ getOutput last = Some out
             /\ ~ accesses candidate out
             /\ (out = REGISTER REG_VPM_IN_ADDR ->
                 ~ accesses candidate (REGISTER REG_VPM_IN_BUSY)
                 /\ ~ accesses candidate (REGISTER REG_VPM_IO))
             /\ (out = REGISTER REG_VPM_OUT_ADDR ->
                 ~ accesses candidate (REGISTER REG_VPM_OUT_BUSY)
                 /\ ~ accesses candidate (REGISTER REG_VPM_IO))
       | WAIT_SFU | WAIT_TMU =>
           forall v, v ∈ SFU_TMU_registers -> ~ accesses candidate v
       | BRANCH_DELAY | THREAD_END => False
       end.
Proof.
  unfold findReplacementCandidate, block_end. intros Hfind Hlt.
  destruct reason; try lia.
  - destruct (isStartOfBlock _); [lia|].
    destruct (get b (findPreviousInstruction b pos)) as [last|] eqn:Hlast;
      simpl in Hfind; [|lia].
    destruct (getOutput last) as [out|] eqn:Hout; [|lia].
    destruct (candidate_avoids_excluded N b pos _ j Hfind Hlt)
      as (candidate & Hget & Hexcl).
    exists candidate. split; [assumption|].
    exists last, out. split; [reflexivity|]. split; [assumption|].
    split; [|split].
    + apply Hexcl.
      destruct (hasRegister out REG_VPM_IN_ADDR),
        (hasRegister out REG_VPM_OUT_ADDR); set_solver.
    + intros ->. unfold hasRegister in Hexcl.
      rewrite (bool_decide_eq_true_2 (REGISTER REG_VPM_IN_ADDR
                                      = REGISTER REG_VPM_IN_ADDR)) in Hexcl
        by reflexivity.
      split; apply Hexcl; destruct (bool_decide _); set_solver.
    + intros ->. unfold hasRegister in Hexcl.
      rewrite (bool_decide_eq_true_2 (REGISTER REG_VPM_OUT_ADDR
                                      = REGISTER REG_VPM_OUT_ADDR)) in Hexcl
        by reflexivity.
      split; apply Hexcl; set_solver.
  - destruct (candidate_avoids_excluded N b pos _ j Hfind Hlt)
      as (candidate & Hget & Hexcl).
    exists candidate. auto.
  - destruct (candidate_avoids_excluded N b pos _ j Hfind Hlt)
      as (candidate & Hget & Hexcl).
    exists candidate. auto.
Qed.

Lemma candidate_respects_delay_witness :
  exists candidate,
    get block_sfu 3 = Some candidate
    /\ forall v, v ∈ SFU_TMU_registers -> ~ accesses candidate v.
Proof.
  assert (Hlt : 3 < length block_sfu) by (vm_compute; lia).
  assert (Hfind : findReplacementCandidate 8 block_sfu 2 WAIT_SFU = 3)
    by (vm_compute; reflexivity).
  exact (candidate_respects_delay 8 block_sfu 2 WAIT_SFU 3 Hfind Hlt).
Defined.

(** X12. When [findReplacementCandidate] finds nothing, whatever the block holds
    behind the NOP: for the reasons BRANCH_DELAY and THREAD_END; for
    WAIT_REGISTER when no slot from the second of the block up to the NOP
    holds an instruction with an output (the first slot is not looked at);
    and for every reason when the number of instructions to check is 0. *)
Theorem no_candidate_without_reason N b pos :
  findReplacementCandidate N b pos BRANCH_DELAY = block_end b
  /\ findReplacementCandidate N b pos THREAD_END = block_end b
  /\ ((forall i, 0 < i <= pos -> get b i ≫= getOutput = None) ->
      findReplacementCandidate N b pos WAIT_REGISTER = block_end b)
  /\ (forall reason, findReplacementCandidate 0 b pos reason = block_end b).
Proof.
  split; [reflexivity|]. split; [reflexivity|]. split.
  - intros Hnone. unfold findReplacementCandidate.
    rewrite (findPreviousInstruction_start b pos Hnone). reflexivity.
  - intros reason. unfold findReplacementCandidate, findInstructionNotAccessing.
    destruct reason; try reflexivity.
    destruct (isStartOfBlock _); [reflexivity|].
    destruct (get b _ ≫= getOutput); reflexivity.
Qed.

Lemma no_candidate_without_reason_witness :
  findReplacementCandidate 8 block_write_first 1 WAIT_REGISTER
  = block_end block_write_first.
Proof.
  apply (proj1 (proj2 (proj2 (no_candidate_without_reason 8 block_write_first 1)))).
  intros i Hi. assert (i = 1) as -> by lia. reflexivity.
Defined.

(** X13. The NOP that [splitReadAfterWrites] puts behind a write guards it in
    [replaceNOPs]: for a WAIT_REGISTER NOP right behind an instruction [w]
    with an output (not in the first slot of the block), the search takes
    [w] as the reason of the NOP, and whatever it returns stands behind the
    NOP and neither writes nor reads the output of [w]. *)
Theorem WAIT_REGISTER_NOP_guards_write N pre w addr rest out j :
  pre <> [] -> getOutput w = Some out ->
  findReplacementCandidate N
    (pre ++ Some w :: Some (new_Nop addr WAIT_REGISTER) :: rest)
    (S (length pre)) WAIT_REGISTER = j ->
  j < length (pre ++ Some w :: Some (new_Nop addr WAIT_REGISTER) :: rest) ->
  findPreviousInstruction
    (pre ++ Some w :: Some (new_Nop addr WAIT_REGISTER) :: rest)
    (S (length pre)) = length pre
  /\ exists candidate,
       get (pre ++ Some w :: Some (new_Nop addr WAIT_REGISTER) :: rest) j
       = Some candidate
       /\ S (length pre) <= j
       /\ ~ accesses candidate out.
Proof.
  intros Hpre Hout Hfind Hlt.
  set (b := pre ++ Some w :: Some (new_Nop addr WAIT_REGISTER) :: rest) in *.
  assert (Hw : get b (length pre) = Some w).
  { unfold get, b. rewrite lookup_app_r by lia.
    rewrite Nat.sub_diag. reflexivity. }
  assert (Hnop : get b (S (length pre)) = Some (new_Nop addr WAIT_REGISTER)).
  { unfold get, b. rewrite lookup_app_r by lia.
    replace (S (length pre) - length pre) with 1 by lia. reflexivity. }
  assert (Hprev : findPreviousInstruction b (S (length pre)) = length pre).
  { simpl. rewrite Hnop. simpl.
    destruct (length pre) as [|p] eqn:Hlen.
    - destruct pre; [contradiction | discriminate].
    - simpl. rewrite Hw, Hout.
      rewrite bool_decide_eq_true_2 by eauto. reflexivity. }
  split; [assumption|].
  destruct (findReplacementCandidate_found N b _ _ j Hfind Hlt)
    as ([Hle _] & _).
  unfold findReplacementCandidate in Hfind. rewrite Hprev in Hfind.
  unfold isStartOfBlock in Hfind.
  rewrite bool_decide_eq_false_2 in Hfind
    by (destruct pre; [contradiction | discriminate]).
  rewrite Hw in Hfind. simpl in Hfind. rewrite Hout in Hfind.
  destruct (candidate_avoids_excluded N b _ _ j Hfind Hlt)
    as (candidate & Hget & Hexcl).
  exists candidate. split; [assumption|]. split; [assumption|].
  apply Hexcl.
  destruct (hasRegister out REG_VPM_IN_ADDR),
    (hasRegister out REG_VPM_OUT_ADDR); set_solver.
Qed.

Lemma WAIT_REGISTER_NOP_guards_write_witness :
  exists candidate,
    get ([Some (label 0)] ++ Some (alu 1 (LOCAL 0) [LITERAL 3])
           :: Some (new_Nop 2 WAIT_REGISTER)
           :: [Some (alu 3 (LOCAL 1) [LOCAL 0; LITERAL 1]);
               Some (alu 4 (LOCAL 2) [LITERAL 5])]) 4
    = Some candidate
    /\ 2 <= 4 /\ ~ accesses candidate (LOCAL 0).
Proof.
  assert (Hpre : [Some (label 0)] <> []) by discriminate.
  assert (Hfind : findReplacementCandidate 8
                    ([Some (label 0)] ++ Some (alu 1 (LOCAL 0) [LITERAL 3])
                       :: Some (new_Nop 2 WAIT_REGISTER)
                       :: [Some (alu 3 (LOCAL 1) [LOCAL 0; LITERAL 1]);
                           Some (alu 4 (LOCAL 2) [LITERAL 5])])
                    2 WAIT_REGISTER = 4) by (vm_compute; reflexivity).
  assert (Hlt : 4 < 5) by lia.
  exact (proj2 (WAIT_REGISTER_NOP_guards_write 8 [Some (label 0)]
                  (alu 1 (LOCAL 0) [LITERAL 3]) 2
                  [Some (alu 3 (LOCAL 1) [LOCAL 0; LITERAL 1]);
                   Some (alu 4 (LOCAL 2) [LITERAL 5])]
                  (LOCAL 0) 4 Hpre eq_refl Hfind Hlt)).
Defined.

Lemma validReplacement_false instr excl :
  validReplacement instr excl = false ->
  never_candidate instr = true
  \/ exists v, v ∈ excl /\ accesses instr v.
Proof.
  unfold validReplacement, never_candidate, accesses. cbv zeta. intros H.
  destruct (from_option _ false (getOutput instr)) eqn:Hout.
  { right. destruct (getOutput instr) as [out|]; [|discriminate].
    simpl in Hout. apply bool_decide_eq_true in Hout. eauto. }
  destruct (existsb _ (getArguments instr)) eqn:Hargs.
  { right. apply existsb_exists in Hargs as (arg & Hin & Harg).
    apply bool_decide_eq_true in Harg. apply list_elem_of_In in Hin. eauto. }
  left.
  destruct (hasConditionalExecution instr), (hasSideEffects instr),
    (isBranch instr), (isBranchLabel instr), (isMemoryBarrier instr),
    (isNop instr), (mapsToASMInstruction instr);
    cbn [andb orb negb] in H |- *; congruence.
Qed.

Lemma excludeOutput_split instr excl v :
  v ∈ excludeOutput instr excl -> v ∈ excl \/ v ∈ excludeOutput instr ∅.
Proof.
  unfold excludeOutput. destruct (getOutput instr) as [out|]; [|auto].
  destruct (negb (hasRegister out REG_NOP)); [|auto].
  destruct (_ || _); rewrite !elem_of_union; tauto.
Qed.

(** Every instruction the scan has passed was rejected by the checks of
    lines 49-84, with the values excluded at that moment: those the scan
    started with and the outputs of the instructions passed before. *)
Lemma scan_passed_rejected b n : forall pos excl it l excl',
  scan b n pos excl = LoopLeft it l excl' ->
  forall i instr, pos <= i < it -> get b i = Some instr ->
  exists e,
    validReplacement instr e = false
    /\ forall v, v ∈ e ->
         v ∈ excl
         \/ exists i' skipped,
              pos <= i' < i /\ get b i' = Some skipped
              /\ v ∈ excludeOutput skipped ∅.
Proof.
  induction n as [|n IH]; intros pos excl it l excl' H; simpl in H.
  - inversion H; subst. intros; lia.
  - destruct (isEndOfBlock b pos).
    { inversion H; subst. intros; lia. }
    destruct (get b pos) as [instr0|] eqn:Hget.
    + destruct (validReplacement instr0 excl) eqn:Hvalid; simpl in H.
      { destruct (writesMutex instr0); [discriminate|].
        destruct (readsMutex instr0); [discriminate|].
        inversion H; subst. intros; lia. }
      intros i instr Hi Hinstr.
      destruct (decide (i = pos)) as [->|Hne].
      * assert (instr = instr0) by congruence. subst instr0.
        exists excl. split; [assumption|]. auto.
      * destruct (IH _ _ _ _ _ H i instr) as (e & He & Hfrom);
          [unfold nextInBlock; lia | assumption|].
        exists e. split; [assumption|].
        intros v Hv. destruct (Hfrom v Hv) as [Hin|(i' & skipped & Hi' & Hs & Hin)].
        -- apply excludeOutput_split in Hin as [Hin|Hin]; [auto|].
           right. exists pos, instr0. split; [lia|]. auto.
        -- right. exists i', skipped. unfold nextInBlock in Hi'.
           split; [lia|]. auto.
    + intros i instr Hi Hinstr.
      destruct (decide (i = pos)) as [->|Hne]; [congruence|].
      destruct (IH _ _ _ _ _ H i instr) as (e & He & Hfrom);
        [unfold nextInBlock; lia | assumption|].
      exists e. split; [assumption|].
      intros v Hv. destruct (Hfrom v Hv) as [Hin|(i' & skipped & Hi' & Hs & Hin)].
      * auto.
      * right. exists i', skipped. unfold nextInBlock in Hi'.
        split; [lia|]. auto.
Qed.

(** X23. [findInstructionNotAccessing] returns the first instruction that
    fits: every instruction between the start position and the returned one
    was rejected by the checks of lines 49-84, that is, it has conditional
    execution or side effects, is a branch, label, memory barrier or NOP, is
    not mapped to a machine instruction, or it writes or reads one of the
    values to exclude or the output of an instruction passed before it. In
    particular a mutex access is passed only for such a reason. *)
Theorem candidate_is_first_fit N b pos excl j :
  findInstructionNotAccessing N b pos excl = j -> j < length b ->
  forall i instr,
    pos <= i < j -> get b i = Some instr ->
    never_candidate instr = true
    \/ exists v,
         accesses instr v
         /\ (v ∈ excl
             \/ exists i' skipped,
                  pos <= i' < i /\ get b i' = Some skipped
                  /\ v ∈ excludeOutput skipped ∅).
Proof.
  unfold findInstructionNotAccessing, block_end. intros H Hlt i instr Hi Hinstr.
  destruct (scan b N pos excl) as [|it l excl'] eqn:Hscan; [lia|].
  destruct (bool_decide (l = 0)) eqn:Hl; [lia|]. subst it.
  destruct (scan_passed_rejected _ _ _ _ _ _ _ Hscan i instr Hi Hinstr)
    as (e & He & Hfrom).
  apply validReplacement_false in He as [Hnever|(v & Hv & Hacc)]; [auto|].
  right. exists v. split; [assumption|]. apply Hfrom. assumption.
Qed.

Lemma candidate_is_first_fit_witness :
  never_candidate (alu 3 (LOCAL 1) [LOCAL 0; LITERAL 1]) = true
  \/ exists v,
       accesses (alu 3 (LOCAL 1) [LOCAL 0; LITERAL 1]) v
       /\ (v ∈ ({[ LOCAL 0 ]} : gset Value)
           \/ exists i' skipped,
                2 <= i' < 3 /\ get block_independent i' = Some skipped
                /\ v ∈ excludeOutput skipped ∅).
Proof.
  assert (Hlt : 4 < length block_independent) by (vm_compute; lia).
  assert (Hfind : findInstructionNotAccessing 8 block_independent 2
                    {[ LOCAL 0 ]} = 4) by (vm_compute; reflexivity).
  assert (Hi : 2 <= 3 < 4) by lia.
  exact (candidate_is_first_fit 8 block_independent 2 {[ LOCAL 0 ]} 4
           Hfind Hlt 3 (alu 3 (LOCAL 1) [LOCAL 0; LITERAL 1]) Hi eq_refl).
Defined.

End SearchExtras.

Section ReplaceExtras.
Import Locals IR Reordering Samples.
Local Open Scope nat_scope.

Variable N : nat.

Implicit Types (b : BasicBlock) (instr : IntermediateInstruction).

Lemma same_instruction_replaceable i1 i2 :
  same_instruction i1 i2 -> replaceable_NOP i1 = replaceable_NOP i2.
Proof.
  unfold same_instruction, replaceable_NOP, isNop. intros H.
  pose proof (f_equal class H) as Hc.
  pose proof (f_equal hasSideEffects H) as Hs.
  simpl in Hc, Hs. rewrite Hc, Hs. reflexivity.
Qed.

Lemma validReplacement_never_candidate instr excl :
  validReplacement instr excl = true -> never_candidate instr = false.
Proof.
  intros Hvalid.
  apply validReplacement_true in Hvalid
    as ((Hb & Hl & Hm & Hn & Hc & Hs) & Hasm & _).
  unfold never_candidate. rewrite Hb, Hl, Hm, Hn, Hc, Hs, Hasm. reflexivity.
Qed.

(** The iteration of [replaceNOPs] that replaces a NOP, with what is known
    of the NOP and of the candidate. *)
Lemma replaceNOPs_body_step b it :
  replaceNOPs_body N b it = (b, None)
  \/ exists nop candidate j,
       get b it = Some nop /\ replaceable_NOP nop = true
       /\ get b j = Some candidate /\ it < j
       /\ never_candidate candidate = false
       /\ replaceNOPs_body N b it =
            (<[it := Some (if canBeCombined nop then candidate
                           else set_canBeCombined false candidate)]>
               (<[j := None]> b),
             Some candidate).
Proof.
  destruct (replaceNOPs_body_cases N b it)
    as [Hsame|(nop & type & j & Hnop & Hclass & Hside & Hfind & Hlt)];
    [left; assumption|].
  right.
  destruct (replaceNOPs_body_replaced N b it nop type j Hnop Hclass Hside Hfind Hlt)
    as (candidate & Hget & Hltj & _ & Hbody).
  destruct (findReplacementCandidate_found N b it type j Hfind Hlt)
    as (_ & candidate' & excl' & Hget' & Hvalid & _).
  assert (candidate' = candidate) by congruence. subst candidate'.
  exists nop, candidate, j. split; [assumption|]. split.
  { unfold replaceable_NOP, isNop. rewrite Hclass, Hside. reflexivity. }
  split; [assumption|]. split; [assumption|]. split; [|assumption].
  eapply validReplacement_never_candidate. eassumption.
Qed.

Lemma replaceNOPs_body_nothing_lost b0 b it :
  nothing_lost b0 b -> nothing_lost b0 (replaceNOPs_body N b it).1.
Proof.
  intros Hinv.
  destruct (replaceNOPs_body_step b it)
    as [->|(nop & candidate & j & Hnop & Hrepl & Hget & Hlt & _ & ->)];
    [assumption|].
  pose proof (get_Some_lt _ _ _ Hnop) as Hit.
  pose proof (get_Some_lt _ _ _ Hget) as Hj.
  simpl. intros j0 instr Hj0 Hkeep.
  destruct (Hinv j0 instr Hj0 Hkeep) as (i & instr' & Hle & Hi & Hsame).
  destruct (decide (i = it)) as [->|Hne].
  { exfalso. assert (instr' = nop) by congruence. subst instr'.
    rewrite (same_instruction_replaceable _ _ Hsame) in Hkeep. congruence. }
  destruct (decide (i = j)) as [->|Hnej].
  - assert (instr' = candidate) by congruence. subst instr'.
    exists it. eexists. split; [lia|]. split.
    + apply get_insert_eq. rewrite length_insert. assumption.
    + destruct (canBeCombined nop); [assumption|].
      eapply same_instruction_trans; [exact Hsame|].
      apply same_instruction_set.
  - exists i, instr'. split; [assumption|]. split; [|assumption].
    rewrite !get_insert_ne by congruence. assumption.
Qed.

Lemma replaceNOPs_body_distinct b it :
  distinct_addresses b -> distinct_addresses (replaceNOPs_body N b it).1.
Proof.
  intros Hdist.
  destruct (replaceNOPs_body_step b it)
    as [->|(nop & candidate & j & Hnop & Hrepl & Hget & Hlt & _ & ->)];
    [assumption|].
  pose proof (get_Some_lt _ _ _ Hnop) as Hit.
  pose proof (get_Some_lt _ _ _ Hget) as Hj.
  simpl.
  assert (Hslot : forall i x,
            get (<[it := Some (if canBeCombined nop then candidate
                               else set_canBeCombined false candidate)]>
                   (<[j := None]> b)) i = Some x ->
            exists i0 x0, get b i0 = Some x0 /\ self x0 = self x
                          /\ (i = it /\ i0 = j \/ i <> it /\ i <> j /\ i0 = i)).
  { intros i x Hx.
    destruct (decide (i = it)) as [->|Hne].
    - rewrite get_insert_eq in Hx by (rewrite length_insert; assumption).
      injection Hx as <-. exists j, candidate. split; [assumption|].
      split; [destruct (canBeCombined nop); reflexivity | left; auto].
    - rewrite get_insert_ne in Hx by congruence.
      destruct (decide (i = j)) as [->|Hnej].
      + rewrite get_insert_eq in Hx by assumption. discriminate.
      + rewrite get_insert_ne in Hx by congruence.
        exists i, x. split; [assumption|]. split; [reflexivity|]. right. auto. }
  intros j1 j2 i1 i2 H1 H2 Hself.
  destruct (Hslot _ _ H1) as (k1 & x1 & Hk1 & Hs1 & Hc1).
  destruct (Hslot _ _ H2) as (k2 & x2 & Hk2 & Hs2 & Hc2).
  assert (k1 = k2) by (eapply Hdist; eauto; congruence).
  destruct Hc1 as [[-> ->]|(? & ? & ->)], Hc2 as [[-> ->]|(? & ? & ->)];
    congruence.
Qed.

Lemma replaceNOPs_loop_nothing_lost fuel : forall b0 b it,
  nothing_lost b0 b -> nothing_lost b0 (replaceNOPs_loop N fuel b it).1.
Proof.
  induction fuel as [|fuel IH]; intros b0 b it Hinv; simpl; [assumption|].
  destruct (isEndOfBlock b it); [assumption|].
  pose proof (replaceNOPs_body_nothing_lost b0 b it Hinv) as Hbody.
  destruct (replaceNOPs_body N b it) as [block1 moved]. simpl in Hbody.
  specialize (IH b0 block1 (nextInBlock it) Hbody).
  destruct (replaceNOPs_loop N fuel block1 (nextInBlock it)) as [block2 log].
  assumption.
Qed.

Lemma replaceNOPs_loop_distinct fuel : forall b it,
  distinct_addresses b -> distinct_addresses (replaceNOPs_loop N fuel b it).1.
Proof.
  induction fuel as [|fuel IH]; intros b it Hinv; simpl; [assumption|].
  destruct (isEndOfBlock b it); [assumption|].
  pose proof (replaceNOPs_body_distinct b it Hinv) as Hbody.
  destruct (replaceNOPs_body N b it) as [block1 moved]. simpl in Hbody.
  specialize (IH block1 (nextInBlock it) Hbody).
  destruct (replaceNOPs_loop N fuel block1 (nextInBlock it)) as [block2 log].
  assumption.
Qed.

(** X14. [replaceNOPs] loses and duplicates nothing: every instruction of the
    block other than a NOP without side effects is in the block afterwards
    (up to its "may be fused" flag), in its slot or in one nearer to the
    begin of the block; and when no two slots held the same object before,
    no two do afterwards. *)
Theorem replaceNOPs_conserves b :
  (forall j instr,
      get b j = Some instr -> replaceable_NOP instr = false ->
      exists i instr',
        i <= j /\ get (replaceNOPs N b) i = Some instr'
        /\ same_instruction instr instr')
  /\ (distinct_addresses b -> distinct_addresses (replaceNOPs N b)).
Proof.
  split.
  - apply replaceNOPs_loop_nothing_lost.
    intros j instr Hj _. exists j, instr. split; [lia|].
    split; [assumption | reflexivity].
  - apply replaceNOPs_loop_distinct.
Qed.

Lemma replaceNOPs_body_pinned b it i instr :
  get b i = Some instr -> never_candidate instr = true ->
  replaceable_NOP instr = false ->
  get (replaceNOPs_body N b it).1 i = Some instr.
Proof.
  intros Hi Hnever Hkeep.
  destruct (replaceNOPs_body_step b it)
    as [->|(nop & candidate & j & Hnop & Hrepl & Hget & Hlt & Hcand & ->)];
    [assumption|].
  simpl.
  assert (i <> it) by (intros ->; congruence).
  assert (i <> j) by (intros ->; congruence).
  rewrite !get_insert_ne by congruence. assumption.
Qed.

(** X15. [replaceNOPs] leaves in their slot, as they are: branches, labels,
    memory barriers, instructions with conditional execution or with side
    effects (NOPs with side effects among them) and instructions that are
    not encoded as machine instructions. *)
Theorem replaceNOPs_keeps_pinned b i instr :
  get b i = Some instr -> never_candidate instr = true ->
  replaceable_NOP instr = false ->
  get (replaceNOPs N b) i = Some instr.
Proof.
  intros Hi Hnever Hkeep. unfold replaceNOPs, replaceNOPs_traced.
  generalize (length b) at 1. intros fuel. generalize 0 as it.
  revert b Hi. induction fuel as [|fuel IH]; intros b Hi it; simpl;
    [assumption|].
  destruct (isEndOfBlock b it); [assumption|].
  pose proof (replaceNOPs_body_pinned b it i instr Hi Hnever Hkeep) as Hbody.
  destruct (replaceNOPs_body N b it) as [block1 moved]. simpl in Hbody.
  specialize (IH block1 Hbody (nextInBlock it)).
  destruct (replaceNOPs_loop N fuel block1 (nextInBlock it)) as [block2 log].
  assumption.
Qed.

(** X16. [replaceNOPs] changes a block only through a NOP without side effects:
    a block that holds none is returned as it is, and nothing is reported as
    moved. *)
Theorem replaceNOPs_without_NOP b :
  (forall i instr, get b i = Some instr -> replaceable_NOP instr = false) ->
  replaceNOPs_traced N b = (b, []).
Proof.
  intros Hnone. unfold replaceNOPs_traced.
  generalize (length b) at 1. intros fuel. generalize 0 as it.
  induction fuel as [|fuel IH]; intros it; simpl; [reflexivity|].
  destruct (isEndOfBlock b it); [reflexivity|].
  destruct (replaceNOPs_body_step b it)
    as [->|(nop & candidate & j & Hnop & Hrepl & _)].
  - rewrite IH. reflexivity.
  - rewrite (Hnone _ _ Hnop) in Hrepl. discriminate.
Qed.

(** X17. [reorderWithinBasicBlocks] keeps the blocks of the method and, in every
    block, every instruction other than a NOP without side effects (up to
    its "may be fused" flag). *)
Theorem reorderWithinBasicBlocks_keeps_instructions
        (blocks : list BasicBlock) bi b j instr :
  blocks !! bi = Some b -> get b j = Some instr ->
  replaceable_NOP instr = false ->
  length (reorderWithinBasicBlocks N blocks) = length blocks
  /\ exists b' instr',
       reorderWithinBasicBlocks N blocks !! bi = Some b'
       /\ Some instr' ∈ b' /\ same_instruction instr instr'.
Proof.
  intros Hb Hj Hkeep. unfold reorderWithinBasicBlocks, cleanEmptyInstructions.
  split; [rewrite !length_fmap; reflexivity|].
  assert (Hlost : nothing_lost b (replaceNOPs N b)).
  { apply replaceNOPs_loop_nothing_lost.
    intros j0 instr0 Hj0 _. exists j0, instr0. split; [lia|].
    split; [assumption | reflexivity]. }
  destruct (Hlost j instr Hj Hkeep) as (i & instr' & _ & Hi & Hsame).
  eexists. exists instr'. split; [|split; [|exact Hsame]].
  - rewrite !list_lookup_fmap, Hb. reflexivity.
  - apply list_elem_of_filter. split; [eexists; reflexivity|].
    unfold get in Hi.
    destruct (replaceNOPs N b !! i) as [slot|] eqn:Hslot; [|discriminate].
    simpl in Hi. subst slot. eapply list_elem_of_lookup_2. eassumption.
Qed.

End ReplaceExtras.

Section ReplaceWitnesses.
Import Locals IR Reordering Samples.
Local Open Scope nat_scope.

Lemma replaceNOPs_conserves_witness :
  exists i instr',
    i <= 4 /\ get (replaceNOPs 8 block_independent) i = Some instr'
    /\ same_instruction (alu 4 (LOCAL 2) [LITERAL 5]) instr'.
Proof.
  apply (proj1 (replaceNOPs_conserves 8 block_independent) 4
               (alu 4 (LOCAL 2) [LITERAL 5])); reflexivity.
Defined.

Lemma replaceNOPs_keeps_pinned_witness :
  get (replaceNOPs 8 block_pinned) 1
  = Some (mkInstr 1 Branch None [] false false true false true).
Proof.
  apply (replaceNOPs_keeps_pinned 8 block_pinned 1); reflexivity.
Defined.

Lemma replaceNOPs_without_NOP_witness :
  replaceNOPs_traced 8 block_pinned = (block_pinned, []).
Proof.
  apply (replaceNOPs_without_NOP 8 block_pinned).
  intros [|[|[|[|i]]]] instr Hget; vm_compute in Hget;
    try discriminate Hget; injection Hget as <-; reflexivity.
Defined.

Lemma reorderWithinBasicBlocks_keeps_instructions_witness :
  length (reorderWithinBasicBlocks 8 [block_independent]) = 1
  /\ exists b' instr',
       reorderWithinBasicBlocks 8 [block_independent] !! 0 = Some b'
       /\ Some instr' ∈ b'
       /\ same_instruction (alu 4 (LOCAL 2) [LITERAL 5]) instr'.
Proof.
  apply (reorderWithinBasicBlocks_keeps_instructions 8 [block_independent] 0
           block_independent 4 (alu 4 (LOCAL 2) [LITERAL 5]));
    reflexivity.
Defined.

End ReplaceWitnesses.

Section ReplaceCount.
Import Locals IR Reordering Samples.
Local Open Scope nat_scope.

Variable N : nat.

Implicit Types (b : BasicBlock) (instr : IntermediateInstruction).

Lemma count_slots_insert P b i (x y : option IntermediateInstruction) :
  b !! i = Some x ->
  count_slots P (<[i := y]> b) + (if P x then 1 else 0)
  = count_slots P b + (if P y then 1 else 0).
Proof.
  intros Hx. pose proof (lookup_lt_Some _ _ _ Hx) as Hlt.
  unfold count_slots.
  rewrite (insert_take_drop b i y Hlt).
  rewrite <- (take_drop_middle b i x Hx) at 3.
  rewrite !filter_app, !filter_cons, !length_app.
  destruct (P x), (P y); simpl;
    repeat (match goal with
            | |- context [decide (?a = ?c)] => destruct (decide (a = c))
            end; try discriminate; try congruence); simpl; lia.
Qed.

Lemma replaceNOPs_body_count b it :
  count_slots holds_other (replaceNOPs_body N b it).1
  = count_slots holds_other b
  /\ count_slots holds_replaceable_NOP (replaceNOPs_body N b it).1
     <= count_slots holds_replaceable_NOP b
  /\ count_slots holds_replaceable_NOP (replaceNOPs_body N b it).1
     + length (from_option (fun i => [i]) [] (replaceNOPs_body N b it).2)
     = count_slots holds_replaceable_NOP b.
Proof.
  destruct (replaceNOPs_body_step N b it)
    as [->|(nop & candidate & j & Hnop & Hrepl & Hget & Hlt & Hcand & ->)];
    [simpl; lia|].
  cbn [fst snd from_option length].
  set (installed := if canBeCombined nop then candidate
                    else set_canBeCombined false candidate).
  assert (Hj : b !! j = Some (Some candidate)).
  { unfold get in Hget. destruct (b !! j) as [[c|]|]; try discriminate.
    simpl in Hget. congruence. }
  assert (Hit : <[j := None]> b !! it = Some (Some nop)).
  { rewrite list_lookup_insert_ne by lia.
    unfold get in Hnop. destruct (b !! it) as [[c|]|]; try discriminate.
    simpl in Hnop. congruence. }
  assert (Hcand_nop : replaceable_NOP candidate = false).
  { unfold never_candidate in Hcand. unfold replaceable_NOP.
    destruct (isNop candidate); [|reflexivity].
    rewrite !orb_true_r in Hcand. discriminate. }
  assert (Hinst_nop : replaceable_NOP installed = false).
  { rewrite <- Hcand_nop. symmetry. apply same_instruction_replaceable.
    unfold installed. destruct (canBeCombined nop);
      [reflexivity | apply same_instruction_set]. }
  pose proof (count_slots_insert holds_other _ _ _ (Some installed) Hit) as H1.
  pose proof (count_slots_insert holds_other _ _ _ None Hj) as H2.
  pose proof (count_slots_insert holds_replaceable_NOP _ _ _ (Some installed) Hit)
    as H3.
  pose proof (count_slots_insert holds_replaceable_NOP _ _ _ None Hj) as H4.
  unfold holds_other, holds_replaceable_NOP in H1, H2, H3, H4.
  simpl in H1, H2, H3, H4.
  rewrite Hrepl, Hinst_nop in H1, H3. rewrite Hcand_nop in H2, H4.
  simpl in H1, H2, H3, H4.
  fold holds_other in H1, H2. fold holds_replaceable_NOP in H3, H4.
  fold installed. lia.
Qed.

Lemma replaceNOPs_loop_count fuel : forall b it,
  count_slots holds_other (replaceNOPs_loop N fuel b it).1
  = count_slots holds_other b
  /\ count_slots holds_replaceable_NOP (replaceNOPs_loop N fuel b it).1
     + length (replaceNOPs_loop N fuel b it).2
     = count_slots holds_replaceable_NOP b.
Proof.
  induction fuel as [|fuel IH]; intros b it; simpl; [lia|].
  destruct (isEndOfBlock b it); [simpl; lia|].
  pose proof (replaceNOPs_body_count b it) as (Hother & _ & Hnops).
  destruct (replaceNOPs_body N b it) as [block1 moved].
  cbn [fst snd] in Hother, Hnops.
  specialize (IH block1 (nextInBlock it)).
  destruct (replaceNOPs_loop N fuel block1 (nextInBlock it)) as [block2 log].
  cbn [fst snd] in IH |- *. rewrite length_app. lia.
Qed.

(** X26. [replaceNOPs] keeps the number of instructions other than NOPs
    without side effects, and for every instruction it reports as moved
    the block holds one such NOP less and one empty slot more. *)
Theorem replaceNOPs_counts b :
  count_slots holds_other (replaceNOPs N b) = count_slots holds_other b
  /\ count_slots holds_replaceable_NOP (replaceNOPs N b)
     + length (replaceNOPs_traced N b).2
     = count_slots holds_replaceable_NOP b
  /\ count_slots (fun slot => negb (bool_decide (is_Some slot)))
                 (replaceNOPs N b)
     = count_slots (fun slot => negb (bool_decide (is_Some slot))) b
       + length (replaceNOPs_traced N b).2.
Proof.
  unfold replaceNOPs, replaceNOPs_traced.
  destruct (replaceNOPs_loop_count (length b) b 0) as [Hother Hnops].
  split; [assumption|]. split; [assumption|].
  pose proof (replaceNOPs_loop_length N (length b) b 0) as Hlen.
  assert (Hparts : forall c : BasicBlock,
            count_slots holds_other c + count_slots holds_replaceable_NOP c
            + count_slots (fun slot => negb (bool_decide (is_Some slot))) c
            = length c).
  { intros c. unfold count_slots.
    induction c as [|slot c IH]; [reflexivity|].
    rewrite !filter_cons. simpl length.
    assert (Hcase :
      (holds_other slot = true /\ holds_replaceable_NOP slot = false
       /\ negb (bool_decide (is_Some slot)) = false)
      \/ (holds_other slot = false /\ holds_replaceable_NOP slot = true
          /\ negb (bool_decide (is_Some slot)) = false)
      \/ (holds_other slot = false /\ holds_replaceable_NOP slot = false
          /\ negb (bool_decide (is_Some slot)) = true)).
    { destruct slot as [instr|]; [|right; right; auto].
      unfold holds_other, holds_replaceable_NOP. simpl.
      destruct (replaceable_NOP instr); auto. }
    destruct Hcase as [(H1 & H2 & H3)|[(H1 & H2 & H3)|(H1 & H2 & H3)]];
      rewrite H1, H2, H3;
      repeat (match goal with
              | |- context [decide (?a = ?c)] => destruct (decide (a = c))
              end; try discriminate; try congruence); simpl; lia. }
  pose proof (Hparts b) as Hb.
  pose proof (Hparts (replaceNOPs_loop N (length b) b 0).1) as Hb'.
  lia.
Qed.

End ReplaceCount.

Section MoveExtras.
Import Locals IR Reordering Samples.
Local Open Scope nat_scope.

Implicit Types (b : BasicBlock) (instr : IntermediateInstruction).

(** X18. [moveInstructionUp(dest, it)], with [dest] at or before [it], rotates
    the slots from [dest] to [it] by one (the illustration in the source:
    "a b c d e f" becomes "f a b c d e"): the slot of [it] comes to stand at
    [dest], the slots from [dest] up to [it] move one further, everything
    else stays; the returned cursor designates the moved slot; the block
    keeps its length and its slots, up to their order. *)
Theorem moveInstructionUp_rotates b dest it slot :
  dest <= it -> b !! it = Some slot ->
  (moveInstructionUp b dest it).1
  = take dest b ++ slot :: take (it - dest) (drop dest b) ++ drop (S it) b
  /\ (moveInstructionUp b dest it).2 = dest
  /\ (moveInstructionUp b dest it).1 !! dest = Some slot
  /\ length (moveInstructionUp b dest it).1 = length b
  /\ (moveInstructionUp b dest it).1 ≡ₚ b.
Proof.
  intros Hle Hslot.
  pose proof (lookup_lt_Some _ _ _ Hslot) as Hlt.
  assert (Hres : (moveInstructionUp b dest it).1
                 = take dest b ++ slot :: take (it - dest) (drop dest b)
                   ++ drop (S it) b).
  { unfold moveInstructionUp, release, emplace_released, erase, get.
    rewrite Hslot. simpl mjoin. rewrite !bool_decide_eq_true_2 by assumption.
    cbn [fst].
    rewrite take_insert_ge by assumption.
    rewrite drop_insert_ge by assumption.
    rewrite delete_take_drop.
    rewrite take_app_ge by (rewrite length_take; lia).
    rewrite drop_app_ge by (rewrite length_take; lia).
    rewrite length_take.
    replace (S it - dest `min` length b) with (S (it - dest)) by lia.
    replace (S (S it) - dest `min` length b) with (S (S (it - dest))) by lia.
    simpl.
    rewrite take_insert_ge by lia.
    rewrite drop_insert_lt by lia.
    rewrite drop_drop.
    replace (dest + S (it - dest)) with (S it) by lia.
    rewrite <- app_assoc. reflexivity. }
  assert (Hsplit : b = take dest b ++ take (it - dest) (drop dest b)
                       ++ slot :: drop (S it) b).
  { rewrite <- (take_drop dest b) at 1. f_equal.
    rewrite <- (take_drop (it - dest) (drop dest b)) at 1. f_equal.
    rewrite drop_drop. replace (dest + (it - dest)) with it by lia.
    apply drop_S. assumption. }
  split; [assumption|]. split.
  { unfold moveInstructionUp, release.
    rewrite bool_decide_eq_true_2 by assumption. reflexivity. }
  rewrite Hres. split; [|split].
  - rewrite lookup_app_r by (rewrite length_take; lia).
    rewrite length_take. replace (dest - dest `min` length b) with 0 by lia.
    reflexivity.
  - rewrite Hsplit at 4. rewrite !length_app. simpl. rewrite !length_app.
    simpl. lia.
  - rewrite Hsplit at 4. apply Permutation_app_head.
    apply Permutation_middle.
Qed.

Lemma moveInstructionUp_rotates_witness :
  (moveInstructionUp block_independent 1 4).1
  = [ Some (label 0);
      Some (alu 4 (LOCAL 2) [LITERAL 5]);
      Some (alu 1 (LOCAL 0) [LITERAL 3]);
      Some (mkInstr 2 (Nop WAIT_REGISTER) None [] false false true false false);
      Some (alu 3 (LOCAL 1) [LOCAL 0; LITERAL 1]) ].
Proof.
  assert (Hle : 1 <= 4) by lia.
  exact (proj1 (moveInstructionUp_rotates block_independent 1 4
                  (Some (alu 4 (LOCAL 2) [LITERAL 5])) Hle eq_refl)).
Defined.

End MoveExtras.

Section PassExtras.
Import Locals IR Reordering Passes Samples.
Local Open Scope nat_scope.

Variable isLocallyLimited : Method -> InstructionWalker -> LocalPtr -> bool.

Implicit Types (b : BasicBlock) (m : Method) (s : SplitState).

(** X19. [splitReadAfterWrites] only puts WAIT_REGISTER NOPs in: the method
    keeps its blocks, every block keeps its slots in their order, every
    other slot of the result holds a new WAIT_REGISTER NOP, and the users
    recorded for the locals are as before. *)
Theorem splitReadAfterWrites_only_adds_placeholders m :
  Forall2 placeholders_added (getBasicBlocks m)
    (getBasicBlocks (splitReadAfterWrites isLocallyLimited m))
  /\ length (getBasicBlocks (splitReadAfterWrites isLocallyLimited m))
     = length (getBasicBlocks m)
  /\ locals (splitReadAfterWrites isLocallyLimited m) = locals m.
Proof.
  unfold splitReadAfterWrites. cbv zeta.
  destruct (splitReadAfterWrites_loop_added isLocallyLimited (split_fuel m)
              (mkSplit m (nextInMethod m (walkAllInstructions m))
                       (walkAllInstructions m) None)) as [Hb Hl].
  simpl in Hb, Hl. split; [assumption|]. split; [|assumption].
  symmetry. eapply Forall2_length. eassumption.
Qed.

(** The loop of [splitReadAfterWrites] while nothing is inserted: the
    recorded instruction is one of the method and writes the recorded
    local. *)
Lemma splitReadAfterWrites_loop_unchanged m fuel :
  (forall c instr, walker_get m c = Some instr ->
     hasPackMode instr = false /\ isVectorRotation instr = false) ->
  (forall c w x, walker_get m c = Some w -> getOutput w = Some (LOCAL x) ->
     isLocallyLimited m c x = true) ->
  forall s,
  method s = m ->
  (forall x, lastWrittenTo s = Some x ->
     exists w, walker_get m (lastInstruction s) = Some w
               /\ getOutput w = Some (LOCAL x)) ->
  method (splitReadAfterWrites_loop isLocallyLimited fuel s) = m.
Proof.
  intros Hplain Hlimited.
  induction fuel as [|fuel IH]; intros s Hm Hlast; simpl; [assumption|].
  destruct (isEndOfMethod (method s) (it s)); [assumption|].
  unfold splitReadAfterWrites_body. rewrite Hm.
  destruct (walker_get m (it s)) as [instr|] eqn:Hget.
  - assert (Hnosplit :
      match lastWrittenTo s with
      | Some local =>
          if readsLocal instr local
             && mustSplit isLocallyLimited m (lastInstruction s) local instr
          then (walker_emplace m (walker_nextInBlock (lastInstruction s))
                  (new_Nop (new_address m) WAIT_REGISTER),
                after_emplace (walker_nextInBlock (lastInstruction s)) (it s))
          else (m, it s)
      | None => (m, it s)
      end = (m, it s)).
    { destruct (lastWrittenTo s) as [x|] eqn:Hx; [|reflexivity].
      destruct (Hlast x eq_refl) as (w & Hw & Hout).
      unfold mustSplit. rewrite Hw. simpl.
      destruct (Hplain _ _ Hw) as [-> _].
      destruct (Hplain _ _ Hget) as [_ ->].
      rewrite (Hlimited _ _ _ Hw Hout). simpl.
      rewrite andb_false_r. reflexivity. }
    rewrite Hnosplit.
    destruct (mapsToASMInstruction instr); apply IH; cbn [method lastWrittenTo
      lastInstruction]; try reflexivity; try assumption.
    intros x Hx. exists instr. split; [assumption|].
    destruct (getOutput instr) as [[l| |]|]; try discriminate.
    injection Hx as ->. reflexivity.
  - apply IH; cbn [method lastWrittenTo lastInstruction];
      [reflexivity | assumption].
Qed.

(** X20. [splitReadAfterWrites] returns the method as it is when no instruction
    has a pack mode, none is a vector rotation, and every local written by
    an instruction is locally limited at that instruction. *)
Theorem splitReadAfterWrites_nothing_to_split m :
  (forall c instr, walker_get m c = Some instr ->
     hasPackMode instr = false /\ isVectorRotation instr = false) ->
  (forall c w x, walker_get m c = Some w -> getOutput w = Some (LOCAL x) ->
     isLocallyLimited m c x = true) ->
  splitReadAfterWrites isLocallyLimited m = m.
Proof.
  intros Hplain Hlimited. unfold splitReadAfterWrites. cbv zeta.
  apply splitReadAfterWrites_loop_unchanged; try assumption; [reflexivity|].
  intros x Hx. discriminate.
Qed.

(** X21. The loop of lines 315-321: [findWriter] returns a position at or before
    the one it starts from; unless it is the start of the block, that slot
    holds an instruction whose output is the local; and no slot behind it,
    up to the one it starts from, holds such an instruction. The first slot
    of the block is not examined. *)
Theorem findWriter_nearest b loc start :
  findWriter b loc start <= start
  /\ (findWriter b loc start <> 0 ->
      exists instr,
        get b (findWriter b loc start) = Some instr
        /\ getOutput instr = Some (LOCAL loc))
  /\ (forall i instr,
        findWriter b loc start < i <= start -> get b i = Some instr ->
        getOutput instr <> Some (LOCAL loc))
  /\ (forall slot slot' rest,
        findWriter (slot' :: rest) loc start
        = findWriter (slot :: rest) loc start).
Proof.
  assert (Htest : forall i,
            has (fun instr => hasValueType_LOCAL instr
                              && from_option (fun out => hasLocal out loc) false
                                             (getOutput instr)) b i = true
            <-> exists instr, get b i = Some instr
                              /\ getOutput instr = Some (LOCAL loc)).
  { intros i. unfold has, hasValueType_LOCAL.
    destruct (get b i) as [instr|]; simpl.
    - destruct (getOutput instr) as [out|] eqn:Hout0; simpl.
      + unfold hasLocal. split.
        * intros [_ H]%andb_true_iff. apply bool_decide_eq_true in H.
          subst out. eauto.
        * intros (instr' & Heq & Hout). injection Heq as <-.
          rewrite Hout0 in Hout. injection Hout as ->. simpl.
          apply bool_decide_eq_true. reflexivity.
      + split; [discriminate|]. intros (instr' & Heq & Hout).
        injection Heq as <-. congruence.
    - split; [discriminate|]. intros (instr' & Heq & _). discriminate. }
  split; [|split; [|split]].
  - induction start as [|start IH]; simpl; [lia|].
    destruct (has _ b (S start)); lia.
  - induction start as [|start IH]; simpl; [congruence|].
    destruct (has _ b (S start)) eqn:Hhas; [|assumption].
    intros _. apply Htest. assumption.
  - induction start as [|start IH]; simpl; [intros; lia|].
    intros i instr Hi Hget Hout.
    destruct (has _ b (S start)) eqn:Hhas; [lia|].
    destruct (decide (i = S start)) as [->|Hne].
    + assert (Htrue : has (fun instr => hasValueType_LOCAL instr
                              && from_option (fun out => hasLocal out loc) false
                                             (getOutput instr)) b (S start) = true)
        by (apply Htest; eauto).
      congruence.
    + apply (IH i instr); [lia | assumption | assumption].
  - intros slot slot' rest.
    induction start as [|start IH]; simpl; [reflexivity|].
    unfold has, get in *. simpl. rewrite IH. reflexivity.
Qed.

End PassExtras.

Section PassExtraWitnesses.
Import Locals IR Reordering Passes Samples.
Local Open Scope nat_scope.

Lemma splitReadAfterWrites_nothing_to_split_witness :
  splitReadAfterWrites always_limited method_write_read = method_write_read.
Proof.
  apply (splitReadAfterWrites_nothing_to_split always_limited method_write_read).
  - intros [[|bi] [|[|[|p]]]] instr Hget; vm_compute in Hget;
      try discriminate Hget; injection Hget as <-; split; reflexivity.
  - intros c w x _ _. reflexivity.
Defined.

Lemma findWriter_nearest_witness :
  exists instr,
    get (getBasicBlock method_write_nops_rotate (mkWalker 0 0)) 1 = Some instr
    /\ getOutput instr = Some (LOCAL 0).
Proof.
  apply (proj1 (proj2 (findWriter_nearest
                         (getBasicBlock method_write_nops_rotate (mkWalker 0 0))
                         0 3))).
  vm_compute. discriminate.
Defined.

End PassExtraWitnesses.

Section SplitExtras.
Import Locals IR Reordering Passes Samples.
Local Open Scope nat_scope.

Variable isLocallyLimited : Method -> InstructionWalker -> LocalPtr -> bool.

Implicit Types (b : BasicBlock) (m : Method) (s : SplitState).

(** X22. [splitReadAfterWrites] puts the NOP right behind the write. Let a
    block hold the write [w] of the local [x] (encoded as a machine
    instruction, and not the very first instruction of the method), then
    instructions that are not encoded and do not read [x] (labels), then a
    read [r] of [x] that is encoded. [m1] is the method when the loop stands
    at the read: [m] with the placeholders put in so far, the block being
    as it was from the write on. When [w] has a pack mode, or [r] is a
    vector rotation, or [x] is not locally limited at the write in [m1] (the
    one question of line 271): afterwards the block holds [w], a new
    WAIT_REGISTER NOP, the unencoded instructions and [r], in this order
    side by side (write-nop-label-read, not write-label-nop-read). When none
    of the three holds, it holds them without the NOP. *)
Theorem split_behind_the_write m bi pre w labels r post x :
  getBasicBlocks m !! bi
  = Some (pre ++ Some w :: (Some <$> labels) ++ Some r :: post) ->
  bi <> 0 \/ pre <> [] ->
  mapsToASMInstruction w = true -> getOutput w = Some (LOCAL x) ->
  Forall (fun l => mapsToASMInstruction l = false /\ readsLocal l x = false)
         labels ->
  readsLocal r x = true -> mapsToASMInstruction r = true ->
  exists m1 pre1,
    getBasicBlocks m1 !! bi
    = Some (pre1 ++ Some w :: (Some <$> labels) ++ Some r :: post)
    /\ ahead m1 (mkWalker bi (length pre1)) = ahead m (mkWalker bi (length pre))
    /\ Forall2 placeholders_added (getBasicBlocks m) (getBasicBlocks m1)
    /\ locals m1 = locals m
    /\ (hasPackMode w = true \/ isVectorRotation r = true
        \/ isLocallyLimited m1 (mkWalker bi (length pre1)) x = false ->
        exists post',
          getBasicBlocks (splitReadAfterWrites isLocallyLimited m) !! bi
          = Some (pre1 ++ Some w
                       :: Some (new_Nop (new_address m1) WAIT_REGISTER)
                       :: (Some <$> labels) ++ Some r :: post'))
    /\ (hasPackMode w = false -> isVectorRotation r = false ->
        isLocallyLimited m1 (mkWalker bi (length pre1)) x = true ->
        exists post',
          getBasicBlocks (splitReadAfterWrites isLocallyLimited m) !! bi
          = Some (pre1 ++ Some w :: (Some <$> labels) ++ Some r :: post')).
Proof.
  intros Hblock Hfirst Hasm_w Hout Hlabels Hreads Hasm_r.
  set (c := mkWalker bi (length pre)).
  assert (Hahead : ahead m c
                   = (Some w :: (Some <$> labels) ++ Some r :: post,
                      drop (S bi) (getBasicBlocks m))).
  { unfold ahead, getBasicBlock, c. cbn [basicBlock pos].
    rewrite Hblock. simpl. rewrite drop_app_length. reflexivity. }
  assert (Hc : c ≠ walkAllInstructions m).
  { unfold c, walkAllInstructions. intros Heq. injection Heq as -> Hlen.
    destruct Hfirst as [?|Hpre]; [congruence|].
    destruct pre; [congruence | discriminate]. }
  destruct (split_at_write isLocallyLimited m c w labels r x post _ Hahead Hc Hasm_w Hout
              Hlabels Hreads Hasm_r)
    as (m1 & c1 & Hahead1 & Hbi & Hadded & Hlocals & Hplain & Hsplit).
  pose proof Hahead1 as Hsame. rewrite Hahead in Hahead1.
  destruct (ahead_block m1 c1 _ _ Hahead1) as (Hblock1 & Hcut1 & Hlt1);
    [discriminate|].
  cbn [basicBlock c] in Hbi.
  set (pre1 := take (pos c1) (getBasicBlock m1 c1)) in *.
  assert (Hpre1 : length pre1 = pos c1)
    by (unfold pre1; rewrite length_take; lia).
  assert (Hc1 : mkWalker bi (length pre1) = c1)
    by (rewrite Hpre1, <- Hbi; destruct c1; reflexivity).
  set (final := splitReadAfterWrites isLocallyLimited m) in *.
  assert (Hfinal : forall n (seg : BasicBlock),
            take n (getBasicBlock final c1) = pre1 ++ seg ->
            seg <> [] ->
            getBasicBlocks final !! bi
            = Some (pre1 ++ seg ++ drop n (getBasicBlock final c1))).
  { intros n seg Htake Hseg.
    rewrite app_assoc, <- Htake, take_drop.
    unfold getBasicBlock in *. rewrite Hbi in *.
    destruct (getBasicBlocks final !! bi) as [B|]; [reflexivity|].
    simpl in Htake. rewrite take_nil in Htake.
    destruct pre1, seg; try discriminate. contradiction. }
  exists m1, pre1. rewrite Hc1.
  split; [rewrite <- Hbi, Hblock1, Hcut1 at 1; reflexivity|].
  split; [exact Hsame|].
  split; [assumption|]. split; [assumption|]. split.
  - intros Htrigger. specialize (Hsplit Htrigger).
    eexists. rewrite (Hfinal _ _ Hsplit) by discriminate.
    simpl. rewrite <- !app_assoc. reflexivity.
  - intros Hpack Hnorot Hlimited.
    specialize (Hplain Hpack Hnorot Hlimited).
    eexists. rewrite (Hfinal _ _ Hplain) by discriminate.
    simpl. rewrite <- !app_assoc. reflexivity.
Qed.

End SplitExtras.

Section PassWitnesses.
Import Locals IR Reordering Passes Samples.
Local Open Scope nat_scope.

Lemma split_behind_the_write_witness :
  (exists pre1 addr post',
      getBasicBlocks (splitReadAfterWrites (limited_within 1)
                                           method_write_label_rotate) !! 0
      = Some (pre1 ++ Some (alu 1 (LOCAL 0) [LITERAL 3])
                   :: Some (new_Nop addr WAIT_REGISTER)
                   :: (Some <$> [label 5])
                   ++ Some (rotation 2 (LOCAL 1) [LOCAL 0; LITERAL 1])
                   :: post'))
  /\ (exists pre1 addr post',
        getBasicBlocks (splitReadAfterWrites (limited_within 1)
                                             method_write_read_later) !! 0
        = Some (pre1 ++ Some (alu 1 (LOCAL 0) [LITERAL 3])
                     :: Some (new_Nop addr WAIT_REGISTER)
                     :: (Some <$> [])
                     ++ Some (alu 2 (LOCAL 1) [LOCAL 0; LITERAL 1]) :: post'))
  /\ (exists pre1 post',
        getBasicBlocks (splitReadAfterWrites (limited_within 1)
                                             method_write_read) !! 0
        = Some (pre1 ++ Some (alu 1 (LOCAL 0) [LITERAL 3])
                     :: (Some <$> [])
                     ++ Some (alu 2 (LOCAL 1) [LOCAL 0; LITERAL 1]) :: post')).
Proof.
  split; [|split].
  - destruct (split_behind_the_write (limited_within 1)
                method_write_label_rotate 0
                [Some (label 0)] (alu 1 (LOCAL 0) [LITERAL 3]) [label 5]
                (rotation 2 (LOCAL 1) [LOCAL 0; LITERAL 1]) [] 0)
      as (m1 & pre1 & _ & _ & _ & _ & Hsplit & _); try reflexivity.
    { right. discriminate. }
    { constructor; [split; reflexivity | constructor]. }
    destruct Hsplit as [post' Hpost]; [right; left; reflexivity|].
    exists pre1, (new_address m1), post'. exact Hpost.
  - destruct (split_behind_the_write (limited_within 1)
                method_write_read_later 0
                [Some (label 0)] (alu 1 (LOCAL 0) [LITERAL 3]) []
                (alu 2 (LOCAL 1) [LOCAL 0; LITERAL 1])
                [Some (alu 3 (LOCAL 2) [LOCAL 1; LITERAL 1]);
                 Some (alu 4 (LOCAL 3) [LOCAL 0; LOCAL 2])] 0)
      as (m1 & pre1 & _ & Hahead & _ & _ & Hsplit & _); try reflexivity.
    { right. discriminate. }
    { constructor. }
    destruct Hsplit as [post' Hpost].
    { right. right. unfold limited_within. rewrite Hahead. reflexivity. }
    exists pre1, (new_address m1), post'. exact Hpost.
  - destruct (split_behind_the_write (limited_within 1)
                method_write_read 0
                [Some (label 0)] (alu 1 (LOCAL 0) [LITERAL 3]) []
                (alu 2 (LOCAL 1) [LOCAL 0; LITERAL 1]) [] 0)
      as (m1 & pre1 & _ & Hahead & _ & _ & _ & Hplain); try reflexivity.
    { right. discriminate. }
    { constructor. }
    destruct Hplain as [post' Hpost]; try reflexivity.
    { unfold limited_within. rewrite Hahead. reflexivity. }
    exists pre1, post'. exact Hpost.
Defined.

(** The same, run: write-nop-label-read. *)
Lemma split_write_label_rotate :
  getBasicBlocks (splitReadAfterWrites never_limited method_write_label_rotate)
  = [[ Some (label 0);
       Some (alu 1 (LOCAL 0) [LITERAL 3]);
       Some (new_Nop 6 WAIT_REGISTER);
       Some (label 5);
       Some (rotation 2 (LOCAL 1) [LOCAL 0; LITERAL 1]) ]].
Proof. vm_compute. reflexivity. Qed.

End PassWitnesses.
